(** * Receipt amount normalisation and field extraction

    A shallow embedding of [src/utils/currencyParser.ts]:
    [parseNorwegianCurrency] (the amount normaliser) and
    [extractStructuredFields] (the receipt field extractor), together with
    the part of the JavaScript runtime they call: string primitives,
    [parseFloat] over IEEE-754 binary64, and the backtracking regular
    expression matcher of ECMAScript. *)

From Stdlib Require Import Ascii String.
From Stdlib Require Import List NArith ZArith Bool Lia.
From Stdlib Require Import SpecFloat.
Import ListNotations.

Set Implicit Arguments.

(** ** Characters and strings

    A JavaScript string is a sequence of UTF-16 code units; [slice],
    [length] and the regular expressions of the source (none carries the
    [u] flag) all count and compare code units. *)

Definition char := N.
Bind Scope N_scope with char.
Definition jsstring := list char.

Definition code (a : ascii) : char := N_of_ascii a.

Fixpoint codes (s : string) : jsstring :=
  match s with
  | EmptyString => []
  | String a r => code a :: codes r
  end.

Definition in_range (lo hi c : char) : bool := (N.leb lo c && N.leb c hi)%bool.

(** [\d] *)
Definition is_digit (c : char) : bool := in_range 48 57 c.

(** [\s], which is also the set removed by [String.prototype.trim]:
    WhiteSpace and LineTerminator of ECMAScript. *)
Definition is_space (c : char) : bool :=
  (in_range 9 13 c || N.eqb c 32 || N.eqb c 160 || N.eqb c 5760
   || in_range 8192 8202 c || N.eqb c 8232 || N.eqb c 8233 || N.eqb c 8239
   || N.eqb c 8287 || N.eqb c 12288 || N.eqb c 65279)%bool.

(** The word characters that [\b] looks at: [A-Za-z0-9_]. *)
Definition is_word (c : char) : bool :=
  (in_range 97 122 c || in_range 65 90 c || is_digit c || N.eqb c 95)%bool.

(** Simple upper-case mapping of a code unit.  The ASCII and Latin-1 rows
    of the Unicode table are written out; above U+00FF the code unit is
    left as it is.  Every pattern of the source is built from ASCII
    characters and the letters of [beløp] and [å], whose case variants all
    lie in these two rows, so comparisons against them are exact. *)
Definition upper_code (c : char) : char :=
  if in_range 97 122 c then (c - 32)%N
  else if N.eqb c 181 then 924%N
  else if N.eqb c 247 then c
  else if in_range 224 254 c then (c - 32)%N
  else if N.eqb c 255 then 376%N
  else c.

(** [Canonicalize] of the ECMAScript pattern semantics under the [i] flag:
    a code unit at or above 128 never folds into ASCII. *)
Definition canonicalize (c : char) : char :=
  let u := upper_code c in
  if (N.leb 128 c && N.ltb u 128)%bool then c else u.

Module JSString.

Definition is_empty (s : jsstring) : bool :=
  match s with [] => true | _ => false end.

Fixpoint trimStart (s : jsstring) : jsstring :=
  match s with
  | c :: r => if is_space c then trimStart r else s
  | [] => []
  end.

Definition trimEnd (s : jsstring) : jsstring := rev (trimStart (rev s)).

Definition trim (s : jsstring) : jsstring := trimEnd (trimStart s).

(** [s.includes(c)] for a one-character search string. *)
Definition includes (s : jsstring) (c : char) : bool := existsb (N.eqb c) s.

(** [s.lastIndexOf(c)] for a one-character search string; -1 when absent. *)
Fixpoint lastIndexOf_from (i : Z) (found : Z) (s : jsstring) (c : char) : Z :=
  match s with
  | [] => found
  | d :: r => lastIndexOf_from (i + 1) (if N.eqb d c then i else found) r c
  end.

Definition lastIndexOf (s : jsstring) (c : char) : Z := lastIndexOf_from 0 (-1) s c.

(** [s.substring(start)] *)
Definition substring (s : jsstring) (start : Z) : jsstring :=
  skipn (Z.to_nat start) s.

(** [s.slice(0, n)] *)
Definition slice0 (n : nat) (s : jsstring) : jsstring := firstn n s.

(** [s.replace(c, d)] with a string pattern: only the first occurrence
    is replaced. *)
Fixpoint replace1 (c d : char) (s : jsstring) : jsstring :=
  match s with
  | [] => []
  | x :: r => if N.eqb x c then d :: r else x :: replace1 c d r
  end.

(** [s.toUpperCase()].  Inside Latin-1 only the sharp s has a different
    length upper-case form. *)
Definition toUpperCase (s : jsstring) : jsstring :=
  flat_map (fun c => if N.eqb c 223 then [83; 83]%N else [upper_code c]) s.

Fixpoint starts_with (p s : jsstring) : bool :=
  match p, s with
  | [], _ => true
  | a :: p', b :: s' => (N.eqb a b && starts_with p' s')%bool
  | _ :: _, [] => false
  end.

Fixpoint span (p : char -> bool) (s : jsstring) : jsstring * jsstring :=
  match s with
  | c :: r => if p c then let (a, b) := span p r in (c :: a, b) else ([], s)
  | [] => ([], [])
  end.

End JSString.

(** ** Numbers

    A JavaScript number is an IEEE-754 binary64 value.  It is modelled by
    the specification floats of the standard library at precision 53 and
    exponent bound 1024, compared by [SFcompare]. *)

Module JSNumber.

Definition number := spec_float.

Definition prec : Z := 53.
Definition emax : Z := 1024.

Definition NaN : number := S754_nan.
Definition zero : number := S754_zero false.

Definition isNaN (v : number) : bool :=
  match v with S754_nan => true | _ => false end.

(** ToBoolean on a number: false for [+0], [-0] and [NaN]. *)
Definition truthy (v : number) : bool :=
  match v with
  | S754_zero _ | S754_nan => false
  | _ => true
  end.

Definition lt (a b : number) : bool := SFltb a b.
Definition gt (a b : number) : bool := SFltb b a.
Definition le (a b : number) : bool := SFleb a b.

(** The Number value for the mathematical value [m * 10^e] of a decimal
    literal: the nearest binary64 value, ties to even.  A non-negative
    power of ten multiplies the mantissa exactly before rounding, a
    negative one divides it with the remainder kept as rounding
    location. *)
Definition decimal (neg : bool) (m : N) (e : Z) : number :=
  match m with
  | N0 => S754_zero neg
  | Npos p =>
      if (0 <=? e)%Z then
        binary_round prec emax neg (p * Z.to_pos (10 ^ e)) 0
      else
        let '(q, e', l) :=
          SFdiv_core_binary prec emax (Zpos p) 0 (10 ^ (- e))%Z 0 in
        binary_round_aux prec emax neg q e' l
  end.

(** The number written [n] in the source, for a natural literal. *)
Definition of_N (n : N) : number := decimal false n 0.

Definition digit_val (c : char) : N := (c - 48)%N.

Definition digits_value (ds : jsstring) : N :=
  fold_left (fun acc c => (10 * acc + digit_val c)%N) ds 0%N.

(** ExponentPart of StrDecimalLiteral: [e] or [E], an optional sign and
    at least one digit; anything else is not part of the number. *)
Definition exponent_part (s : jsstring) : Z :=
  match s with
  | c :: r =>
      if (N.eqb c 101 || N.eqb c 69)%bool then
        let '(sg, r') :=
          match r with
          | d :: r1 =>
              if N.eqb d 45 then (true, r1)
              else if N.eqb d 43 then (false, r1) else (false, r)
          | [] => (false, r)
          end in
        let (ds, _) := JSString.span is_digit r' in
        match ds with
        | [] => 0%Z
        | _ => if sg then (- Z.of_N (digits_value ds))%Z
               else Z.of_N (digits_value ds)
        end
      else 0%Z
  | [] => 0%Z
  end.

(** StrUnsignedDecimalLiteral: [Infinity], or digits with an optional
    fraction and exponent; at least one digit is required. *)
Definition parse_unsigned (neg : bool) (s : jsstring) : number :=
  if JSString.starts_with (codes "Infinity") s then S754_infinity neg
  else
    let (ip, s1) := JSString.span is_digit s in
    let (fp, s2) :=
      match s1 with
      | c :: r => if N.eqb c 46 then JSString.span is_digit r else ([], s1)
      | [] => ([], s1)
      end in
    match ip ++ fp with
    | [] => NaN
    | ds => decimal neg (digits_value ds)
              (exponent_part s2 - Z.of_nat (length fp))
    end.

(** [parseFloat]: leading white space is skipped, then the longest
    prefix that is a StrDecimalLiteral (an optional sign and an unsigned
    literal) is converted; [NaN] when there is none. *)
Definition parseFloat (input : jsstring) : number :=
  match JSString.trimStart input with
  | c :: r =>
      if N.eqb c 45 then parse_unsigned true r
      else if N.eqb c 43 then parse_unsigned false r
      else parse_unsigned false (c :: r)
  | [] => NaN
  end.

End JSNumber.

(** ** Regular expressions

    The patterns of the source, as abstract syntax, and the backtracking
    matcher of ECMAScript (22.2.2) in continuation-passing style: a
    matcher takes the current state and a continuation that decides
    whether the rest of the pattern matches from the state it is given. *)

Module RegExp.

Inductive regex : Type :=
| Eps
| Chr (p : char -> bool)
| Seq (r1 r2 : regex)
| Alt (r1 r2 : regex)
| Rep (min : nat) (max : option nat) (r : regex)
| Grp (n : nat) (r : regex)
| Bol
| Eol
| WordB.

(** The matcher state.  [before] holds the input to the left of the
    current position, nearest character first; [after] the input from
    the current position on; [pos] counts the characters consumed since
    the match attempt started; [caps] maps the groups closed so far to
    the text they captured, most recent first. *)
Record mstate : Type := MState {
  before : jsstring;
  after : jsstring;
  pos : nat;
  caps : list (nat * jsstring)
}.

Definition cont := mstate -> option mstate.
Definition matcher := mstate -> cont -> option mstate.

Fixpoint groups (r : regex) : list nat :=
  match r with
  | Seq a b | Alt a b => groups a ++ groups b
  | Rep _ _ a => groups a
  | Grp n a => n :: groups a
  | _ => []
  end.

Definition advance (c : char) (rest : jsstring) (x : mstate) : mstate :=
  MState (c :: before x) rest (S (pos x)) (caps x).

Definition clear (ns : list nat) (x : mstate) : mstate :=
  MState (before x) (after x) (pos x)
    (filter (fun e => negb (existsb (Nat.eqb (fst e)) ns)) (caps x)).

Definition capture (n : nat) (x y : mstate) : mstate :=
  MState (before y) (after y) (pos y)
    ((n, rev (firstn (pos y - pos x) (before y))) :: caps y).

Definition word_before (x : mstate) : bool :=
  match before x with c :: _ => is_word c | [] => false end.

Definition word_after (x : mstate) : bool :=
  match after x with c :: _ => is_word c | [] => false end.

Section Repeat.
Variable m : matcher.
Variable inner : list nat.

(** RepeatMatcher for a greedy quantifier.  An iteration that is not
    required and consumes nothing is rejected, so every step either
    lowers [min] or moves forward in the input; [fuel] bounds the
    number of steps and is taken large enough by [rmatch]. *)
Fixpoint repeat (fuel min : nat) (max : option nat) (x : mstate) (k : cont)
  : option mstate :=
  match fuel with
  | O => None
  | S fuel' =>
      match max with
      | Some O => k x
      | _ =>
          let d := fun y : mstate =>
            if (Nat.eqb min 0 && Nat.eqb (pos y) (pos x))%bool then None
            else repeat fuel' (Nat.pred min) (option_map Nat.pred max) y k in
          let xr := clear inner x in
          if Nat.eqb min 0 then
            match m xr d with
            | Some z => Some z
            | None => k x
            end
          else m xr d
      end
  end.
End Repeat.

Fixpoint rmatch (r : regex) (x : mstate) (k : cont) {struct r} : option mstate :=
  match r with
  | Eps => k x
  | Chr p =>
      match after x with
      | c :: rest => if p c then k (advance c rest x) else None
      | [] => None
      end
  | Seq r1 r2 => rmatch r1 x (fun y => rmatch r2 y k)
  | Alt r1 r2 =>
      match rmatch r1 x k with
      | Some z => Some z
      | None => rmatch r2 x k
      end
  | Rep min max r' =>
      repeat (rmatch r') (groups r') (S (min + length (after x))) min max x k
  | Grp n r' => rmatch r' x (fun y => k (capture n x y))
  | Bol => match before x with [] => k x | _ => None end
  | Eol => match after x with [] => k x | _ => None end
  | WordB => if xorb (word_before x) (word_after x) then k x else None
  end.

(** The match record returned to the program: where the match starts,
    the matched text ([match[0]]), the captured groups, and the input on
    both sides of the end of the match, from where a global pattern
    resumes. *)
Record result : Type := Result {
  index : nat;
  matched : jsstring;
  captures : list (nat * jsstring);
  end_before : jsstring;
  end_after : jsstring
}.

Definition result_of (idx : nat) (y : mstate) : result :=
  Result idx (rev (firstn (pos y) (before y))) (caps y) (before y) (after y).

Fixpoint assoc (n : nat) (l : list (nat * jsstring)) : option jsstring :=
  match l with
  | [] => None
  | (i, s) :: r => if Nat.eqb i n then Some s else assoc n r
  end.

(** [m[n]]: [undefined] for a group that did not take part. *)
Definition group (m : result) (n : nat) : option jsstring :=
  match n with
  | O => Some (matched m)
  | _ => assoc n (captures m)
  end.

Definition start (bef aft : jsstring) : mstate := MState bef aft 0 [].

(** RegExpBuiltinExec: the first position at or after the current one
    where the pattern matches. *)
Fixpoint search (r : regex) (bef aft : jsstring) (idx : nat) : option result :=
  match rmatch r (start bef aft) Some with
  | Some y => Some (result_of idx y)
  | None =>
      match aft with
      | [] => None
      | c :: aft' => search r (c :: bef) aft' (S idx)
      end
  end.

(** [s.match(r)] for a pattern without the [g] flag. *)
Definition smatch (r : regex) (s : jsstring) : option result := search r [] s 0.

(** [r.test(s)] for a pattern without the [g] flag. *)
Definition test (r : regex) (s : jsstring) : bool :=
  match smatch r s with Some _ => true | None => false end.

(** The matches seen by [while ((match = r.exec(s)))] for a pattern with
    the [g] flag: each search resumes at the end of the previous match.
    [exec] does not step over an empty match, so a pattern that matches
    the empty string keeps the loop running for ever; [None] stands for
    a loop that is still running when the fuel is spent. *)
Fixpoint exec_all (fuel : nat) (r : regex) (bef aft : jsstring) (idx : nat)
  : option (list result) :=
  match fuel with
  | O => None
  | S fuel' =>
      match search r bef aft idx with
      | None => Some []
      | Some m =>
          option_map (cons m)
            (exec_all fuel' r (end_before m) (end_after m)
               (index m + length (matched m)))
      end
  end.

(** [s.replace(r, rep)] for a pattern with the [g] flag and a
    replacement text without [$]: the input is walked left to right,
    each match is replaced and the walk resumes at its end; after an
    empty match one character is copied. *)
Fixpoint replace_loop (fuel : nat) (r : regex) (rep bef aft : jsstring)
  : jsstring :=
  match fuel with
  | O => aft
  | S fuel' =>
      let step :=
        match aft with
        | [] => []
        | c :: aft' => c :: replace_loop fuel' r rep (c :: bef) aft'
        end in
      match rmatch r (start bef aft) Some with
      | Some y =>
          if Nat.eqb (pos y) 0 then rep ++ step
          else rep ++ replace_loop fuel' r rep (before y) (after y)
      | None => step
      end
  end.

Definition replace_all (r : regex) (rep s : jsstring) : jsstring :=
  replace_loop (S (length s)) r rep [] s.

(** [s.split(r)]: at each position short of the end the separator is
    tried; a match that ends where the current piece starts is skipped. *)
Fixpoint split_loop (fuel : nat) (r : regex) (bef aft piece : jsstring)
  : list jsstring :=
  match fuel with
  | O => [rev piece ++ aft]
  | S fuel' =>
      match aft with
      | [] => [rev piece]
      | c :: aft' =>
          match rmatch r (start bef aft) Some with
          | Some y =>
              if (Nat.eqb (pos y) 0 && JSString.is_empty piece)%bool then
                split_loop fuel' r (c :: bef) aft' (c :: piece)
              else
                rev piece :: split_loop fuel' r (before y) (after y) []
          | None => split_loop fuel' r (c :: bef) aft' (c :: piece)
          end
      end
  end.

Definition split (r : regex) (s : jsstring) : list jsstring :=
  match s with
  | [] => match rmatch r (start [] []) Some with Some _ => [] | None => [[]] end
  | _ => split_loop (2 * length s + 1) r [] s []
  end.

(** *** Pattern syntax *)

Definition chr (c : char) : regex := Chr (N.eqb c).

(** A literal character under the [i] flag. *)
Definition chr_i (c : char) : regex :=
  Chr (fun x => N.eqb (canonicalize x) (canonicalize c)).

Fixpoint seq (rs : list regex) : regex :=
  match rs with
  | [] => Eps
  | [r] => r
  | r :: rs' => Seq r (seq rs')
  end.

Fixpoint alt (rs : list regex) : regex :=
  match rs with
  | [] => Eps
  | [r] => r
  | r :: rs' => Alt r (alt rs')
  end.

(** A run of literal characters under the [i] flag. *)
Definition word_i (s : string) : regex := seq (map chr_i (codes s)).

Definition star (r : regex) : regex := Rep 0 None r.
Definition plus (r : regex) : regex := Rep 1 None r.
Definition opt (r : regex) : regex := Rep 0 (Some 1) r.
Definition times (n : nat) (r : regex) : regex := Rep n (Some n) r.
Definition between (n m : nat) (r : regex) : regex := Rep n (Some m) r.
Definition at_least (n : nat) (r : regex) : regex := Rep n None r.

Definition digit : regex := Chr is_digit.
Definition space : regex := Chr is_space.
Definition one_of (s : string) : regex :=
  Chr (fun c => existsb (N.eqb c) (codes s)).

End RegExp.

(** ** The program: [src/utils/currencyParser.ts] *)

Module CurrencyParser.
Import JSString JSNumber RegExp.

Definition comma : char := 44.
Definition dot : char := 46.

(** A character class under the [i] flag.  The classes of the source
    hold digits, separators and white space only, which case folding
    leaves alone, so a character belongs to the class when its canonical
    form does. *)
Definition cls_i (p : char -> bool) : regex := Chr (fun c => p (canonicalize c)).

Definition is_sep (c : char) : bool := (N.eqb c dot || N.eqb c comma)%bool.
Definition is_space_sep (c : char) : bool := (is_space c || is_sep c)%bool.

(** [/\./g], [/,/g], [/^\d{2}$/] and [/[^\d.]/g] *)
Definition re_dots : regex := chr dot.
Definition re_commas : regex := chr comma.
Definition re_two_digits : regex := seq [Bol; times 2 digit; Eol].
Definition re_not_digit_or_dot : regex :=
  Chr (fun c => negb (is_digit c || N.eqb c dot)).

Definition parseNorwegianCurrency (moneyStr : jsstring) : option number :=
  if is_empty moneyStr then None
  else
    let cleaned := trim moneyStr in
    let hasComma := includes cleaned comma in
    let hasDot := includes cleaned dot in
    let lastCommaPos := lastIndexOf cleaned comma in
    let lastDotPos := lastIndexOf cleaned dot in
    let normalized :=
      if (hasComma && hasDot)%bool then
        if (lastCommaPos >? lastDotPos)%Z then
          replace1 comma dot (replace_all re_dots [] cleaned)
        else
          replace_all re_commas [] cleaned
      else if (hasComma && negb hasDot)%bool then
        let afterComma := substring cleaned (lastCommaPos + 1) in
        if (Nat.eqb (length afterComma) 2 && test re_two_digits afterComma)%bool
        then replace1 comma dot cleaned
        else replace_all re_commas [] cleaned
      else if (hasDot && negb hasComma)%bool then
        let afterDot := substring cleaned (lastDotPos + 1) in
        if (Nat.eqb (length afterDot) 2 && test re_two_digits afterDot)%bool
        then cleaned
        else replace_all re_dots [] cleaned
      else cleaned in
    let normalized := replace_all re_not_digit_or_dot [] normalized in
    let result := parseFloat normalized in
    if isNaN result then None else Some result.

(** The argument of [parseNorwegianCurrency] when it is a capture group
    that may be [undefined]: [!moneyStr] holds and nothing is returned. *)
Definition parse_capture (s : option jsstring) : option number :=
  match s with
  | Some str => parseNorwegianCurrency str
  | None => None
  end.

Record fields : Type := Fields {
  merchant : option jsstring;
  vatAmount : option number;
  total : option number;
  currency : option jsstring
}.

(** [/\r?\n/] *)
Definition re_newline : regex := seq [opt (chr 13); chr 10].

Definition storePatterns : list regex :=
  [ seq [word_i "BILTEMA"; star (cls_i is_space); word_i "NORGE"];
    word_i "BILTEMA";
    word_i "ANTONSPORT";
    seq [word_i "COOP"; star (cls_i is_space); word_i "PRIX"];
    seq [word_i "REMA"; star (cls_i is_space); word_i "1000"];
    seq [word_i "ICA"; star (cls_i is_space); word_i "SUPERMARKET"];
    word_i "KIWI";
    word_i "BUNNPRIS";
    word_i "MENY";
    word_i "EUROPRIS";
    word_i "PLANTASJEN";
    word_i "SPORTSHOLDING" ].

(** [/\s+/g], [/SPORTSHOLDING/i] and [/ANTONSPORT/i] *)
Definition re_spaces : regex := plus space.
Definition re_sportsholding : regex := word_i "SPORTSHOLDING".
Definition re_antonsport : regex := word_i "ANTONSPORT".

(** [/(?:org\.?\s*nr|bus\.?\s*reg\.?\s*no)/i] *)
Definition re_org : regex :=
  alt [ seq [word_i "org"; opt (chr_i dot); star (cls_i is_space); word_i "nr"];
        seq [word_i "bus"; opt (chr_i dot); star (cls_i is_space);
             word_i "reg"; opt (chr_i dot); star (cls_i is_space); word_i "no"] ].

(** [/^\d+\s|\d{4}\s/] *)
Definition re_address : regex :=
  alt [ seq [Bol; plus digit; space]; seq [times 4 digit; space] ].

(** [/(telefon|phone)/i] *)
Definition re_phone : regex := Grp 1 (alt [word_i "telefon"; word_i "phone"]).

(** [/[a-zA-ZæøåÆØÅ]{3,}/] *)
Definition is_letter (c : char) : bool :=
  (in_range 97 122 c || in_range 65 90 c
   || existsb (N.eqb c) [230; 248; 229; 198; 216; 197]%N)%bool.
Definition re_letters : regex := at_least 3 (Chr is_letter).

(** [/\b(EUR|USD|GBP|SEK|DKK|NOK)\b/i] *)
Definition currencyCodes : list string := ["EUR"; "USD"; "GBP"; "SEK"; "DKK"; "NOK"]%string.
Definition re_currency : regex :=
  seq [WordB; Grp 1 (alt (map word_i currencyCodes)); WordB].

(** The amount shapes inside the patterns below:
    [[0-9]{1,4}(?:[.,]\s*[0-9]{3})*[.,][0-9]{2}],
    [[0-9]{1,4}(?:[.,][0-9]{3})*[.,][0-9]{2}],
    [[0-9]{1,4}(?:[\s.,][0-9]{3})*[.,][0-9]{2}] and [[0-9]+[.,][0-9]{2}],
    the first three under the [i] flag. *)
Definition digit_i : regex := cls_i is_digit.
Definition amount_loose : regex :=
  seq [between 1 4 digit_i;
       star (seq [cls_i is_sep; star (cls_i is_space); times 3 digit_i]);
       cls_i is_sep; times 2 digit_i].
Definition amount_i : regex :=
  seq [between 1 4 digit_i; star (seq [cls_i is_sep; times 3 digit_i]);
       cls_i is_sep; times 2 digit_i].
Definition amount_spaced (d s sp : regex) : regex :=
  seq [between 1 4 d; star (seq [sp; times 3 d]); s; times 2 d].
Definition amount_plain (d s : regex) : regex := seq [plus d; s; times 2 d].

Definition mva_or_vat : regex := alt [word_i "MVA"; word_i "VAT"].

(** The tax-rate breakdown line, [<base> 25% <vat>]. *)
Definition re_vat_breakdown : regex :=
  seq [Grp 1 amount_loose; star (cls_i is_space); word_i "25%";
       star (cls_i is_space); Grp 2 amount_loose].

Definition vatPatterns : list regex :=
  [ re_vat_breakdown;
    seq [word_i "herav"; plus (cls_i is_space); word_i "mva";
         plus (cls_i is_space); Grp 1 amount_i];
    seq [mva_or_vat; star (cls_i is_space);
         opt (seq [word_i "25"; opt (chr_i 37)]);
         star (cls_i is_space); Grp 1 amount_i];
    seq [word_i "MVA"; plus (cls_i is_space); Grp 1 amount_i];
    seq [Grp 1 amount_i; star (cls_i is_space); mva_or_vat] ].

Definition amount_spaced_i : regex :=
  amount_spaced digit_i (cls_i is_sep) (cls_i is_space_sep).

Definition total_keyword : regex :=
  alt [ word_i "totalt"; word_i "total"; word_i "sum";
        seq [chr_i 229; star (cls_i is_space); word_i "betale"];
        seq [word_i "bel"; chr_i 248; word_i "p"];
        seq [word_i "purchase"; star (cls_i is_space); word_i "nok"] ].

Definition totalPatterns : list regex :=
  [ seq [total_keyword; star (cls_i is_space);
         opt (cls_i (fun c => (N.eqb c 58 || N.eqb c 61)%bool));
         star (cls_i is_space);
         Grp 1 (alt [amount_spaced_i; amount_plain digit_i (cls_i is_sep)])];
    seq [word_i "bank:"; star (cls_i is_space); Grp 1 amount_spaced_i];
    seq [Grp 1 amount_spaced_i; star (cls_i is_space);
         alt [word_i "totalt"; word_i "total"; word_i "sum"]] ].

Definition moneyRegex : regex :=
  Grp 1 (alt [ amount_spaced digit (Chr is_sep) (Chr is_space_sep);
               amount_plain digit (Chr is_sep) ]).

Definition million : number := of_N 1000000.

(** [lines]: the text split at line ends, each line trimmed, empty lines
    dropped. *)
Definition lines_of (text : jsstring) : list jsstring :=
  filter (fun l => negb (is_empty l)) (map trim (split re_newline text)).

(** The loop over [storePatterns]: the first pattern that matches the
    text gives the merchant. *)
Fixpoint find_store (patterns : list regex) (text : jsstring) : option jsstring :=
  match patterns with
  | [] => None
  | pattern :: rest =>
      match smatch pattern text with
      | Some m =>
          let foundMerchant := trim (replace_all re_spaces [32%N] (matched m)) in
          Some (if test re_sportsholding foundMerchant then
                  match smatch re_antonsport text with
                  | Some antonsportMatch => matched antonsportMatch
                  | None => foundMerchant
                  end
                else foundMerchant)
      | None => find_store rest text
      end
  end.

(** [lines.findIndex(p)], with [None] for -1. *)
Fixpoint findIndex (p : jsstring -> bool) (l : list jsstring) (i : nat) : option nat :=
  match l with
  | [] => None
  | x :: r => if p x then Some i else findIndex p r (S i)
  end.

(** The loop over the lines above the organisation number, for the
    indices [todo] still to visit. *)
Fixpoint org_loop (lines : list jsstring) (todo : list nat)
  (merchant : option jsstring) : option jsstring :=
  match todo with
  | [] => merchant
  | i :: rest =>
      match nth_error lines i with
      | Some line =>
          if (negb (is_empty line) && negb (test re_address line)
              && negb (test re_phone line) && Nat.ltb 2 (length line)
              && test re_letters line)%bool
          then Some (trim (slice0 60 line))
          else org_loop lines rest merchant
      | None => org_loop lines rest merchant
      end
  end.

Definition find_merchant (text : jsstring) : option jsstring :=
  let lines := lines_of text in
  let merchant := option_map (slice0 60) (nth_error lines 0) in
  match find_store storePatterns text with
  | Some foundMerchant => Some foundMerchant
  | None =>
      match findIndex (test re_org) lines 0 with
      | Some orgIdx =>
          org_loop lines (List.seq (orgIdx - 3) (orgIdx - (orgIdx - 3))) merchant
      | None => merchant
      end
  end.

Definition find_currency (text : jsstring) : jsstring :=
  match smatch re_currency text with
  | Some currencyMatch =>
      match group currencyMatch 1 with
      | Some c => toUpperCase c
      | None => codes "NOK"
      end
  | None => codes "NOK"
  end.

(** [a || b] on strings that may be [undefined]. *)
Definition or_else (a b : option jsstring) : option jsstring :=
  match a with
  | Some s => if is_empty s then b else a
  | None => b
  end.

Definition truthy_opt (v : option number) : bool :=
  match v with Some n => truthy n | None => false end.

(** The loop over [vatMatches]: [vatAmount] is assigned for every
    pattern that matched, and the loop stops at the first truthy value. *)
Fixpoint vat_loop (vatMatches : list (option result)) (vatAmount : option number)
  : option number :=
  match vatMatches with
  | [] => vatAmount
  | None :: rest => vat_loop rest vatAmount
  | Some vatMatch :: rest =>
      let vatString := or_else (group vatMatch 2) (group vatMatch 1) in
      let vatAmount' := parse_capture vatString in
      if truthy_opt vatAmount' then vatAmount' else vat_loop rest vatAmount'
  end.

Definition find_vat (text : jsstring) : option number :=
  vat_loop (map (fun p => smatch p text) vatPatterns) None.

(** [total || 0] *)
Definition or_zero (v : option number) : number :=
  match v with
  | Some n => if truthy n then n else zero
  | None => zero
  end.

(** The body of the loop over the matches of a total pattern. *)
Definition total_step (total : option number) (m : result) : option number :=
  match parse_capture (group m 1) with
  | Some amount =>
      if (truthy amount && gt amount (or_zero total) && lt amount million)%bool
      then Some amount else total
  | None => total
  end.

(** The body of the loop of the fallback scan. *)
Definition max_step (max : number) (m : result) : number :=
  match parse_capture (group m 1) with
  | Some amount =>
      if (truthy amount && gt amount max && lt amount million)%bool
      then amount else max
  | None => max
  end.

(** The loop over [totalPatterns]; [None] when an inner [exec] loop does
    not come to an end. *)
Fixpoint keyword_total (fuel : nat) (patterns : list regex) (text : jsstring)
  (total : option number) : option (option number) :=
  match patterns with
  | [] => Some total
  | pattern :: rest =>
      match exec_all fuel pattern [] text 0 with
      | Some ms => keyword_total fuel rest text (fold_left total_step ms total)
      | None => None
      end
  end.

Definition find_total (fuel : nat) (text : jsstring) : option (option number) :=
  match keyword_total fuel totalPatterns text None with
  | Some total =>
      if negb (truthy_opt total) then
        match exec_all fuel moneyRegex [] text 0 with
        | Some ms =>
            let max := fold_left max_step ms zero in
            Some (if gt max zero then Some max else None)
        | None => None
        end
      else Some total
  | None => None
  end.

(** [extractStructuredFields].  The two [while] loops over [exec] are
    given [fuel] iterations each; the result is [None] when one of them
    is still running after that. *)
Definition extractStructuredFields_fuel (fuel : nat) (text : jsstring)
  : option fields :=
  match find_total fuel text with
  | Some total =>
      Some (Fields (find_merchant text) (find_vat text) total
              (Some (find_currency text)))
  | None => None
  end.

Definition extractStructuredFields (text : jsstring) : option fields :=
  extractStructuredFields_fuel (S (length text)) text.

End CurrencyParser.

(** ** Vocabulary of the statements *)

Module Notions.
Import JSString JSNumber RegExp CurrencyParser.

(** [y] is reached from [x] by consuming the text [w]. *)
Definition extends (x : mstate) (w : jsstring) (y : mstate) : Prop :=
  after x = w ++ after y /\ before y = rev w ++ before x
  /\ pos y = pos x + length w.

(** Bounds on the number of iterations of a quantifier. *)
Definition rep_low (min : nat) (max : option nat) : nat :=
  match max with Some n => Nat.min min n | None => min end.

Definition rep_high (max : option nat) (n : nat) : Prop :=
  match max with Some h => n <= h | None => True end.

(** The texts a pattern can consume, whatever the context: assertions
    consume nothing, groups are transparent. *)
Fixpoint lang (r : regex) (w : jsstring) : Prop :=
  match r with
  | Eps | Bol | Eol | WordB => w = []
  | Chr p => exists c, w = [c] /\ p c = true
  | Seq a b => exists u v, w = u ++ v /\ lang a u /\ lang b v
  | Alt a b => lang a w \/ lang b w
  | Rep min max a =>
      exists ws, w = concat ws /\ Forall (lang a) ws
                 /\ rep_low min max <= length ws /\ rep_high max (length ws)
  | Grp _ a => lang a w
  end.

(** A matcher is sound for a set of texts when every success passes
    through a state reached by consuming one of them. *)
Definition sound (m : matcher) (L : jsstring -> Prop) : Prop :=
  forall x k z, m x k = Some z ->
    exists y w, extends x w y /\ L w /\ k y = Some z.

(** A matcher is local when its result depends on its continuation only
    at the states reached by consuming more input. *)
Definition local (m : matcher) : Prop :=
  forall x k k',
    (forall y w, extends x w y -> k y = k' y) -> m x k = m x k'.

(** A lower bound on the length of every match of a pattern. *)
Fixpoint min_len (r : regex) : nat :=
  match r with
  | Eps | Bol | Eol | WordB => 0
  | Chr _ => 1
  | Seq a b => min_len a + min_len b
  | Alt a b => Nat.min (min_len a) (min_len b)
  | Rep min max a => rep_low min max * min_len a
  | Grp _ a => min_len a
  end.

(** The digits of a text, in order. *)
Definition digits (s : jsstring) : jsstring := filter is_digit s.

Definition is_digit_or_dot (c : char) : bool := (is_digit c || N.eqb c dot)%bool.

(** A text without the occurrences of [c]. *)
Definition without (c : char) (s : jsstring) : jsstring :=
  filter (fun x : char => negb (N.eqb c x)) s.

(** The part of a text before the first [c], and the part behind it. *)
Fixpoint upto (c : char) (s : jsstring) : jsstring :=
  match s with
  | [] => []
  | x :: r => if N.eqb x c then [] else x :: upto c r
  end.

Fixpoint behind (c : char) (s : jsstring) : jsstring :=
  match s with
  | [] => []
  | x :: r => if N.eqb x c then r else behind c r
  end.

(** The number whose integer part is written by the digits of [ip] and
    whose fraction by the digits of [fp]; nothing when there is no
    digit at all. *)
Definition reading (ip fp : jsstring) : option number :=
  match digits ip ++ digits fp with
  | [] => None
  | ds => Some (decimal false (digits_value ds)
                  (- Z.of_nat (length (digits fp))))
  end.

(** [undefined] for [NaN], as at the end of [parseNorwegianCurrency]. *)
Definition defined (v : number) : option number :=
  if isNaN v then None else Some v.

(** An amount the total may take: present, positive, below one million. *)
Definition plausible (v : number) : bool :=
  (truthy v && gt v zero && lt v million)%bool.

(** All matches of a global pattern over a text, as the [exec] loop of
    the source meets them. *)
Definition matches (r : regex) (text : jsstring) : list result :=
  match exec_all (S (length text)) r [] text 0 with
  | Some ms => ms
  | None => []
  end.

(** The plausible amounts among the first groups of a list of matches. *)
Fixpoint amounts (ms : list result) : list number :=
  match ms with
  | [] => []
  | m :: rest =>
      match parse_capture (group m 1) with
      | Some v => if plausible v then v :: amounts rest else amounts rest
      | None => amounts rest
      end
  end.

Definition keyword_amounts (text : jsstring) : list number :=
  amounts (flat_map (fun p => matches p text) totalPatterns).

Definition scan_amounts (text : jsstring) : list number :=
  amounts (matches moneyRegex text).

(** [v] is a greatest element of [l]. *)
Definition is_max (l : list number) (v : number) : Prop :=
  In v l /\ forall u, In u l -> le u v = true.

(** A text matched by a run of literal characters under the [i] flag. *)
Fixpoint ci_prefix (l s : jsstring) : bool :=
  match l, s with
  | [], _ => true
  | a :: l', c :: s' =>
      (N.eqb (canonicalize c) (canonicalize a) && ci_prefix l' s')%bool
  | _ :: _, [] => false
  end.

(** The state after the next [n] characters. *)
Fixpoint advance_over (n : nat) (x : mstate) : mstate :=
  match n with
  | O => x
  | S n' =>
      match after x with
      | c :: rest => advance_over n' (advance c rest x)
      | [] => x
      end
  end.

(** [w] is one of the currency codes, in any mix of cases. *)
Definition is_code (w : jsstring) : Prop :=
  In (map canonicalize w) (map codes currencyCodes).

(** A word boundary between the text [left] and the text [right]: exactly
    one of the two characters at the seam is a word character. *)
Definition word_edge (left right : jsstring) : bool :=
  xorb (match rev left with c :: _ => is_word c | [] => false end)
       (match right with c :: _ => is_word c | [] => false end).

(** The code [w] stands at index [i] of [text] as a whole word. *)
Definition code_at (text : jsstring) (i : nat) (w : jsstring) : Prop :=
  exists pre post,
    text = pre ++ w ++ post /\ length pre = i /\ is_code w
    /\ word_edge pre (w ++ post) = true
    /\ word_edge (pre ++ w) post = true.

(** The characters of a text that are not white space, counted. *)
Definition count_solid (s : jsstring) : nat :=
  length (filter (fun c => negb (is_space c)) s).

(** An upper bound on the characters other than white space in a match,
    for a pattern whose unbounded repetitions run over white space only
    ([loose_is_space]). *)
Fixpoint solid_bound (r : regex) : nat :=
  match r with
  | Chr _ => 1
  | Seq a b => solid_bound a + solid_bound b
  | Alt a b => Nat.max (solid_bound a) (solid_bound b)
  | Rep _ (Some h) a => h * solid_bound a
  | Grp _ a => solid_bound a
  | _ => 0
  end.

Fixpoint loose_is_space (r : regex) : Prop :=
  match r with
  | Seq a b | Alt a b => loose_is_space a /\ loose_is_space b
  | Rep _ (Some _) a | Grp _ a => loose_is_space a
  | Rep _ None a =>
      forall w, lang a w -> Forall (fun c => is_space c = true) w
  | _ => True
  end.

(** The state after the longest run of characters of a class. *)
Fixpoint eat (p : char -> bool) (aft : jsstring) (x : mstate) : mstate :=
  match aft with
  | c :: rest => if p c then eat p rest (advance c rest x) else x
  | [] => x
  end.

(** A text written line by line. *)
Definition text_of (ls : list jsstring) : jsstring :=
  concat (map (fun l => l ++ [10%N]) ls).

(** The state of a running maximum over the plausible amounts [seen]
    so far: nothing yet, or a greatest element of them. *)
Definition tracked (seen : list number) (total : option number) : Prop :=
  Forall (fun u => plausible u = true) seen
  /\ match total with
     | None => seen = []
     | Some t => is_max seen t
     end.

(** The running maximum of the fallback scan, which starts from zero,
    seen as an optional value. *)
Definition as_total (max : number) : option number :=
  if truthy max then Some max else None.

End Notions.

(** ** Further vocabulary *)

Module Terms.
Import JSString JSNumber RegExp CurrencyParser Notions.

(** Every text a pattern can consume holds a character of the class
    [q]. *)
Fixpoint demands (q : char -> bool) (r : regex) : Prop :=
  match r with
  | Chr p => forall c, p c = true -> q c = true
  | Seq a b => demands q a \/ demands q b
  | Alt a b => demands q a /\ demands q b
  | Rep min max a => 0 < rep_low min max /\ demands q a
  | Grp _ a => demands q a
  | _ => False
  end.

Definition is_solid (c : char) : bool := negb (is_space c).

(** A text of white space only, a text with a character that is not
    white space, and a text that starts with such a character. *)
Definition blank (s : jsstring) : Prop :=
  Forall (fun c => is_space c = true) s.

Definition solid_in (s : jsstring) : Prop :=
  exists c, In c s /\ is_space c = false.

Definition starts_solid (s : jsstring) : Prop :=
  match s with c :: _ => is_space c = false | [] => False end.

(** The text behind the last occurrence of [c], as
    [s.substring(s.lastIndexOf(c) + 1)] gives it. *)
Definition after_last (c : char) (s : jsstring) : jsstring :=
  substring s (lastIndexOf s c + 1).

Definition two_digits (s : jsstring) : bool :=
  (Nat.eqb (length s) 2 && forallb is_digit s)%bool.

End Terms.

(** ** Lazy quantifiers and first-match replacement

    What the patterns of [src/App.tsx] need beyond the matcher above. *)

Module Matchers.
Import JSString JSNumber RegExp.

Section Lazy.
Variable m : matcher.
Variable inner : list nat.

(** RepeatMatcher for a lazy quantifier: the rest of the pattern is
    tried first, and one more iteration only when that fails. *)
Fixpoint repeat_lazy (fuel min : nat) (max : option nat) (x : mstate) (k : cont)
  : option mstate :=
  match fuel with
  | O => None
  | S fuel' =>
      match max with
      | Some O => k x
      | _ =>
          let d := fun y : mstate =>
            if (Nat.eqb min 0 && Nat.eqb (pos y) (pos x))%bool then None
            else repeat_lazy fuel' (Nat.pred min) (option_map Nat.pred max) y k in
          let xr := clear inner x in
          if Nat.eqb min 0 then
            match k x with
            | Some z => Some z
            | None => m xr d
            end
          else m xr d
      end
  end.
End Lazy.

(** [(p*?)] as group [n], followed by the pattern [r]. *)
Definition lazy_group_then (n : nat) (p : char -> bool) (r : regex) : matcher :=
  fun x k =>
    repeat_lazy (rmatch (Chr p)) [] (S (length (after x))) 0 None x
      (fun y => rmatch r (capture n x y) k).

(** RegExpBuiltinExec for a pattern given as a matcher. *)
Fixpoint search_with (m : matcher) (bef aft : jsstring) (idx : nat)
  : option result :=
  match m (start bef aft) Some with
  | Some y => Some (result_of idx y)
  | None =>
      match aft with
      | [] => None
      | c :: aft' => search_with m (c :: bef) aft' (S idx)
      end
  end.

(** [s.replace(r, rep)] for a pattern without the [g] flag and a
    replacement text without [$]: the first match is replaced. *)
Definition replace_first (r : regex) (rep s : jsstring) : jsstring :=
  match smatch r s with
  | Some m => firstn (index m) s ++ rep ++ end_after m
  | None => s
  end.

(** [.]: any character but a line terminator. *)
Definition is_line_terminator (c : char) : bool :=
  (N.eqb c 10 || N.eqb c 13 || N.eqb c 8232 || N.eqb c 8233)%bool.

Definition any_char : char -> bool := fun c => negb (is_line_terminator c).

(** [isFinite], [Math.abs] and the arithmetic of numbers. *)
Definition isFinite (v : number) : bool :=
  match v with
  | S754_zero _ | S754_finite _ _ _ => true
  | _ => false
  end.

Definition abs (v : number) : number := SFabs v.
Definition mul (a b : number) : number := SFmul prec emax a b.
Definition sub (a b : number) : number := SFsub prec emax a b.
Definition div (a b : number) : number := SFdiv prec emax a b.

End Matchers.

(** ** The program: [src/App.tsx] *)

Module App.
Import JSString JSNumber RegExp Matchers.
Import CurrencyParser.

(** *** [extractStructuredFields] of [App.tsx] *)

(** [/org\.? *nr/i] *)
Definition re_org_nr : regex :=
  seq [word_i "org"; opt (chr_i dot); star (chr_i 32); word_i "nr"].

(** [/\b(EUR|USD|GBP|SEK|DKK)\b/i] *)
Definition foreignCodes : list string := ["EUR"; "USD"; "GBP"; "SEK"; "DKK"]%string.
Definition re_foreign : regex :=
  seq [WordB; Grp 1 (alt (map word_i foreignCodes)); WordB].

(** [[^0-9]] and [\D] under the [i] flag: no digit is the case variant
    of another character, so both stand for the characters that are not
    digits. *)
Definition not_digit_i : regex := cls_i (fun c => negb (is_digit c)).

Definition is_space_or_dot (c : char) : bool := (N.eqb c 32 || N.eqb c dot)%bool.

(** [/(?:MVA|VAT)[^0-9]{0,10}([0-9]+[.,][0-9]{2})/i] *)
Definition re_vat : regex :=
  seq [mva_or_vat; between 0 10 not_digit_i;
       Grp 1 (seq [plus digit_i; cls_i is_sep; times 2 digit_i])].

(** [/(?:(?:Total|Sum|Å betale|Beløp)\D{0,15})?([0-9]{1,3}(?:[ .][0-9]{3})*[.,][0-9]{2})/gi] *)
Definition moneyRegex : regex :=
  seq [opt (seq [alt [word_i "Total"; word_i "Sum";
                      seq [chr_i 197; word_i " betale"];
                      seq [word_i "Bel"; chr_i 248; word_i "p"]];
                 between 0 15 not_digit_i]);
       Grp 1 (seq [between 1 3 digit_i;
                   star (seq [cls_i is_space_or_dot; times 3 digit_i]);
                   cls_i is_sep; times 2 digit_i])].

(** [/[ .]/g] and [/,/g] *)
Definition re_space_or_dot : regex := Chr is_space_or_dot.

(** [parseFloat(raw.replace(/[ .]/g, '').replace(',', '.'))] *)
Definition amount_of (raw : jsstring) : number :=
  parseFloat (replace1 comma dot (replace_all re_space_or_dot [] raw)).

(** The body of the loop over the matches of [moneyRegex]; a capture
    that is [undefined] would make [raw.replace] throw, which is [None]
    here. *)
Definition max_step (max : option number) (m : result) : option number :=
  match max, group m 1 with
  | Some mx, Some raw =>
      let normalized := amount_of raw in
      if (negb (isNaN normalized) && gt normalized mx && lt normalized million)%bool
      then Some normalized else Some mx
  | _, _ => None
  end.

Definition find_merchant (text : jsstring) : option jsstring :=
  let lines := lines_of text in
  let merchant := option_map (slice0 60) (nth_error lines 0) in
  match findIndex (test re_org_nr) lines 0 with
  | Some orgIdx =>
      if Nat.ltb 0 orgIdx
      then option_map (slice0 60) (nth_error lines (Nat.max 0 (orgIdx - 1)))
      else merchant
  | None => merchant
  end.

Definition find_currency (text : jsstring) : option jsstring :=
  if test re_foreign text then
    match smatch re_foreign text with
    | Some m => option_map toUpperCase (group m 1)
    | None => None
    end
  else Some (codes "NOK").

(** [parseFloat(...) || undefined] *)
Definition find_vat (text : jsstring) : option number :=
  match smatch re_vat text with
  | Some vatMatch =>
      match group vatMatch 1 with
      | Some g =>
          let v := parseFloat (replace_all re_commas [dot] g) in
          if truthy v then Some v else None
      | None => None
      end
  | None => None
  end.

(** [extractStructuredFields].  The [while] loop over [exec] is given
    [fuel] iterations; the result is [None] when it is still running
    after that. *)
Definition extractStructuredFields_fuel (fuel : nat) (text : jsstring)
  : option fields :=
  match exec_all fuel moneyRegex [] text 0 with
  | Some ms =>
      match fold_left max_step ms (Some zero) with
      | Some max =>
          Some (Fields (find_merchant text) (find_vat text)
                  (if truthy max then Some max else None)
                  (find_currency text))
      | None => None
      end
  | None => None
  end.

Definition extractStructuredFields (text : jsstring) : option fields :=
  extractStructuredFields_fuel (S (length text)) text.

(** *** [parseReceiptLineItems] *)

Record lineItem : Type := LineItem {
  description : jsstring;
  amount : number;
  quantity : option number;
  unitPrice : option number
}.

(** [/^(sum|total|mva|vat|beløp|å betale|change|subtotal|til gode)/i] *)
Definition skipRegex : regex :=
  seq [Bol;
       Grp 1 (alt [word_i "sum"; word_i "total"; word_i "mva"; word_i "vat";
                   seq [word_i "bel"; chr_i 248; word_i "p"];
                   seq [chr_i 229; word_i " betale"];
                   word_i "change"; word_i "subtotal"; word_i "til gode"])].

(** [[-]?\d{1,3}(?:[ .]\d{3})*[.,]\d{2}] *)
Definition price : regex :=
  seq [opt (chr 45); between 1 3 digit;
       star (seq [Chr is_space_or_dot; times 3 digit]);
       Chr is_sep; times 2 digit].

(** [/(.*?)([-]?\d{1,3}(?:[ .]\d{3})*[.,]\d{2})$/] *)
Definition priceAtEnd : matcher :=
  lazy_group_then 1 any_char (seq [Grp 2 price; Eol]).

(** [/[-–]+$/] *)
Definition re_trailing_dashes : regex :=
  seq [plus (Chr (fun c => (N.eqb c 45 || N.eqb c 8211)%bool)); Eol].

(** [/^(kr|nok)$/i] *)
Definition re_kr_nok : regex :=
  seq [Bol; Grp 1 (alt [word_i "kr"; word_i "nok"]); Eol].

(** [/(\d{1,3})\s*[xX*]\s*(\d{1,3}(?:[ .,]\d{3})*[.,]\d{2})/] *)
Definition qtyRegex : regex :=
  seq [Grp 1 (between 1 3 digit); star space;
       Chr (fun c => (N.eqb c 120 || N.eqb c 88 || N.eqb c 42)%bool);
       star space;
       Grp 2 (seq [between 1 3 digit;
                   star (seq [Chr (fun c => (is_space_or_dot c || N.eqb c comma)%bool);
                              times 3 digit]);
                   Chr is_sep; times 2 digit])].

Definition quarter : number := decimal false 25 (-2).

(** The body of the loop over the lines: the item pushed for the line
    [raw], or nothing where the loop goes on to the next line.  The
    groups of both patterns take part in every match; a group that is
    [undefined] would make the body throw, which is [None] here. *)
Definition line_item (raw : jsstring) : option lineItem :=
  if Nat.ltb (length raw) 3 then None
  else if test skipRegex raw then None
  else
    match search_with priceAtEnd [] raw 0 with
    | None => None
    | Some m =>
        match group m 1, group m 2 with
        | Some g1, Some priceStr =>
            let value := amount_of priceStr in
            if (negb (isFinite value) || le value zero || gt value million)%bool
            then None
            else
              let desc := trim (replace_first re_trailing_dashes [] (trim g1)) in
              if (is_empty desc || test re_kr_nok desc)%bool then None
              else
                match smatch qtyRegex desc with
                | Some qtyMatch =>
                    match group qtyMatch 1, group qtyMatch 2 with
                    | Some q1, Some q2 =>
                        let quantity := parseFloat q1 in
                        let unitPrice := amount_of q2 in
                        let desc' := trim (replace_first qtyRegex [] desc) in
                        if (truthy quantity && truthy unitPrice
                            && gt (div (abs (sub (mul quantity unitPrice) value)) value)
                                 quarter)%bool
                        then Some (LineItem (slice0 120 desc') value None None)
                        else Some (LineItem (slice0 120 desc') value
                                     (Some quantity) (Some unitPrice))
                    | _, _ => None
                    end
                | None => Some (LineItem (slice0 120 desc) value None None)
                end
        | _, _ => None
        end
    end.

Fixpoint items_of (lines : list jsstring) : list lineItem :=
  match lines with
  | [] => []
  | raw :: rest =>
      match line_item raw with
      | Some item => item :: items_of rest
      | None => items_of rest
      end
  end.

Definition parseReceiptLineItems (text : jsstring) : list lineItem :=
  items_of (lines_of text).

End App.

(** ** Vocabulary for the receipt code of [App.tsx] *)

Module ReceiptTerms.
Import JSString JSNumber RegExp Matchers CurrencyParser Notions.

(** The pattern ends in the group [n] around [b]. *)
Fixpoint ends_in_group (n : nat) (b r : regex) : Prop :=
  match r with
  | Seq _ r2 => ends_in_group n b r2
  | Grp k a => k = n /\ a = b
  | _ => False
  end.

(** Every text a pattern can consume is made of characters of the class
    [q]. *)
Fixpoint within (q : char -> bool) (r : regex) : Prop :=
  match r with
  | Chr p => forall c, p c = true -> q c = true
  | Seq a b | Alt a b => within q a /\ within q b
  | Rep _ _ a | Grp _ a => within q a
  | _ => True
  end.

(** The characters of an amount as the patterns of [App.tsx] capture
    it. *)
Definition is_amount_char (c : char) : bool :=
  (is_digit c || App.is_space_or_dot c || N.eqb c comma)%bool.

(** The plausible amounts among the first groups of a list of matches,
    normalised as [App.tsx] does. *)
Fixpoint app_amounts (ms : list result) : list number :=
  match ms with
  | [] => []
  | m :: rest =>
      match group m 1 with
      | Some raw =>
          if plausible (App.amount_of raw)
          then App.amount_of raw :: app_amounts rest
          else app_amounts rest
      | None => app_amounts rest
      end
  end.

Definition money_amounts (text : jsstring) : list number :=
  app_amounts (matches App.moneyRegex text).

End ReceiptTerms.

(** ** Further vocabulary: key words and store names *)

Module MoreTerms.
Import JSString JSNumber RegExp CurrencyParser Notions.

(** The words at the start of a line that [skipRegex] looks for. *)
Definition skip_words : list jsstring :=
  [ codes "sum"; codes "total"; codes "mva"; codes "vat";
    codes "bel" ++ [248%N] ++ codes "p"; 229%N :: codes " betale";
    codes "change"; codes "subtotal"; codes "til gode" ].

(** The text begins with one of the words, in any mix of cases. *)
Definition begins_with_any (ws : list jsstring) (s : jsstring) : bool :=
  existsb (fun k => ci_prefix k s) ws.

(** The pattern matches exactly the texts that begin with the literal
    characters [l], in any mix of cases, and consumes them. *)
Definition literal (l : jsstring) (r : regex) : Prop :=
  forall x k,
    rmatch r x k =
    if ci_prefix l (after x) then k (advance_over (length l) x) else None.

(** Every text a pattern can consume holds a piece with the property
    [K]. *)
Fixpoint mentions (K : jsstring -> Prop) (r : regex) : Prop :=
  (forall w, lang r w -> K w)
  \/ match r with
     | Seq a b => mentions K a \/ mentions K b
     | Alt a b => mentions K a /\ mentions K b
     | Grp _ a => mentions K a
     | _ => False
     end.

(** The words that announce a VAT amount, and a text that holds one of
    them in any mix of cases. *)
Definition vat_words : list jsstring := [codes "MVA"; codes "VAT"; codes "25%"].

Definition is_vat_word (w : jsstring) : Prop :=
  In (map canonicalize w) vat_words.

Definition holds (K : jsstring -> Prop) (s : jsstring) : Prop :=
  exists pre w post, s = pre ++ w ++ post /\ K w.

(** The spellings a known store can take as merchant, up to the case of
    its letters: its words joined by one blank or by nothing. *)
Definition store_names : list jsstring :=
  map codes
    [ "BILTEMA NORGE"; "BILTEMANORGE"; "BILTEMA"; "ANTONSPORT";
      "COOP PRIX"; "COOPPRIX"; "REMA 1000"; "REMA1000";
      "ICA SUPERMARKET"; "ICASUPERMARKET"; "KIWI"; "BUNNPRIS"; "MENY";
      "EUROPRIS"; "PLANTASJEN"; "SPORTSHOLDING" ]%string.

Definition solid (s : jsstring) : Prop :=
  Forall (fun c => is_space c = false) s.

(** A pattern whose matches, with white space collapsed, spell one of
    the store names. *)
Definition names_store (p : regex) : Prop :=
  forall w, lang p w ->
    In (map canonicalize (trim (replace_all re_spaces [32%N] w))) store_names.

End MoreTerms.

(** * Properties *)

Import JSString JSNumber RegExp CurrencyParser Notions.

Arguments is_digit : simpl never.
Arguments is_space : simpl never.
Arguments is_word : simpl never.
Arguments is_letter : simpl never.
Arguments canonicalize : simpl never.
Arguments upper_code : simpl never.
Arguments decimal : simpl never.

(** ** Numbers *)

Section NumberFacts.

Lemma shr_1_nonneg mrs : (0 <= shr_m mrs)%Z -> (0 <= shr_m (shr_1 mrs))%Z.
Proof.
  destruct mrs as [m r s]; simpl.
  destruct m as [|p|p]; simpl; try lia; destruct p; simpl; lia.
Qed.

Lemma iter_shr_1_nonneg p : forall mrs,
  (0 <= shr_m mrs)%Z -> (0 <= shr_m (iter_pos shr_1 p mrs))%Z.
Proof.
  induction p as [p IH|p IH|]; intros mrs H; simpl.
  - apply IH, IH, shr_1_nonneg, H.
  - apply IH, IH, H.
  - apply shr_1_nonneg, H.
Qed.

Lemma shr_fexp_nonneg m e l :
  (0 <= m)%Z -> (0 <= shr_m (fst (shr_fexp prec emax m e l)))%Z.
Proof.
  intros H. unfold shr_fexp, shr.
  assert (H0 : (0 <= shr_m (shr_record_of_loc m l))%Z)
    by (destruct l as [|[]]; simpl; exact H).
  destruct (fexp prec emax (Zdigits2 m + e) - e)%Z; simpl; auto.
  apply iter_shr_1_nonneg, H0.
Qed.

Lemma round_nearest_even_nonneg m l :
  (0 <= m)%Z -> (0 <= round_nearest_even m l)%Z.
Proof.
  intros H. destruct l as [|[]]; simpl; try lia.
  destruct (Z.even m); lia.
Qed.

(** Rounding a non-negative mantissa gives a zero, a finite number or an
    infinity of the sign asked for. *)
Lemma binary_round_aux_shape sx mx ex lx :
  (0 <= mx)%Z ->
  let v := binary_round_aux prec emax sx mx ex lx in
  v = S754_zero sx \/ v = S754_infinity sx
  \/ exists m e, v = S754_finite sx m e.
Proof.
  intros H. cbv zeta. unfold binary_round_aux.
  pose proof (shr_fexp_nonneg ex lx H) as H1.
  destruct (shr_fexp prec emax mx ex lx) as [mrs' e'] eqn:E1. simpl in H1.
  pose proof (round_nearest_even_nonneg (loc_of_shr_record mrs') H1) as H2.
  pose proof (shr_fexp_nonneg e' loc_Exact H2) as H3.
  destruct (shr_fexp prec emax _ e' loc_Exact) as [mrs'' e''] eqn:E2.
  simpl in H3. simpl.
  destruct (shr_m mrs'') as [|p|p]; [left; reflexivity| |lia].
  destruct (e'' <=? _)%Z; eauto.
Qed.

Lemma decimal_shape neg m e :
  let v := decimal neg m e in
  v = S754_zero neg \/ v = S754_infinity neg
  \/ exists p q, v = S754_finite neg p q.
Proof.
  cbv zeta. unfold decimal. destruct m as [|p]; [auto|].
  destruct (Z.leb_spec 0 e).
  - unfold binary_round.
    destruct (shl_align _ _ _) as [mz ez].
    apply binary_round_aux_shape. lia.
  - unfold SFdiv_core_binary.
    destruct (Z.div_eucl _ _) as [q r] eqn:E.
    apply binary_round_aux_shape.
    assert (Hp : (0 < 10 ^ (- e))%Z) by (apply Z.pow_pos_nonneg; lia).
    match type of E with Z.div_eucl ?a ?b = _ =>
      assert (Ha : (0 <= a)%Z);
      [| pose proof (Z.div_pos a b Ha Hp) as Hq;
         unfold Z.div in Hq; rewrite E in Hq; exact Hq ]
    end.
    destruct (_ - _ - _)%Z; try lia. apply Z.shiftl_nonneg. lia.
Qed.

Lemma decimal_not_nan neg m e : isNaN (decimal neg m e) = false.
Proof.
  destruct (decimal_shape neg m e) as [H|[H|(p & q & H)]]; rewrite H; reflexivity.
Qed.

Lemma decimal_nonneg m e : le zero (decimal false m e) = true.
Proof.
  destruct (decimal_shape false m e) as [H|[H|(p & q & H)]]; rewrite H; reflexivity.
Qed.

(** A plausible amount is a positive finite number. *)
Lemma plausible_finite v :
  plausible v = true -> exists m e, v = S754_finite false m e.
Proof.
  unfold plausible, gt, lt, zero. intros H.
  apply andb_prop in H as [H H3]. apply andb_prop in H as [H1 H2].
  destruct v as [s|s| |s m e]; try discriminate.
  - destruct s; discriminate.
  - destruct s; [discriminate|eauto].
Qed.

Lemma finite_gt m1 e1 m2 e2 :
  gt (S754_finite false m1 e1) (S754_finite false m2 e2) = true
  <-> (e2 < e1 \/ e2 = e1 /\ Z.pos m2 < Z.pos m1)%Z.
Proof.
  unfold gt, SFltb, SFcompare.
  change (Pos.compare_cont Eq m2 m1) with (Z.compare (Z.pos m2) (Z.pos m1)).
  destruct (Z.compare_spec e2 e1), (Z.compare_spec (Z.pos m2) (Z.pos m1));
    split; intros; try discriminate; try reflexivity; lia.
Qed.

Lemma finite_le m1 e1 m2 e2 :
  le (S754_finite false m1 e1) (S754_finite false m2 e2) = true
  <-> (e1 < e2 \/ e1 = e2 /\ Z.pos m1 <= Z.pos m2)%Z.
Proof.
  unfold le, SFleb, SFcompare.
  change (Pos.compare_cont Eq m1 m2) with (Z.compare (Z.pos m1) (Z.pos m2)).
  destruct (Z.compare_spec e1 e2), (Z.compare_spec (Z.pos m1) (Z.pos m2));
    split; intros; try discriminate; try reflexivity; lia.
Qed.

End NumberFacts.

(** ** Characters and string primitives *)

Unset Implicit Arguments.

Ltac char_props :=
  unfold is_digit_or_dot, is_sep, is_space_sep, is_digit, is_space, is_word,
    in_range, comma, dot in *;
  repeat match goal with
  | H : (_ && _)%bool = true |- _ => apply andb_prop in H; destruct H
  | H : (_ || _)%bool = true |- _ => apply orb_prop in H; destruct H
  | H : (_ || _)%bool = false |- _ => apply orb_false_elim in H; destruct H
  | H : N.leb _ _ = true |- _ => apply N.leb_le in H
  | H : N.leb _ _ = false |- _ => apply N.leb_gt in H
  | H : N.eqb _ _ = true |- _ => apply N.eqb_eq in H
  | H : N.eqb _ _ = false |- _ => apply N.eqb_neq in H
  | H : negb _ = true |- _ => apply negb_true_iff in H
  | H : negb _ = false |- _ => apply negb_false_iff in H
  end.

Section StringFacts.

Lemma digit_or_dot_not_space c : is_digit_or_dot c = true -> is_space c = false.
Proof.
  intros H. destruct (is_space c) eqn:E; [|reflexivity].
  exfalso. char_props; subst; lia.
Qed.

Lemma span_digits d r :
  Forall (fun c => is_digit c = true) d ->
  match r with c :: _ => is_digit c = false | [] => True end ->
  span is_digit (d ++ r) = (d, r).
Proof.
  intros Hd Hr. induction Hd as [|c d Hc Hd IH]; simpl.
  - destruct r as [|c r]; simpl; [reflexivity|]. rewrite Hr. reflexivity.
  - rewrite Hc, IH. reflexivity.
Qed.

Lemma filter_filter (A : Type) (p q : A -> bool) l :
  filter p (filter q l) = filter (fun x => (q x && p x)%bool) l.
Proof.
  induction l as [|x l IH]; simpl; [reflexivity|].
  destruct (q x); simpl; [destruct (p x)|]; rewrite IH; reflexivity.
Qed.

Lemma trimStart_length s : length (trimStart s) <= length s.
Proof.
  induction s as [|c s IH]; simpl; [lia|]. destruct (is_space c); simpl; lia.
Qed.

Lemma trim_length s : length (trim s) <= length s.
Proof.
  unfold trim, trimEnd. rewrite length_rev.
  etransitivity; [apply trimStart_length|]. rewrite length_rev.
  apply trimStart_length.
Qed.

Lemma not_infinity c s :
  is_digit_or_dot c = true -> starts_with (codes "Infinity") (c :: s) = false.
Proof.
  intros H. change (codes "Infinity") with (73%N :: codes "nfinity").
  cbn [starts_with]. replace (N.eqb 73 c) with false; [reflexivity|].
  symmetry. char_props; apply N.eqb_neq; subst; lia.
Qed.

End StringFacts.

(** ** The matcher on one-character patterns *)

Section SimplePatterns.

(** Replacing every match of a one-character class by the empty text
    keeps the characters outside the class. *)
Lemma replace_loop_class p : forall fuel bef aft,
  length aft < fuel ->
  replace_loop fuel (Chr p) [] bef aft = filter (fun c => negb (p c)) aft.
Proof.
  induction fuel as [|fuel IH]; intros bef aft H; [lia|].
  destruct aft as [|c aft]; [reflexivity|].
  simpl in H. simpl. destruct (p c); simpl.
  - apply IH. lia.
  - f_equal. apply IH. lia.
Qed.

Lemma replace_all_class p s :
  replace_all (Chr p) [] s = filter (fun c => negb (p c)) s.
Proof. apply replace_loop_class. lia. Qed.

(** [/^\d{2}$/] on a text of length two. *)
Lemma test_two_digits c1 c2 :
  test re_two_digits [c1; c2] = (is_digit c1 && is_digit c2)%bool.
Proof.
  unfold test, smatch. cbn.
  destruct (is_digit c1); cbn; [|reflexivity].
  destruct (is_digit c2); cbn; reflexivity.
Qed.

End SimplePatterns.

(** ** [parseFloat] on digits and dots *)

Section ParseFloatFacts.

Lemma parseFloat_unsigned c t :
  is_digit_or_dot c = true -> parseFloat (c :: t) = parse_unsigned false (c :: t).
Proof.
  intros Hc. unfold parseFloat. cbn [trimStart].
  rewrite (digit_or_dot_not_space c Hc).
  replace (N.eqb c 45) with false
    by (symmetry; char_props; apply N.eqb_neq; subst; lia).
  replace (N.eqb c 43) with false
    by (symmetry; char_props; apply N.eqb_neq; subst; lia).
  reflexivity.
Qed.

Lemma parseFloat_digits_and_dots s :
  Forall (fun c => is_digit_or_dot c = true) s ->
  parseFloat s = NaN \/ exists m e, parseFloat s = decimal false m e.
Proof.
  intros H. destruct s as [|c s]; [left; reflexivity|].
  inversion H as [|? ? Hc Hs]; subst.
  rewrite (parseFloat_unsigned c s Hc). unfold parse_unsigned.
  rewrite (not_infinity c s Hc).
  destruct (span is_digit (c :: s)) as [ip s1].
  destruct (match s1 with
            | [] => ([], s1)
            | c0 :: r => if N.eqb c0 46 then span is_digit r else ([], s1)
            end) as [fp s2].
  destruct (ip ++ fp); [left; reflexivity|right; eauto].
Qed.

(** The value read from [<digits>.<digits>] followed by nothing or by a
    further dot. *)
Lemma parseFloat_decimal_text d1 d2 rest :
  Forall (fun c => is_digit c = true) d1 ->
  Forall (fun c => is_digit c = true) d2 ->
  match rest with c :: _ => N.eqb c dot = true | [] => True end ->
  parseFloat (d1 ++ dot :: d2 ++ rest) =
  match d1 ++ d2 with
  | [] => NaN
  | ds => decimal false (digits_value ds) (- Z.of_nat (length d2))
  end.
Proof.
  intros H1 H2 Hr.
  assert (Hhead : exists c t, d1 ++ dot :: d2 ++ rest = c :: t
                              /\ is_digit_or_dot c = true).
  { destruct H1 as [|c d1 Hc H1]; cbn [app]; do 2 eexists; split;
      try reflexivity. unfold is_digit_or_dot. rewrite Hc. reflexivity. }
  destruct Hhead as (c & t & Es & Hc).
  rewrite Es, (parseFloat_unsigned c t Hc). unfold parse_unsigned.
  rewrite (not_infinity c t Hc), <- Es.
  rewrite (span_digits d1 (dot :: d2 ++ rest) H1) by reflexivity.
  change (N.eqb dot 46) with true. cbv iota.
  assert (Hrest : match rest with c :: _ => is_digit c = false | [] => True end).
  { destruct rest as [|c' rest]; [exact I|].
    apply N.eqb_eq in Hr. subst c'. reflexivity. }
  rewrite (span_digits d2 rest H2 Hrest).
  destruct (d1 ++ d2) eqn:E; [reflexivity|].
  replace (exponent_part rest) with 0%Z; [reflexivity|].
  destruct rest as [|c' rest]; [reflexivity|].
  apply N.eqb_eq in Hr. subst c'. reflexivity.
Qed.

End ParseFloatFacts.

(** ** [parseNorwegianCurrency] *)

Section Normaliser.

Lemma strip_filter n :
  replace_all re_not_digit_or_dot [] n = filter is_digit_or_dot n.
Proof.
  unfold re_not_digit_or_dot. rewrite replace_all_class.
  apply filter_ext. intros c. apply negb_involutive.
Qed.

Lemma remove_char c s :
  replace_all (chr c) [] s = without c s.
Proof. apply replace_all_class. Qed.

(** The last step of [parseNorwegianCurrency] never yields a negative
    number. *)
Lemma parse_stripped_nonneg n v :
  defined (parseFloat (replace_all re_not_digit_or_dot [] n)) = Some v ->
  le zero v = true.
Proof.
  rewrite strip_filter. intros H.
  destruct (parseFloat_digits_and_dots (filter is_digit_or_dot n)) as [E|(m & e & E)].
  - apply Forall_forall. intros c Hc. apply filter_In in Hc. apply Hc.
  - rewrite E in H. discriminate.
  - rewrite E in H. unfold defined in H. rewrite decimal_not_nan in H.
    injection H as <-. apply decimal_nonneg.
Qed.

Lemma parse_unfold s :
  exists n, parseNorwegianCurrency s =
            if is_empty s then None
            else defined (parseFloat (replace_all re_not_digit_or_dot [] n)).
Proof. unfold parseNorwegianCurrency. eexists. reflexivity. Qed.

End Normaliser.

(** C1.  On the six tokens of the disambiguation battery the normaliser
    returns the numbers written 1234.56, 1234.56, 1234, 1234, 123.45 and
    123.45. *)
Theorem C1_disambiguation_battery :
  parseNorwegianCurrency (codes "1.234,56") = Some (decimal false 123456 (-2))
  /\ parseNorwegianCurrency (codes "1,234.56") = Some (decimal false 123456 (-2))
  /\ parseNorwegianCurrency (codes "1.234") = Some (of_N 1234)
  /\ parseNorwegianCurrency (codes "1,234") = Some (of_N 1234)
  /\ parseNorwegianCurrency (codes "123,45") = Some (decimal false 12345 (-2))
  /\ parseNorwegianCurrency (codes "123.45") = Some (decimal false 12345 (-2)).
Proof. repeat split; vm_compute; reflexivity. Qed.

(** C10.  The normaliser returns nothing or a number that is not below
    zero; a minus sign is dropped with the other characters that are
    neither digit nor dot, so ["-123,45"] is read as 123.45. *)
Theorem C10_never_negative :
  (forall s v, parseNorwegianCurrency s = Some v -> le zero v = true)
  /\ parseNorwegianCurrency (codes "-123,45") = Some (decimal false 12345 (-2)).
Proof.
  split; [|vm_compute; reflexivity].
  intros s v H.
  destruct (parse_unfold s) as [n E]. rewrite E in H.
  destruct (is_empty s); [discriminate|].
  exact (parse_stripped_nonneg n v H).
Qed.

Lemma C10_never_negative_witness :
  parseNorwegianCurrency (codes "-123,45") = Some (decimal false 12345 (-2))
  /\ le zero (decimal false 12345 (-2)) = true.
Proof.
  assert (H : parseNorwegianCurrency (codes "-123,45")
              = Some (decimal false 12345 (-2))) by (vm_compute; reflexivity).
  split; [exact H|].
  exact (proj1 C10_never_negative (codes "-123,45") (decimal false 12345 (-2)) H).
Defined.

(** ** Tokens with both separators *)

Section BothSeparators.

Lemma includes_nonempty c s : includes s c = true -> s <> [].
Proof. destruct s; [discriminate|congruence]. Qed.

Lemma trim_nonempty s : trim s <> [] -> is_empty s = false.
Proof. destruct s; [intros H; elim H|]; reflexivity. Qed.

(** Every [d] removed, then the first [c] turned into [d]. *)
Lemma replace1_unfiltered c d s :
  c <> d ->
  includes s c = true ->
  replace1 c d (without d s) =
  without d (upto c s) ++ d :: without d (behind c s).
Proof.
  unfold without. intros Hcd. induction s as [|x s IH]; simpl; [discriminate|].
  rewrite (N.eqb_sym c x).
  destruct (N.eqb_spec x c) as [->|Hx]; simpl.
  - destruct (N.eqb_spec d c) as [->|_]; [contradiction|]. simpl.
    rewrite N.eqb_refl. reflexivity.
  - intros H. destruct (N.eqb_spec d x) as [<-|Hd]; simpl.
    + apply IH, H.
    + destruct (N.eqb_spec x c); [contradiction|].
      f_equal. apply IH, H.
Qed.

Lemma comma_to_dot s :
  includes s comma = true ->
  replace1 comma dot (without dot s) =
  without dot (upto comma s) ++ dot :: without dot (behind comma s).
Proof. apply replace1_unfiltered. discriminate. Qed.

Lemma digits_of_undotted s :
  filter is_digit_or_dot (without dot s) = digits s.
Proof.
  unfold without. rewrite filter_filter. apply filter_ext. intros c.
  unfold is_digit_or_dot. rewrite (N.eqb_sym dot c).
  destruct (N.eqb c dot) eqn:E; simpl.
  - apply N.eqb_eq in E. subst c. reflexivity.
  - rewrite orb_false_r. reflexivity.
Qed.

Lemma strip_uncomma s :
  filter is_digit_or_dot (without comma s) = filter is_digit_or_dot s.
Proof.
  unfold without. rewrite filter_filter. apply filter_ext. intros c.
  destruct (N.eqb_spec comma c) as [<-|H]; reflexivity.
Qed.

(** Digits and dots of a text, cut at its first dot. *)
Lemma strip_at_dot s :
  filter is_digit_or_dot s =
  digits (upto dot s)
  ++ (if includes s dot then dot :: filter is_digit_or_dot (behind dot s) else []).
Proof.
  unfold digits, includes.
  induction s as [|x s IH]; cbn [filter upto behind existsb app]; [reflexivity|].
  rewrite (N.eqb_sym dot x). unfold is_digit_or_dot at 1.
  destruct (N.eqb_spec x dot) as [->|Hx]; cbn [orb filter app].
  - change (is_digit dot) with false. reflexivity.
  - rewrite orb_false_r.
    destruct (is_digit x); cbn [app]; rewrite IH; reflexivity.
Qed.

Lemma digits_are_digits s : Forall (fun c => is_digit c = true) (digits s).
Proof.
  apply Forall_forall. intros c H. apply filter_In in H. apply H.
Qed.

Lemma reading_parse ip fp rest :
  match rest with c :: _ => N.eqb c dot = true | [] => True end ->
  defined (parseFloat (digits ip ++ dot :: digits fp ++ rest)) = reading ip fp.
Proof.
  intros Hr.
  rewrite (parseFloat_decimal_text (digits ip) (digits fp) rest
             (digits_are_digits ip) (digits_are_digits fp) Hr).
  unfold reading, defined. destruct (digits ip ++ digits fp); [reflexivity|].
  rewrite decimal_not_nan. reflexivity.
Qed.

End BothSeparators.

(** ** Tokens of a known shape *)

Section TokenShapes.

Lemma trimStart_solid s :
  Forall (fun c => is_space c = false) s -> trimStart s = s.
Proof.
  intros H. destruct H as [|c s Hc _]; [reflexivity|].
  cbn [trimStart]. rewrite Hc. reflexivity.
Qed.

Lemma trim_solid s : Forall (fun c => is_space c = false) s -> trim s = s.
Proof.
  intros H. unfold trim, trimEnd. rewrite (trimStart_solid s H).
  rewrite trimStart_solid by (apply Forall_rev, H). apply rev_involutive.
Qed.

Lemma lastIndexOf_from_absent c s : forall i found,
  includes s c = false -> lastIndexOf_from i found s c = found.
Proof.
  unfold includes. induction s as [|d s IH]; intros i found H; [reflexivity|].
  cbn [existsb] in H. apply orb_false_elim in H as [H1 H2].
  cbn [lastIndexOf_from]. rewrite N.eqb_sym, H1. apply IH, H2.
Qed.

Lemma lastIndexOf_from_last c b a : forall i found,
  includes b c = false ->
  lastIndexOf_from i found (a ++ c :: b) c = (i + Z.of_nat (length a))%Z.
Proof.
  induction a as [|d a IH]; intros i found H; cbn [app lastIndexOf_from length].
  - rewrite N.eqb_refl, (lastIndexOf_from_absent c b _ _ H). lia.
  - rewrite (IH _ _ H). lia.
Qed.

Lemma lastIndexOf_last c a b :
  includes b c = false -> lastIndexOf (a ++ c :: b) c = Z.of_nat (length a).
Proof. intros H. unfold lastIndexOf. rewrite (lastIndexOf_from_last c b a _ _ H). lia. Qed.

Lemma includes_app s t c : includes (s ++ t) c = (includes s c || includes t c)%bool.
Proof. apply existsb_app. Qed.

Lemma includes_here a b c : includes (a ++ c :: b) c = true.
Proof.
  rewrite includes_app. unfold includes at 2. cbn [existsb].
  rewrite N.eqb_refl. apply orb_true_r.
Qed.

Lemma upto_first c a b : includes a c = false -> upto c (a ++ c :: b) = a.
Proof.
  unfold includes. induction a as [|d a IH]; intros H; cbn [app upto].
  - rewrite N.eqb_refl. reflexivity.
  - cbn [existsb] in H. apply orb_false_elim in H as [H1 H2].
    rewrite N.eqb_sym, H1, (IH H2). reflexivity.
Qed.

Lemma behind_first c a b : includes a c = false -> behind c (a ++ c :: b) = b.
Proof.
  unfold includes. induction a as [|d a IH]; intros H; cbn [app behind].
  - rewrite N.eqb_refl. reflexivity.
  - cbn [existsb] in H. apply orb_false_elim in H as [H1 H2].
    rewrite N.eqb_sym, H1. apply IH, H2.
Qed.

Lemma upto_absent c s : includes s c = false -> upto c s = s.
Proof.
  unfold includes. induction s as [|d s IH]; intros H; cbn [upto]; [reflexivity|].
  cbn [existsb] in H. apply orb_false_elim in H as [H1 H2].
  rewrite N.eqb_sym, H1, (IH H2). reflexivity.
Qed.

Lemma digits_id d : Forall (fun c => is_digit c = true) d -> digits d = d.
Proof.
  unfold digits. induction 1 as [|c d Hc _ IH]; [reflexivity|].
  cbn [filter]. rewrite Hc, IH. reflexivity.
Qed.

Lemma digits_app s t : digits (s ++ t) = digits s ++ digits t.
Proof. apply filter_app. Qed.

Lemma digits_sep c s : is_digit c = false -> digits (c :: s) = digits s.
Proof. intros H. unfold digits. cbn [filter]. rewrite H. reflexivity. Qed.

Lemma digits_exclude d c :
  Forall (fun x => is_digit x = true) d -> is_digit c = false -> includes d c = false.
Proof.
  unfold includes. induction 1 as [|x d Hx _ IH]; intros Hc; [reflexivity|].
  cbn [existsb]. rewrite (IH Hc), orb_false_r. apply N.eqb_neq. congruence.
Qed.

Lemma digits_solid d :
  Forall (fun x => is_digit x = true) d -> Forall (fun c => is_space c = false) d.
Proof.
  intros H. eapply Forall_impl; [|exact H]. intros c Hc.
  apply digit_or_dot_not_space. unfold is_digit_or_dot. rewrite Hc. reflexivity.
Qed.

End TokenShapes.

(** ** Tokens with one separator *)

Section OneSeparator.

Lemma parseFloat_integer_text d :
  Forall (fun c => is_digit c = true) d ->
  parseFloat d = match d with
                 | [] => NaN
                 | _ => decimal false (digits_value d) 0
                 end.
Proof.
  intros H. destruct d as [|c d]; [reflexivity|].
  assert (Hc : is_digit_or_dot c = true).
  { inversion H as [|? ? Hc _]; subst. unfold is_digit_or_dot. rewrite Hc.
    reflexivity. }
  rewrite (parseFloat_unsigned c d Hc). unfold parse_unsigned.
  rewrite (not_infinity c d Hc).
  rewrite <- (app_nil_r (c :: d)) at 1.
  rewrite (span_digits (c :: d) [] H I). rewrite app_nil_r. reflexivity.
Qed.

Lemma strip_undotted x :
  includes x dot = false -> filter is_digit_or_dot x = digits x.
Proof.
  unfold includes, digits. induction x as [|c x IH]; intros H; [reflexivity|].
  cbn [existsb] in H. apply orb_false_elim in H as [H1 H2].
  cbn [filter]. unfold is_digit_or_dot at 1. rewrite N.eqb_sym, H1, orb_false_r.
  rewrite (IH H2). reflexivity.
Qed.

Lemma filter_absent c x : includes x c = false -> without c x = x.
Proof.
  unfold includes, without. induction x as [|d x IH]; intros H; [reflexivity|].
  cbn [existsb] in H. apply orb_false_elim in H as [H1 H2].
  cbn [filter]. rewrite H1. cbn [negb]. rewrite (IH H2). reflexivity.
Qed.

Lemma filter_only c a b :
  includes a c = false -> includes b c = false ->
  without c (a ++ c :: b) = a ++ b.
Proof.
  intros Ha Hb. unfold without. rewrite filter_app.
  change (filter (fun y : char => negb (N.eqb c y)) (c :: b))
    with (if negb (N.eqb c c) then c :: without c b else without c b).
  rewrite N.eqb_refl. cbn [negb].
  change (filter (fun y : char => negb (N.eqb c y)) a) with (without c a).
  rewrite (filter_absent c a Ha), (filter_absent c b Hb). reflexivity.
Qed.

Lemma replace1_first c d a b :
  includes a c = false -> replace1 c d (a ++ c :: b) = a ++ d :: b.
Proof.
  unfold includes. induction a as [|x a IH]; intros H; cbn [app replace1].
  - rewrite N.eqb_refl. reflexivity.
  - cbn [existsb] in H. apply orb_false_elim in H as [H1 H2].
    rewrite N.eqb_sym, H1, (IH H2). reflexivity.
Qed.

Lemma substring_behind a c b :
  substring (a ++ c :: b) (Z.of_nat (length a) + 1) = b.
Proof.
  unfold substring.
  replace (Z.to_nat (Z.of_nat (length a) + 1)) with (length a + 1) by lia.
  rewrite skipn_app, skipn_all2 by lia.
  replace (length a + 1 - length a) with 1 by lia. reflexivity.
Qed.

Lemma two_digits_test b :
  (Nat.eqb (length b) 2 && test re_two_digits b)%bool
  = (Nat.eqb (length b) 2 && forallb is_digit b)%bool.
Proof.
  destruct b as [|x [|y [|z b]]]; try reflexivity.
  cbn [length Nat.eqb andb forallb]. rewrite test_two_digits, andb_true_r.
  reflexivity.
Qed.

Lemma integer_reading x :
  defined (parseFloat (digits x)) = reading x [].
Proof.
  unfold reading. cbn [digits filter]. rewrite app_nil_r.
  rewrite (parseFloat_integer_text (digits x) (digits_are_digits x)).
  unfold defined. destruct (digits x); [reflexivity|].
  rewrite decimal_not_nan. reflexivity.
Qed.

(** The rule for a token in which one separator occurs once: two digits
    behind it make it the decimal point, anything else makes it a
    grouping mark. *)
Lemma single_separator_rule (sep : char) s a b :
  sep = comma \/ sep = dot ->
  trim s = a ++ sep :: b ->
  includes a comma = false -> includes a dot = false ->
  includes b comma = false -> includes b dot = false ->
  parseNorwegianCurrency s =
  if (Nat.eqb (length b) 2 && forallb is_digit b)%bool
  then reading a b
  else reading (a ++ b) [].
Proof.
  intros Hsep Ht Hac Had Hbc Hbd. unfold parseNorwegianCurrency.
  rewrite trim_nonempty by (rewrite Ht; destruct a; discriminate).
  rewrite Ht, strip_filter.
  assert (Hdd : filter is_digit_or_dot (a ++ dot :: b) = digits a ++ dot :: digits b).
  { rewrite filter_app. cbn [filter]. change (is_digit_or_dot dot) with true.
    cbv iota. rewrite (strip_undotted a Had), (strip_undotted b Hbd). reflexivity. }
  assert (Hab : filter is_digit_or_dot (a ++ b) = digits (a ++ b)).
  { apply strip_undotted. rewrite includes_app, Had, Hbd. reflexivity. }
  assert (Hread : defined (parseFloat (digits a ++ dot :: digits b)) = reading a b).
  { rewrite <- (app_nil_r (digits b)). apply (reading_parse a b []). exact I. }
  destruct Hsep as [-> | ->].
  - assert (H1 : includes (a ++ comma :: b) comma = true) by apply includes_here.
    assert (H2 : includes (a ++ comma :: b) dot = false).
    { rewrite includes_app, Had. unfold includes at 1. cbn [existsb orb].
      change (N.eqb dot comma) with false. exact Hbd. }
    rewrite H1, H2. cbn [andb negb].
    rewrite (lastIndexOf_last comma a b Hbc), substring_behind, two_digits_test.
    destruct (Nat.eqb (length b) 2 && forallb is_digit b)%bool.
    + rewrite (replace1_first comma dot a b Hac), Hdd. exact Hread.
    + unfold re_commas. rewrite remove_char, (filter_only comma a b Hac Hbc), Hab.
      apply integer_reading.
  - assert (H1 : includes (a ++ dot :: b) dot = true) by apply includes_here.
    assert (H2 : includes (a ++ dot :: b) comma = false).
    { rewrite includes_app, Hac. unfold includes at 1. cbn [existsb orb].
      change (N.eqb comma dot) with false. exact Hbc. }
    rewrite H1, H2. cbn [andb negb].
    rewrite (lastIndexOf_last dot a b Hbd), substring_behind, two_digits_test.
    destruct (Nat.eqb (length b) 2 && forallb is_digit b)%bool.
    + rewrite Hdd. exact Hread.
    + unfold re_dots. rewrite remove_char, (filter_only dot a b Had Hbd), Hab.
      apply integer_reading.
Qed.

End OneSeparator.

(** C2.  The rule for a token with one kind of separator holds when the
    separator occurs once ([single_separator_rule]).  Here it is run on
    two tokens in which the separator is repeated and two digits follow
    its last occurrence.  With the last occurrence as the decimal point
    both would be read as 1234.56; the normaliser turns the first comma
    into the decimal point and returns 1.23456, and reads the dotted token
    up to its second dot and returns 1.234. *)
Theorem C2_repeated_separator :
  includes (codes "1,234,56") comma = true
  /\ includes (codes "1,234,56") dot = false
  /\ substring (codes "1,234,56") (lastIndexOf (codes "1,234,56") comma + 1)
     = codes "56"
  /\ parseNorwegianCurrency (codes "1,234,56") = Some (decimal false 123456 (-5))
  /\ parseNorwegianCurrency (codes "1,234,56") <> Some (decimal false 123456 (-2))
  /\ substring (codes "1.234.56") (lastIndexOf (codes "1.234.56") dot + 1)
     = codes "56"
  /\ parseNorwegianCurrency (codes "1.234.56") = Some (decimal false 1234 (-3))
  /\ parseNorwegianCurrency (codes "1.234.56") <> Some (decimal false 123456 (-2)).
Proof. repeat split; vm_compute; try reflexivity; discriminate. Qed.

Section TokenForms.

Lemma both_separators_reading s :
  includes (trim s) comma = true ->
  includes (trim s) dot = true ->
  parseNorwegianCurrency s =
  if (lastIndexOf (trim s) comma >? lastIndexOf (trim s) dot)%Z
  then reading (upto comma (trim s)) (behind comma (trim s))
  else reading (upto dot (trim s)) (upto dot (behind dot (trim s))).
Proof.
  intros Hc Hd. unfold parseNorwegianCurrency.
  rewrite (trim_nonempty s (includes_nonempty comma (trim s) Hc)).
  rewrite Hc, Hd. cbn [andb].
  destruct (lastIndexOf (trim s) comma >? lastIndexOf (trim s) dot)%Z.
  - unfold re_dots. rewrite remove_char, strip_filter, (comma_to_dot _ Hc).
    rewrite filter_app. cbn [filter]. change (is_digit_or_dot dot) with true.
    cbv iota. rewrite !digits_of_undotted.
    rewrite <- (app_nil_r (digits (behind comma (trim s)))).
    apply (reading_parse _ _ []). exact I.
  - unfold re_commas. rewrite remove_char, strip_filter, strip_uncomma.
    rewrite strip_at_dot, Hd, (strip_at_dot (behind dot (trim s))).
    apply reading_parse. destruct (includes (behind dot (trim s)) dot); reflexivity.
Qed.

(** A token [<d1> E <d2> L <dd>] of digits around one grouping mark [E]
    and one later separator [L]. *)
Lemma grouped_token_reading (E L : char) d1 d2 dd :
  (E = dot /\ L = comma) \/ (E = comma /\ L = dot) ->
  Forall (fun c => is_digit c = true) d1 ->
  Forall (fun c => is_digit c = true) d2 ->
  Forall (fun c => is_digit c = true) dd ->
  d1 <> [] ->
  parseNorwegianCurrency (d1 ++ E :: d2 ++ L :: dd) =
  Some (decimal false (digits_value (d1 ++ d2 ++ dd)) (- Z.of_nat (length dd))).
Proof.
  intros HEL H1 H2 H3 Hn.
  assert (HE : is_digit E = false) by (destruct HEL as [[-> _]|[-> _]]; reflexivity).
  assert (HL : is_digit L = false) by (destruct HEL as [[_ ->]|[_ ->]]; reflexivity).
  assert (HEs : is_space E = false) by (destruct HEL as [[-> _]|[-> _]]; reflexivity).
  assert (HLs : is_space L = false) by (destruct HEL as [[_ ->]|[_ ->]]; reflexivity).
  assert (HLE : N.eqb L E = false) by (destruct HEL as [[-> ->]|[-> ->]]; reflexivity).
  assert (HEL' : N.eqb E L = false) by (rewrite N.eqb_sym; exact HLE).
  set (t := d1 ++ E :: d2 ++ L :: dd).
  assert (Ht : trim t = t).
  { apply trim_solid. unfold t.
    repeat first [apply Forall_app; split | apply Forall_cons];
      auto using digits_solid. }
  assert (Hsplit : t = (d1 ++ E :: d2) ++ L :: dd)
    by (unfold t; rewrite <- app_assoc; reflexivity).
  assert (HLin : includes t L = true) by (rewrite Hsplit; apply includes_here).
  assert (HEin : includes t E = true) by apply includes_here.
  assert (HLlast : lastIndexOf t L = Z.of_nat (length (d1 ++ E :: d2))).
  { rewrite Hsplit. apply lastIndexOf_last. apply digits_exclude; assumption. }
  assert (HElast : lastIndexOf t E = Z.of_nat (length d1)).
  { apply lastIndexOf_last. rewrite includes_app.
    rewrite (digits_exclude d2 E H2 HE). unfold includes. cbn [existsb orb].
    rewrite HEL'. apply (digits_exclude dd E H3 HE). }
  assert (Hlt : (lastIndexOf t E < lastIndexOf t L)%Z).
  { rewrite HLlast, HElast, length_app. simpl. lia. }
  assert (Hup : upto L t = d1 ++ E :: d2).
  { rewrite Hsplit. apply upto_first. rewrite includes_app.
    rewrite (digits_exclude d1 L H1 HL). unfold includes. cbn [existsb orb].
    rewrite HLE. apply (digits_exclude d2 L H2 HL). }
  assert (Hbe : behind L t = dd).
  { rewrite Hsplit. apply behind_first. rewrite includes_app.
    rewrite (digits_exclude d1 L H1 HL). unfold includes. cbn [existsb orb].
    rewrite HLE. apply (digits_exclude d2 L H2 HL). }
  assert (Hr : reading (d1 ++ E :: d2) dd =
               Some (decimal false (digits_value (d1 ++ d2 ++ dd))
                       (- Z.of_nat (length dd)))).
  { unfold reading. rewrite digits_app, (digits_sep E d2 HE).
    rewrite (digits_id d1 H1), (digits_id d2 H2), (digits_id dd H3).
    rewrite <- app_assoc.
    destruct d1 as [|c d1]; [contradiction|]. reflexivity. }
  destruct HEL as [[-> ->]|[-> ->]].
  - rewrite (both_separators_reading t); rewrite Ht; try assumption.
    replace (lastIndexOf t comma >? lastIndexOf t dot)%Z with true
      by (symmetry; apply Z.gtb_lt; exact Hlt).
    rewrite Hup, Hbe. exact Hr.
  - rewrite (both_separators_reading t); rewrite Ht; try assumption.
    replace (lastIndexOf t comma >? lastIndexOf t dot)%Z with false
      by (symmetry; rewrite Z.gtb_ltb; apply Z.ltb_ge; lia).
    rewrite Hup, Hbe, (upto_absent dot dd (digits_exclude dd dot H3 eq_refl)).
    exact Hr.
Qed.

Lemma includes_last c s :
  includes s c = true ->
  exists a b, s = a ++ c :: b /\ includes b c = false.
Proof.
  unfold includes. induction s as [|d s IH]; intros H; [discriminate|].
  cbn [existsb] in H.
  destruct (existsb (N.eqb c) s) eqn:E.
  - destruct (IH eq_refl) as (a & b & -> & Hb). exists (d :: a), b.
    split; [reflexivity|exact Hb].
  - rewrite orb_false_r in H. apply N.eqb_eq in H as <-.
    exists [], s. split; [reflexivity|exact E].
Qed.

(** A token with both separators in which the later one, [L], occurs
    once: the digits before [L] are the integer part and the digits
    behind it the fraction. *)
Lemma later_separator_once (E L : char) s a b :
  (E = dot /\ L = comma) \/ (E = comma /\ L = dot) ->
  trim s = a ++ L :: b ->
  includes a E = true ->
  includes a L = false ->
  includes b E = false ->
  includes b L = false ->
  parseNorwegianCurrency s = reading a b.
Proof.
  intros HEL Ht HaE HaL HbE HbL.
  assert (HLE : N.eqb E L = false) by (destruct HEL as [[-> ->]|[-> ->]]; reflexivity).
  assert (HL : includes (trim s) L = true) by (rewrite Ht; apply includes_here).
  assert (HE : includes (trim s) E = true)
    by (rewrite Ht, includes_app, HaE; reflexivity).
  assert (HLlast : lastIndexOf (trim s) L = Z.of_nat (length a))
    by (rewrite Ht; apply lastIndexOf_last, HbL).
  assert (HElast : (lastIndexOf (trim s) E < Z.of_nat (length a))%Z).
  { destruct (includes_last E a HaE) as (a1 & a2 & -> & Ha2).
    rewrite Ht, <- app_assoc. cbn [app].
    rewrite lastIndexOf_last.
    - rewrite length_app. cbn [length]. lia.
    - rewrite includes_app, Ha2. unfold includes at 1. cbn [existsb orb].
      rewrite HLE. exact HbE. }
  destruct HEL as [[-> ->]|[-> ->]].
  - rewrite (both_separators_reading s HL HE).
    replace (lastIndexOf (trim s) comma >? lastIndexOf (trim s) dot)%Z with true
      by (symmetry; apply Z.gtb_lt; lia).
    rewrite Ht, (upto_first comma a b HaL), (behind_first comma a b HaL).
    reflexivity.
  - rewrite (both_separators_reading s HE HL).
    replace (lastIndexOf (trim s) comma >? lastIndexOf (trim s) dot)%Z with false
      by (symmetry; rewrite Z.gtb_ltb; apply Z.ltb_ge; lia).
    rewrite Ht, (upto_first dot a b HaL), (behind_first dot a b HaL).
    rewrite (upto_absent dot b HbL). reflexivity.
Qed.

End TokenForms.

(** C3.  The rule for a token with both separators holds when the
    later separator occurs once ([later_separator_once],
    [grouped_token_reading]).  Here the normaliser is run on two tokens
    in which the later separator is repeated.  With its last occurrence
    as the decimal point both would be read as 1234567.89; the normaliser
    removes the dots, turns the first comma into the decimal point and
    returns 1.23456789, and in the other token it removes the commas,
    reads up to the second dot and returns 1.234567.  The total patterns
    hand such tokens to the normaliser: the total of [Sum 1,234.567,89]
    is 1.23456789 and the total of [Sum 0,001.234,56] is 0.00123456, not
    1234.56. *)
Theorem C3_later_separator_repeated :
  includes (codes "1,234.567,89") comma = true
  /\ includes (codes "1,234.567,89") dot = true
  /\ (lastIndexOf (codes "1,234.567,89") dot
      < lastIndexOf (codes "1,234.567,89") comma)%Z
  /\ parseNorwegianCurrency (codes "1,234.567,89")
     = Some (decimal false 123456789 (-8))
  /\ parseNorwegianCurrency (codes "1,234.567,89")
     <> Some (decimal false 123456789 (-2))
  /\ includes (codes "1.234,567.89") comma = true
  /\ includes (codes "1.234,567.89") dot = true
  /\ (lastIndexOf (codes "1.234,567.89") comma
      < lastIndexOf (codes "1.234,567.89") dot)%Z
  /\ parseNorwegianCurrency (codes "1.234,567.89")
     = Some (decimal false 1234567 (-6))
  /\ parseNorwegianCurrency (codes "1.234,567.89")
     <> Some (decimal false 123456789 (-2))
  /\ option_map total (extractStructuredFields (codes "Sum 1,234.567,89"))
     = Some (Some (decimal false 123456789 (-8)))
  /\ option_map total (extractStructuredFields (codes "Sum 0,001.234,56"))
     = Some (Some (decimal false 123456 (-8))).
Proof. repeat split; vm_compute; try reflexivity; discriminate. Qed.

(** ** Soundness of the matcher *)

Section MatcherSoundness.

Lemma extends_refl x : extends x [] x.
Proof. unfold extends. simpl. repeat split. lia. Qed.

Lemma extends_trans x u y v z :
  extends x u y -> extends y v z -> extends x (u ++ v) z.
Proof.
  intros (A1 & B1 & P1) (A2 & B2 & P2). unfold extends.
  rewrite A1, A2, B2, B1, P2, P1, rev_app_distr, length_app, !app_assoc.
  repeat split. lia.
Qed.

Lemma extends_advance c rest x :
  after x = c :: rest -> extends x [c] (advance c rest x).
Proof. intros H. unfold extends. simpl. rewrite H. repeat split. lia. Qed.

Lemma repeat_sound m inner L :
  sound m L ->
  forall fuel min max x k z,
    repeat m inner fuel min max x k = Some z ->
    exists y ws, extends x (concat ws) y /\ Forall L ws
                 /\ rep_low min max <= length ws
                 /\ rep_high max (length ws) /\ k y = Some z.
Proof.
  intros Hm. induction fuel as [|fuel IH]; intros min max x k z H;
    [discriminate|].
  assert (Hstop : k x = Some z ->
                  rep_low min max = 0 ->
                  exists y ws, extends x (concat ws) y /\ Forall L ws
                    /\ rep_low min max <= length ws
                    /\ rep_high max (length ws) /\ k y = Some z).
  { intros Hk H0.
    refine (ex_intro _ x (ex_intro _ []
              (conj _ (conj _ (conj _ (conj _ Hk)))))).
    - apply extends_refl.
    - constructor.
    - rewrite H0. simpl. lia.
    - destruct max; simpl; [lia|exact I]. }
  assert (Hgo : forall z',
             m (clear inner x)
               (fun y => if (Nat.eqb min 0 && Nat.eqb (pos y) (pos x))%bool
                         then None
                         else repeat m inner fuel (Nat.pred min)
                                (option_map Nat.pred max) y k) = Some z' ->
             max <> Some 0 ->
             exists y ws, extends x (concat ws) y /\ Forall L ws
               /\ rep_low min max <= length ws
               /\ rep_high max (length ws) /\ k y = Some z').
  { intros z' E Hmax. apply Hm in E as (y1 & w1 & X1 & L1 & D).
    destruct (Nat.eqb min 0 && Nat.eqb (pos y1) (pos x))%bool; [discriminate|].
    apply IH in D as (y & ws & X & Lws & Lo & Hi & K).
    refine (ex_intro _ y (ex_intro _ (w1 :: ws)
              (conj _ (conj _ (conj _ (conj _ K)))))).
    - simpl. eapply extends_trans; [exact X1|exact X].
    - constructor; assumption.
    - destruct max as [[|h]|]; simpl in *; [congruence| |];
        destruct min; simpl in *; lia.
    - destruct max as [[|h]|]; simpl in *; [congruence|lia|exact I]. }
  simpl in H. destruct max as [[|h]|].
  - apply Hstop; [exact H|]. simpl. lia.
  - destruct (Nat.eqb_spec min 0) as [->|Hmin].
    + match type of H with match ?e with _ => _ end = _ =>
        assert (C : e = Some z \/ k x = Some z)
          by (destruct e; [left; congruence|right; exact H])
      end.
      destruct C as [C|C]; [apply Hgo; [exact C|discriminate]|].
      apply Hstop; [exact C|reflexivity].
    + apply Hgo; [|discriminate].
      destruct (Nat.eqb_spec min 0); [contradiction|exact H].
  - destruct (Nat.eqb_spec min 0) as [->|Hmin].
    + match type of H with match ?e with _ => _ end = _ =>
        assert (C : e = Some z \/ k x = Some z)
          by (destruct e; [left; congruence|right; exact H])
      end.
      destruct C as [C|C]; [apply Hgo; [exact C|discriminate]|].
      apply Hstop; [exact C|reflexivity].
    + apply Hgo; [|discriminate].
      destruct (Nat.eqb_spec min 0); [contradiction|exact H].
Qed.

Theorem rmatch_sound r : sound (rmatch r) (lang r).
Proof.
  induction r as [|p|r1 IH1 r2 IH2|r1 IH1 r2 IH2|min max r IH|n r IH| | |];
    intros x k z H; cbn [rmatch] in H.
  - exists x, []. exact (conj (extends_refl x) (conj eq_refl H)).
  - destruct (after x) as [|c rest] eqn:E; [discriminate|].
    destruct (p c) eqn:Ep; [|discriminate].
    exists (advance c rest x), [c].
    refine (conj (extends_advance c rest x E) (conj _ H)).
    simpl. eauto.
  - apply IH1 in H as (y1 & w1 & X1 & L1 & H).
    apply IH2 in H as (y2 & w2 & X2 & L2 & H).
    exists y2, (w1 ++ w2).
    refine (conj (extends_trans _ _ _ _ _ X1 X2) (conj _ H)).
    simpl. eauto.
  - destruct (rmatch r1 x k) eqn:E.
    + injection H as <-. apply IH1 in E as (y & w & X & L & K).
      exists y, w. simpl. auto.
    + apply IH2 in H as (y & w & X & L & K). exists y, w. simpl. auto.
  - apply (repeat_sound _ _ _ IH) in H as (y & ws & X & Lws & Lo & Hi & K).
    exists y, (concat ws). refine (conj X (conj _ K)). simpl. eauto.
  - apply IH in H as (y & w & X & L & K).
    exists (capture n x y), w. exact (conj X (conj L K)).
  - destruct (before x); [|discriminate]. exists x, [].
    exact (conj (extends_refl x) (conj eq_refl H)).
  - destruct (after x); [|discriminate]. exists x, [].
    exact (conj (extends_refl x) (conj eq_refl H)).
  - destruct (xorb _ _); [|discriminate]. exists x, [].
    exact (conj (extends_refl x) (conj eq_refl H)).
Qed.

Lemma concat_length_bound (A : Type) (ws : list (list A)) n :
  Forall (fun w => n <= length w) ws -> length ws * n <= length (concat ws).
Proof.
  induction 1 as [|w ws Hw _ IH]; simpl; [lia|]. rewrite length_app. lia.
Qed.

Lemma lang_min_len r : forall w, lang r w -> min_len r <= length w.
Proof.
  induction r as [|p|r1 IH1 r2 IH2|r1 IH1 r2 IH2|min max r IH|n r IH| | |];
    simpl; intros w H; try (subst w; simpl; lia).
  - destruct H as (c & -> & _). simpl. lia.
  - destruct H as (u & v & -> & Hu & Hv). rewrite length_app.
    apply IH1 in Hu. apply IH2 in Hv. lia.
  - destruct H as [H|H]; [apply IH1 in H|apply IH2 in H]; lia.
  - destruct H as (ws & -> & Hws & Lo & _).
    assert (B : length ws * min_len r <= length (concat ws)).
    { apply concat_length_bound. eapply Forall_impl; [|exact Hws]. exact IH. }
    nia.
  - apply IH, H.
Qed.

(** What a successful search returns. *)
Lemma search_sound r : forall aft bef idx m,
  search r bef aft idx = Some m ->
  exists pre w,
    aft = pre ++ w ++ end_after m /\ lang r w /\ matched m = w
    /\ index m = idx + length pre
    /\ rmatch r (start (rev pre ++ bef) (w ++ end_after m)) Some
       = Some (MState (end_before m) (end_after m) (length w) (captures m)).
Proof.
  induction aft as [|c aft IH]; intros bef idx m H; simpl in H.
  - destruct (rmatch r (start bef []) Some) as [y|] eqn:E; [|discriminate].
    injection H as <-. pose proof E as E'.
    apply rmatch_sound in E as (y' & w & (A & B & P) & L & K).
    injection K as ->. simpl in A, B, P. exists [], w. simpl.
    rewrite B, P, firstn_app, length_rev, Nat.sub_diag, firstn_all2
      by (rewrite length_rev; lia).
    simpl. rewrite app_nil_r, rev_involutive, <- A, Nat.add_0_r.
    repeat split; auto. rewrite E'. destruct y; simpl in *. subst. reflexivity.
  - destruct (rmatch r (start bef (c :: aft)) Some) as [y|] eqn:E.
    + injection H as <-. pose proof E as E'.
      apply rmatch_sound in E as (y' & w & (A & B & P) & L & K).
      injection K as ->. simpl in A, B, P. exists [], w. simpl.
      rewrite B, P, firstn_app, length_rev, Nat.sub_diag, firstn_all2
        by (rewrite length_rev; lia).
      simpl. rewrite app_nil_r, rev_involutive, <- A, Nat.add_0_r.
      repeat split; auto. rewrite E'. destruct y; simpl in *. subst. reflexivity.
    + apply IH in H as (pre & w & A & L & M & I & R).
      exists (c :: pre), w. simpl. rewrite <- A, <- app_assoc. simpl.
      repeat split; auto. lia.
Qed.

(** A loop over the matches of a pattern that cannot match the empty
    text ends within as many rounds as the text has characters, plus
    one. *)
Lemma exec_all_total r :
  0 < min_len r ->
  forall fuel bef aft idx,
    length aft < fuel -> exists ms, exec_all fuel r bef aft idx = Some ms.
Proof.
  intros Hr. induction fuel as [|fuel IH]; intros bef aft idx H; [lia|].
  simpl. destruct (search r bef aft idx) as [m|] eqn:E; [|eauto].
  apply search_sound in E as (pre & w & A & L & _).
  apply lang_min_len in L.
  destruct (IH (end_before m) (end_after m) (index m + length (matched m)))
    as [ms ->].
  - rewrite A, !length_app in H. lia.
  - simpl. eauto.
Qed.

End MatcherSoundness.

(** ** The fuel of the matcher is never spent *)

Section FuelAdequacy.

Lemma repeat_local m inner :
  local m ->
  forall fuel min max x k k',
    (forall y w, extends x w y -> k y = k' y) ->
    repeat m inner fuel min max x k = repeat m inner fuel min max x k'.
Proof.
  intros Hm. induction fuel as [|fuel IH]; intros min max x k k' H; [reflexivity|].
  cbn [repeat].
  assert (Hx : k x = k' x) by exact (H x [] (extends_refl x)).
  assert (Hd : m (clear inner x)
                 (fun y => if (Nat.eqb min 0 && Nat.eqb (pos y) (pos x))%bool
                           then None
                           else repeat m inner fuel (Nat.pred min)
                                  (option_map Nat.pred max) y k)
               = m (clear inner x)
                 (fun y => if (Nat.eqb min 0 && Nat.eqb (pos y) (pos x))%bool
                           then None
                           else repeat m inner fuel (Nat.pred min)
                                  (option_map Nat.pred max) y k')).
  { apply Hm. intros y w X.
    destruct (Nat.eqb min 0 && Nat.eqb (pos y) (pos x))%bool; [reflexivity|].
    apply IH. intros y' w' X'. apply (H y' (w ++ w')).
    exact (extends_trans x w y w' y' X X'). }
  rewrite Hd, Hx. reflexivity.
Qed.

Theorem rmatch_local r : local (rmatch r).
Proof.
  induction r as [|p|r1 IH1 r2 IH2|r1 IH1 r2 IH2|min max r IH|n r IH| | |];
    intros x k k' H; cbn [rmatch].
  - exact (H x [] (extends_refl x)).
  - destruct (after x) as [|c rest] eqn:E; [reflexivity|].
    destruct (p c); [|reflexivity].
    exact (H _ [c] (extends_advance c rest x E)).
  - apply IH1. intros y w X. apply IH2. intros y' w' X'.
    exact (H y' (w ++ w') (extends_trans x w y w' y' X X')).
  - rewrite (IH1 x k k' H), (IH2 x k k' H). reflexivity.
  - apply repeat_local; assumption.
  - apply IH. intros y w X. exact (H (capture n x y) w X).
  - destruct (before x); [|reflexivity]. exact (H x [] (extends_refl x)).
  - destruct (after x); [|reflexivity]. exact (H x [] (extends_refl x)).
  - destruct (xorb _ _); [|reflexivity]. exact (H x [] (extends_refl x)).
Qed.

Lemma extends_shorter x w y :
  extends x w y ->
  length (after y) <= length (after x)
  /\ (pos y <> pos x -> length (after y) < length (after x)).
Proof.
  intros (A & _ & P). rewrite A, length_app. split; [lia|].
  intros N. destruct w; simpl in *; lia.
Qed.

(** Beyond the amount that [rmatch] provides, more fuel changes nothing. *)
Lemma repeat_fuel m inner :
  local m ->
  forall fuel1 fuel2 min max x k,
    min + length (after x) < fuel1 ->
    min + length (after x) < fuel2 ->
    repeat m inner fuel1 min max x k = repeat m inner fuel2 min max x k.
Proof.
  intros Hm. induction fuel1 as [|fuel1 IH]; intros fuel2 min max x k H1 H2; [lia|].
  destruct fuel2 as [|fuel2]; [lia|]. cbn [repeat].
  assert (Hd : m (clear inner x)
                 (fun y => if (Nat.eqb min 0 && Nat.eqb (pos y) (pos x))%bool
                           then None
                           else repeat m inner fuel1 (Nat.pred min)
                                  (option_map Nat.pred max) y k)
               = m (clear inner x)
                 (fun y => if (Nat.eqb min 0 && Nat.eqb (pos y) (pos x))%bool
                           then None
                           else repeat m inner fuel2 (Nat.pred min)
                                  (option_map Nat.pred max) y k)).
  { apply Hm. intros y w X.
    destruct (extends_shorter x w y X) as [L1 L2].
    destruct (Nat.eqb_spec min 0) as [->|Hmin]; cbn [andb].
    - destruct (Nat.eqb_spec (pos y) (pos x)) as [_|Hp]; [reflexivity|].
      specialize (L2 Hp). apply IH; simpl in *; lia.
    - apply IH; lia. }
  rewrite Hd. reflexivity.
Qed.

Theorem rmatch_fuel_adequate r min max x k extra :
  repeat (rmatch r) (groups r) (S (min + length (after x)) + extra) min max x k
  = rmatch (Rep min max r) x k.
Proof.
  cbn [rmatch]. apply repeat_fuel; [apply rmatch_local| |]; lia.
Qed.

Lemma rmatch_shorter r bef aft y :
  rmatch r (start bef aft) Some = Some y ->
  length (after y) <= length aft
  /\ (Nat.eqb (pos y) 0 = false -> length (after y) < length aft).
Proof.
  intros H. apply rmatch_sound in H as (y' & w & X & _ & K).
  injection K as ->. destruct (extends_shorter _ w y X) as [L1 L2].
  cbn [start after pos] in L1, L2. split; [exact L1|].
  intros N. apply L2. apply Nat.eqb_neq, N.
Qed.

(** The same for the loops of [replace] and [split]. *)
Lemma replace_loop_fuel r rep : forall fuel1 fuel2 bef aft,
  length aft < fuel1 -> length aft < fuel2 ->
  replace_loop fuel1 r rep bef aft = replace_loop fuel2 r rep bef aft.
Proof.
  induction fuel1 as [|fuel1 IH]; intros fuel2 bef aft H1 H2; [lia|].
  destruct fuel2 as [|fuel2]; [lia|]. cbn [replace_loop].
  assert (Hs : match aft with
               | [] => []
               | c :: aft' => c :: replace_loop fuel1 r rep (c :: bef) aft'
               end
             = match aft with
               | [] => []
               | c :: aft' => c :: replace_loop fuel2 r rep (c :: bef) aft'
               end).
  { destruct aft as [|c aft']; [reflexivity|]. simpl in H1, H2.
    f_equal. apply IH; lia. }
  destruct (rmatch r (start bef aft) Some) as [y|] eqn:E; [|exact Hs].
  destruct (rmatch_shorter r bef aft y E) as [_ L].
  destruct (Nat.eqb (pos y) 0); [rewrite Hs; reflexivity|].
  f_equal. specialize (L eq_refl). apply IH; lia.
Qed.

Lemma split_loop_fuel r : forall fuel1 fuel2 bef aft piece,
  2 * length aft + (if is_empty piece then 0 else 1) < fuel1 ->
  2 * length aft + (if is_empty piece then 0 else 1) < fuel2 ->
  split_loop fuel1 r bef aft piece = split_loop fuel2 r bef aft piece.
Proof.
  induction fuel1 as [|fuel1 IH]; intros fuel2 bef aft piece H1 H2; [lia|].
  destruct fuel2 as [|fuel2]; [lia|]. cbn [split_loop].
  destruct aft as [|c aft']; [reflexivity|]. cbn [length] in H1, H2.
  assert (Hs : split_loop fuel1 r (c :: bef) aft' (c :: piece)
               = split_loop fuel2 r (c :: bef) aft' (c :: piece)).
  { apply IH; cbn [is_empty]; lia. }
  destruct (rmatch r (start bef (c :: aft')) Some) as [y|] eqn:E; [|exact Hs].
  destruct (rmatch_shorter r bef (c :: aft') y E) as [L1 L2].
  cbn [length] in L1, L2.
  destruct (Nat.eqb (pos y) 0) eqn:Ep; cbn [andb].
  - destruct (is_empty piece) eqn:Ee; [exact Hs|].
    f_equal. apply IH; cbn [is_empty]; lia.
  - specialize (L2 eq_refl). f_equal. apply IH; cbn [is_empty]; lia.
Qed.

End FuelAdequacy.

(** ** The total: a running maximum *)

Section TotalLoop.

Lemma plausible_le_refl t : plausible t = true -> le t t = true.
Proof.
  intros H. destruct (plausible_finite t H) as (m & e & ->).
  apply finite_le. right. split; [reflexivity|lia].
Qed.

Lemma plausible_truthy t : plausible t = true -> truthy t = true.
Proof. unfold plausible. intros H. destruct (truthy t); [reflexivity|discriminate]. Qed.

Lemma plausible_positive t : plausible t = true -> gt t zero = true.
Proof.
  intros H. destruct (plausible_finite t H) as (m & e & ->). reflexivity.
Qed.

Lemma plausible_below t : plausible t = true -> lt t million = true.
Proof.
  unfold plausible. intros H. apply andb_prop in H. apply H.
Qed.

Lemma plausible_not_above t : plausible t = true -> le million t = false.
Proof.
  intros H. pose proof (plausible_below t H) as B.
  destruct (plausible_finite t H) as (m & e & ->).
  destruct (le million (S754_finite false m e)) eqn:E; [|reflexivity].
  exfalso. unfold million, of_N in *.
  change (decimal false 1000000 0) with (S754_finite false 8589934592000000 (-33)) in *.
  apply finite_le in E. change (lt ?a ?b) with (gt b a) in B.
  apply finite_gt in B. clear H. lia.
Qed.

(** Above a plausible amount and below one million: plausible. *)
Lemma plausible_above a t :
  plausible t = true -> truthy a = true -> gt a t = true ->
  lt a million = true -> plausible a = true.
Proof.
  intros Ht Ha Hgt Hlt. destruct (plausible_finite t Ht) as (m & e & ->).
  unfold plausible. rewrite Ha, Hlt.
  destruct a as [s|s| |s m' e']; try discriminate; destruct s; try discriminate;
    reflexivity.
Qed.

Lemma plausible_total a t :
  plausible a = true -> plausible t = true -> gt a t = false -> le a t = true.
Proof.
  intros Ha Ht H.
  destruct (plausible_finite a Ha) as (m & e & ->).
  destruct (plausible_finite t Ht) as (m' & e' & ->).
  apply finite_le.
  destruct (Z.compare_spec e e') as [E|E|E]; [|lia|].
  - destruct (Z.compare_spec (Z.pos m) (Z.pos m')) as [M|M|M]; [lia|lia|].
    assert (G : gt (S754_finite false m e) (S754_finite false m' e') = true)
      by (apply finite_gt; lia). congruence.
  - assert (G : gt (S754_finite false m e) (S754_finite false m' e') = true)
      by (apply finite_gt; lia). congruence.
Qed.

Lemma plausible_trans u t a :
  plausible u = true -> plausible t = true -> plausible a = true ->
  le u t = true -> gt a t = true -> le u a = true.
Proof.
  intros Hu Ht Ha.
  destruct (plausible_finite u Hu) as (m1 & e1 & ->).
  destruct (plausible_finite t Ht) as (m2 & e2 & ->).
  destruct (plausible_finite a Ha) as (m3 & e3 & ->).
  intros H1 H2. apply finite_le in H1. apply finite_gt in H2.
  apply finite_le. lia.
Qed.

Lemma amounts_app ms1 ms2 : amounts (ms1 ++ ms2) = amounts ms1 ++ amounts ms2.
Proof.
  induction ms1 as [|m ms1 IH]; cbn [amounts app]; [reflexivity|].
  destruct (parse_capture (group m 1)) as [v|]; [|exact IH].
  destruct (plausible v); cbn [app]; rewrite IH; reflexivity.
Qed.

Lemma tracked_keep seen t a :
  tracked seen (Some t) -> plausible a = true -> gt a t = false ->
  tracked (seen ++ [a]) (Some t).
Proof.
  intros (Hs & Hin & Hmax) Ha Hgt.
  assert (Ht : plausible t = true) by (rewrite Forall_forall in Hs; auto).
  split; [apply Forall_app; auto|]. split.
  - apply in_or_app. auto.
  - intros u Hu. apply in_app_or in Hu as [Hu|[<-|[]]]; auto.
    apply plausible_total; assumption.
Qed.

Lemma tracked_raise seen t a :
  tracked seen (Some t) -> plausible a = true -> gt a t = true ->
  tracked (seen ++ [a]) (Some a).
Proof.
  intros (Hs & Hin & Hmax) Ha Hgt.
  assert (Ht : plausible t = true) by (rewrite Forall_forall in Hs; auto).
  split; [apply Forall_app; auto|]. split.
  - apply in_or_app. simpl. auto.
  - intros u Hu. apply in_app_or in Hu as [Hu|[<-|[]]].
    + rewrite Forall_forall in Hs. eapply plausible_trans; eauto.
    + apply plausible_le_refl, Ha.
Qed.

Lemma tracked_first a : plausible a = true -> tracked [a] (Some a).
Proof.
  intros Ha. split; [auto|]. split; [simpl; auto|].
  intros u [<-|[]]. apply plausible_le_refl, Ha.
Qed.

(** One round of the loop over the matches of a total pattern. *)
Lemma total_step_tracked seen total m :
  tracked seen total ->
  tracked (seen ++ amounts [m]) (total_step total m).
Proof.
  intros T. unfold total_step. cbn [amounts].
  destruct (parse_capture (group m 1)) as [a|]; [|rewrite app_nil_r; exact T].
  destruct total as [t|].
  - assert (Ht : plausible t = true)
      by (destruct T as (Hs & Hin & _); rewrite Forall_forall in Hs; auto).
    cbn [or_zero]. rewrite (plausible_truthy t Ht).
    destruct (truthy a) eqn:Ea; cbn [andb].
    + destruct (gt a t) eqn:Eg; cbn [andb].
      * destruct (lt a million) eqn:El.
        -- rewrite (plausible_above a t Ht Ea Eg El).
           exact (tracked_raise seen t a T (plausible_above a t Ht Ea Eg El) Eg).
        -- replace (plausible a) with false
             by (unfold plausible; rewrite El, andb_false_r; reflexivity).
           rewrite app_nil_r. exact T.
      * destruct (plausible a) eqn:Ep; [|rewrite app_nil_r; exact T].
        exact (tracked_keep seen t a T Ep Eg).
    + replace (plausible a) with false by (unfold plausible; rewrite Ea; reflexivity).
      rewrite app_nil_r. exact T.
  - destruct T as (_ & ->). cbn [or_zero app].
    change (truthy a && gt a zero && lt a million)%bool with (plausible a).
    destruct (plausible a) eqn:Ep.
    + apply tracked_first, Ep.
    + split; [constructor|reflexivity].
Qed.

Lemma total_fold_tracked ms : forall seen total,
  tracked seen total ->
  tracked (seen ++ amounts ms) (fold_left total_step ms total).
Proof.
  induction ms as [|m ms IH]; intros seen total T; simpl fold_left.
  - simpl. rewrite app_nil_r. exact T.
  - change (m :: ms) with ([m] ++ ms). rewrite amounts_app, app_assoc.
    apply IH, total_step_tracked, T.
Qed.

(** The fallback loop keeps the same running maximum, with zero in the
    place of a missing value. *)
Lemma max_step_as_total max m :
  max = zero \/ truthy max = true ->
  as_total (max_step max m) = total_step (as_total max) m
  /\ (max_step max m = zero \/ truthy (max_step max m) = true).
Proof.
  intros Hmax. unfold max_step, total_step.
  assert (E : or_zero (as_total max) = max).
  { destruct Hmax as [->|H]; [reflexivity|]. unfold as_total. rewrite H.
    simpl. rewrite H. reflexivity. }
  rewrite E. destruct (parse_capture (group m 1)) as [a|]; [|auto].
  destruct (truthy a) eqn:Ea; cbn [andb]; [|auto].
  destruct (gt a max && lt a million)%bool; [|auto].
  unfold as_total at 1. rewrite Ea. auto.
Qed.

Lemma max_fold_as_total ms : forall max,
  max = zero \/ truthy max = true ->
  as_total (fold_left max_step ms max) = fold_left total_step ms (as_total max)
  /\ (fold_left max_step ms max = zero \/ truthy (fold_left max_step ms max) = true).
Proof.
  induction ms as [|m ms IH]; intros max H; simpl; [auto|].
  destruct (max_step_as_total max m H) as [E H']. rewrite <- E. apply IH, H'.
Qed.

Lemma min_len_totalPatterns : Forall (fun p => 0 < min_len p) totalPatterns.
Proof. repeat constructor; vm_compute; lia. Qed.

Lemma min_len_moneyRegex : 0 < min_len moneyRegex.
Proof. vm_compute. lia. Qed.

Lemma matches_exec r text :
  0 < min_len r ->
  exec_all (S (length text)) r [] text 0 = Some (matches r text).
Proof.
  intros H. unfold matches.
  destruct (exec_all_total r H (S (length text)) [] text 0) as [ms ->]; [lia|].
  reflexivity.
Qed.

Lemma keyword_total_tracked text : forall patterns seen total,
  Forall (fun p => 0 < min_len p) patterns ->
  tracked seen total ->
  exists total',
    keyword_total (S (length text)) patterns text total = Some total'
    /\ tracked (seen ++ amounts (flat_map (fun p => matches p text) patterns)) total'.
Proof.
  induction patterns as [|p ps IH]; intros seen total Hp T.
  - exists total. simpl. rewrite app_nil_r. auto.
  - inversion Hp as [|? ? H1 H2]; subst. cbn [keyword_total flat_map].
    rewrite (matches_exec p text H1), amounts_app, app_assoc.
    apply IH; [exact H2|]. apply total_fold_tracked, T.
Qed.

(** The total found: the running maximum over the keyword amounts, or,
    when there is none, over the amounts of the scan. *)
Lemma find_total_tracked text :
  exists total,
    find_total (S (length text)) text = Some total
    /\ tracked (match keyword_amounts text with
                | [] => scan_amounts text
                | l => l
                end) total.
Proof.
  unfold find_total.
  destruct (keyword_total_tracked text totalPatterns [] None
              min_len_totalPatterns) as (total & -> & T).
  { split; [constructor|reflexivity]. }
  cbn [app] in T. fold (keyword_amounts text) in T.
  destruct total as [t|].
  - destruct T as (Hs & Hin & Hmax).
    assert (Ht : plausible t = true) by (rewrite Forall_forall in Hs; auto).
    cbn [truthy_opt]. rewrite (plausible_truthy t Ht). cbn [negb].
    exists (Some t). split; [reflexivity|].
    destruct (keyword_amounts text); [destruct Hin|]. repeat split; assumption.
  - destruct T as (_ & ->). cbn [truthy_opt negb].
    rewrite (matches_exec moneyRegex text min_len_moneyRegex).
    fold (scan_amounts text).
    destruct (max_fold_as_total (matches moneyRegex text) zero (or_introl eq_refl))
      as [E Hz].
    pose proof (total_fold_tracked (matches moneyRegex text) [] None) as T.
    cbn [app] in T. fold (scan_amounts text) in T.
    change (as_total zero) with (@None number) in E. rewrite <- E in T.
    specialize (T (conj (Forall_nil _) eq_refl)).
    eexists. split; [reflexivity|].
    unfold as_total in T.
    destruct Hz as [Hz|Hz]; rewrite Hz in *.
    + exact T.
    + destruct T as (Hs & Hin & Hmax).
      assert (Ht : plausible (fold_left max_step (matches moneyRegex text) zero) = true)
        by (rewrite Forall_forall in Hs; auto).
      rewrite (plausible_positive _ Ht). repeat split; assumption.
Qed.

Lemma extract_total text :
  exists total,
    find_total (S (length text)) text = Some total
    /\ extractStructuredFields text =
       Some (Fields (find_merchant text) (find_vat text) total
               (Some (find_currency text))).
Proof.
  destruct (find_total_tracked text) as (total & E & _).
  exists total. split; [exact E|].
  unfold extractStructuredFields, extractStructuredFields_fuel. rewrite E.
  reflexivity.
Qed.

End TotalLoop.

(** C4.  The extractor always returns, and its total is found in two
    phases.  When some match of a keyword pattern normalises to a positive
    amount below one million, the total is a greatest such amount.  Only
    when there is none does the money-shaped scan decide: the total is then
    a greatest positive amount below one million among its matches, and
    absent when there is none either. *)
Theorem C4_total_two_phase_maximum :
  forall text, exists f,
    extractStructuredFields text = Some f
    /\ (keyword_amounts text <> [] ->
        exists t, total f = Some t /\ is_max (keyword_amounts text) t)
    /\ (keyword_amounts text = [] -> scan_amounts text <> [] ->
        exists t, total f = Some t /\ is_max (scan_amounts text) t)
    /\ (keyword_amounts text = [] -> scan_amounts text = [] ->
        total f = None).
Proof.
  intros text.
  destruct (extract_total text) as (tot & E & ->).
  destruct (find_total_tracked text) as (tot' & E' & T).
  rewrite E in E'. injection E' as <-.
  eexists. split; [reflexivity|]. cbn [total].
  destruct T as (_ & T). repeat split.
  - intros Hk. destruct (keyword_amounts text) as [|v l]; [contradiction|].
    destruct tot as [t|]; [|discriminate]. exists t. auto.
  - intros Hk Hs. rewrite Hk in T.
    destruct tot as [t|]; [|contradiction]. exists t. auto.
  - intros Hk Hs. rewrite Hk, Hs in T.
    destruct tot as [t|]; [|reflexivity]. destruct T as ([] & _).
Qed.

Lemma C4_total_two_phase_maximum_witness :
  exists f,
    extractStructuredFields (codes "Sum 128,15 MVA 25,63") = Some f
    /\ total f = Some (decimal false 12815 (-2)).
Proof.
  destruct (C4_total_two_phase_maximum (codes "Sum 128,15 MVA 25,63"))
    as (f & E & H1 & _).
  destruct H1 as (t & Et & Hin & _).
  - vm_compute. discriminate.
  - exists f. split; [exact E|]. rewrite Et.
    vm_compute in Hin. destruct Hin as [<-|[]]. vm_compute. reflexivity.
Defined.

(** C5.  A total that is present lies strictly between zero and one
    million; an amount of one million or more is never the total, whichever
    phase met it. *)
Theorem C5_total_in_range :
  forall text f t,
    extractStructuredFields text = Some f ->
    total f = Some t ->
    gt t zero = true /\ lt t million = true /\ le million t = false.
Proof.
  intros text f t E Ht.
  destruct (extract_total text) as (tot & E1 & E2).
  rewrite E2 in E. injection E as <-. cbn [total] in Ht. subst tot.
  destruct (find_total_tracked text) as (tot' & E' & T).
  rewrite E1 in E'. injection E' as <-.
  destruct T as (Hs & Hin & _).
  assert (P : plausible t = true) by (rewrite Forall_forall in Hs; auto).
  auto using plausible_positive, plausible_below, plausible_not_above.
Qed.

Lemma C5_total_in_range_witness :
  gt (decimal false 5500 (-2)) zero = true
  /\ lt (decimal false 5500 (-2)) million = true
  /\ le million (decimal false 5500 (-2)) = false.
Proof.
  eapply (C5_total_in_range (codes "Sum 55,00")).
  - vm_compute. reflexivity.
  - vm_compute. reflexivity.
Defined.

(** ** The VAT amount *)

Section VatLoop.

Lemma app_same_length (A : Type) (l1 l2 r1 r2 : list A) :
  l1 ++ r1 = l2 ++ r2 -> length l1 = length l2 -> l1 = l2 /\ r1 = r2.
Proof.
  revert l2. induction l1 as [|a l1 IH]; intros [|b l2] H L; try discriminate.
  - auto.
  - simpl in H. injection H as -> H. injection L as L.
    destruct (IH l2 H L) as [-> ->]. auto.
Qed.

(** When the breakdown pattern matches and its second group normalises to
    a truthy amount, the loop over the VAT matches stops there. *)
Lemma vat_breakdown_first text m s2 :
  smatch re_vat_breakdown text = Some m ->
  group m 2 = Some s2 ->
  truthy_opt (parseNorwegianCurrency s2) = true ->
  find_vat text = parseNorwegianCurrency s2.
Proof.
  intros Hm Hg Ht. unfold find_vat, vatPatterns. cbn [map vat_loop].
  rewrite Hm, Hg.
  assert (E : or_else (Some s2) (group m 1) = Some s2).
  { destruct s2; [discriminate Ht|reflexivity]. }
  rewrite E. cbn [parse_capture]. rewrite Ht. reflexivity.
Qed.

(** The breakdown pattern at the triple of the noisy receipt, whatever
    surrounds it. *)
Lemma vat_breakdown_at_triple bef post :
  rmatch re_vat_breakdown
    (start bef (codes "1599.20 25% 399.80 1999.00" ++ post)) Some
  = Some (MState (rev (codes "1599.20 25% 399.80") ++ bef)
            (codes " 1999.00" ++ post) 18
            [(2, codes "399.80"); (1, codes "1599.20")]).
Proof. vm_compute. reflexivity. Qed.

End VatLoop.

(** C7.  On ["MVA 0,00"] every VAT pattern fails to match or selects a
    capture that normalises to zero, and the record carries a VAT amount
    that is present and zero. *)
Theorem C7_zero_vat_present :
  Forall (fun p =>
            match smatch p (codes "MVA 0,00") with
            | Some m => parse_capture (or_else (group m 2) (group m 1)) = Some zero
            | None => True
            end) vatPatterns
  /\ option_map vatAmount (extractStructuredFields (codes "MVA 0,00"))
     = Some (Some zero).
Proof.
  split; [|vm_compute; reflexivity].
  repeat constructor; vm_compute; auto.
Qed.

(** C6.  When the breakdown pattern matches and its second captured
    number normalises to a truthy amount, that amount is the VAT amount of
    the record.  For a text that contains ["1599.20 25% 399.80 1999.00"]
    and in which the first match of the breakdown pattern starts at that
    triple, the VAT amount is 399.80. *)
Theorem C6_vat_breakdown_second_number :
  (forall text f m s2,
     extractStructuredFields text = Some f ->
     smatch re_vat_breakdown text = Some m ->
     group m 2 = Some s2 ->
     truthy_opt (parseNorwegianCurrency s2) = true ->
     vatAmount f = parseNorwegianCurrency s2)
  /\ (forall pre post f,
        extractStructuredFields
          (pre ++ codes "1599.20 25% 399.80 1999.00" ++ post) = Some f ->
        option_map index
          (smatch re_vat_breakdown
             (pre ++ codes "1599.20 25% 399.80 1999.00" ++ post))
        = Some (length pre) ->
        vatAmount f = Some (decimal false 39980 (-2))).
Proof.
  assert (A : forall text f m s2,
             extractStructuredFields text = Some f ->
             smatch re_vat_breakdown text = Some m ->
             group m 2 = Some s2 ->
             truthy_opt (parseNorwegianCurrency s2) = true ->
             vatAmount f = parseNorwegianCurrency s2).
  { intros text f m s2 E Hm Hg Ht.
    destruct (extract_total text) as (tot & _ & E'). rewrite E' in E.
    injection E as <-. cbn [vatAmount].
    exact (vat_breakdown_first text m s2 Hm Hg Ht). }
  split; [exact A|].
  intros pre post f E Hi.
  destruct (smatch re_vat_breakdown _) as [m|] eqn:Hm; [|discriminate].
  injection Hi as Hi.
  apply (A _ f m (codes "399.80") E Hm); [|vm_compute; reflexivity].
  unfold smatch in Hm.
  apply search_sound in Hm as (pre' & w & Et & _ & _ & Ei & R).
  simpl in Ei. rewrite Hi in Ei.
  apply app_same_length in Et as [<- Et]; [|exact Ei].
  rewrite <- Et, vat_breakdown_at_triple in R.
  injection R as _ _ _ R. unfold group. rewrite <- R. reflexivity.
Qed.

Lemma C6_vat_breakdown_second_number_witness :
  exists f,
    extractStructuredFields
      (codes "MVA-grunnlag " ++ codes "1599.20 25% 399.80 1999.00" ++ codes " EROS")
    = Some f
    /\ vatAmount f = Some (decimal false 39980 (-2)).
Proof.
  destruct (extract_total
              (codes "MVA-grunnlag " ++ codes "1599.20 25% 399.80 1999.00"
               ++ codes " EROS")) as (tot & _ & E).
  eexists. split; [exact E|].
  apply (proj2 C6_vat_breakdown_second_number
           (codes "MVA-grunnlag ") (codes " EROS") _ E).
  vm_compute. reflexivity.
Defined.

(** ** Searching *)

Section Searching.

(** A successful search stops at the first position where the pattern
    matches. *)
Lemma search_first r : forall aft bef idx m,
  search r bef aft idx = Some m ->
  exists pre rest y,
    aft = pre ++ rest /\ index m = idx + length pre
    /\ rmatch r (start (rev pre ++ bef) rest) Some = Some y
    /\ m = result_of (idx + length pre) y
    /\ forall p1 p2, pre = p1 ++ p2 -> p2 <> [] ->
         rmatch r (start (rev p1 ++ bef) (p2 ++ rest)) Some = None.
Proof.
  induction aft as [|c aft IH]; intros bef idx m H; cbn [search] in H.
  - destruct (rmatch r (start bef []) Some) as [y|] eqn:E; [|discriminate].
    injection H as <-. exists [], [], y. cbn [app rev length].
    rewrite Nat.add_0_r. repeat split; auto.
    intros p1 p2 Hp Hn. destruct p1, p2; try discriminate. contradiction.
  - destruct (rmatch r (start bef (c :: aft)) Some) as [y|] eqn:E.
    + injection H as <-. exists [], (c :: aft), y. cbn [app rev length].
      rewrite Nat.add_0_r. repeat split; auto.
      intros p1 p2 Hp Hn. destruct p1, p2; try discriminate. contradiction.
    + apply IH in H as (pre & rest & y & A & I & R & M & F).
      exists (c :: pre), rest, y. cbn [app rev length].
      rewrite <- app_assoc. cbn [app].
      replace (idx + S (length pre)) with (S idx + length pre) by lia.
      repeat split; auto; [congruence|].
      intros p1 p2 Hp Hn. destruct p1 as [|c' p1].
      * cbn [app] in Hp. subst p2. cbn [app rev]. rewrite <- A. exact E.
      * cbn [app] in Hp. injection Hp as <- Hp. cbn [rev].
        rewrite <- app_assoc. cbn [app]. apply F; assumption.
Qed.

(** A failed search has tried every position. *)
Lemma search_none r : forall aft bef idx,
  search r bef aft idx = None ->
  forall pre rest, aft = pre ++ rest ->
    rmatch r (start (rev pre ++ bef) rest) Some = None.
Proof.
  induction aft as [|c aft IH]; intros bef idx H pre rest A; cbn [search] in H.
  - destruct pre, rest; try discriminate. cbn [rev app].
    destruct (rmatch r (start bef []) Some); [discriminate|reflexivity].
  - destruct (rmatch r (start bef (c :: aft)) Some) eqn:E; [discriminate|].
    destruct pre as [|c' pre].
    + cbn [app] in A. subst rest. exact E.
    + cbn [app] in A. injection A as <- A. cbn [rev]. rewrite <- app_assoc.
      apply (IH (c :: bef) (S idx) H pre rest A).
Qed.

End Searching.

(** ** The currency code *)

Section Currency.

Lemma rmatch_chars_i l : forall x k,
  rmatch (seq (map chr_i l)) x k =
  if ci_prefix l (after x) then k (advance_over (length l) x) else None.
Proof.
  induction l as [|a l IH]; intros x k; [reflexivity|].
  destruct l as [|b l].
  - cbn [map seq rmatch chr_i ci_prefix length advance_over].
    destruct (after x) as [|c rest]; [reflexivity|].
    rewrite andb_true_r. reflexivity.
  - change (seq (map chr_i (a :: b :: l)))
      with (Seq (chr_i a) (seq (map chr_i (b :: l)))).
    cbn [rmatch chr_i]. cbn [ci_prefix length advance_over].
    destruct (after x) as [|c rest]; [reflexivity|].
    destruct (N.eqb (canonicalize c) (canonicalize a)); [|reflexivity].
    rewrite IH. reflexivity.
Qed.

Lemma lang_chars_i l : forall w,
  lang (seq (map chr_i l)) w -> map canonicalize w = map canonicalize l.
Proof.
  induction l as [|a l IH]; intros w H.
  - cbn in H. subst w. reflexivity.
  - destruct l as [|b l].
    + cbn in H. destruct H as (c & -> & Hc). apply N.eqb_eq in Hc.
      cbn [map]. rewrite Hc. reflexivity.
    + change (seq (map chr_i (a :: b :: l)))
        with (Seq (chr_i a) (seq (map chr_i (b :: l)))) in H.
      cbn [lang] in H. destruct H as (u & v & -> & Hu & Hv).
      cbn in Hu. destruct Hu as (c & -> & Hc). apply N.eqb_eq in Hc.
      apply IH in Hv. cbn [app map]. rewrite Hc, Hv. reflexivity.
Qed.

Lemma ci_prefix_canon l : forall w rest,
  length w = length l ->
  ci_prefix l (w ++ rest) = true <-> map canonicalize w = map canonicalize l.
Proof.
  induction l as [|a l IH]; intros [|c w] rest L; try discriminate.
  - split; reflexivity.
  - injection L as L. cbn [ci_prefix app map]. rewrite andb_true_iff, (IH w rest L).
    rewrite N.eqb_eq. split.
    + intros [-> ->]. reflexivity.
    + intros H. injection H as -> ->. auto.
Qed.

Ltac split_ifs :=
  repeat match goal with
  | |- context [if ?b then _ else _] => destruct b eqn:?
  | H : context [if ?b then _ else _] |- _ => destruct b eqn:?
  end.

Lemma is_word_letter c :
  in_range 65 90 c = true \/ in_range 97 122 c = true -> is_word c = true.
Proof.
  unfold is_word. intros [H|H]; rewrite H; rewrite ?orb_true_r; reflexivity.
Qed.

(** A character that folds to an ASCII capital is that capital or its
    small letter. *)
Lemma canonical_capital c a :
  canonicalize c = a -> in_range 65 90 a = true ->
  upper_code c = a /\ N.eqb c 223 = false /\ is_word c = true.
Proof.
  intros H R.
  assert (C : (c = a \/ c = a + 32)%N /\ upper_code c = a).
  { revert H R. unfold canonicalize, upper_code, in_range.
    intros H R. split_ifs; char_props; subst; split; lia. }
  destruct C as [C U]. split; [exact U|]. unfold in_range in R. char_props.
  split.
  - apply N.eqb_neq. lia.
  - apply is_word_letter. unfold in_range.
    destruct C as [->| ->]; [left|right]; apply andb_true_iff;
      split; apply N.leb_le; lia.
Qed.

Lemma toUpperCase_capitals w :
  Forall (fun a => in_range 65 90 a = true) (map canonicalize w) ->
  toUpperCase w = map canonicalize w.
Proof.
  induction w as [|c w IH]; intros H; [reflexivity|].
  cbn [map] in H. inversion H as [|? ? Hc Hw]; subst.
  destruct (canonical_capital c _ eq_refl Hc) as (U & N & _).
  unfold toUpperCase in *. cbn [flat_map map]. rewrite N, U, (IH Hw).
  reflexivity.
Qed.

Lemma code_capitals w :
  is_code w ->
  length w = 3 /\ Forall (fun a => in_range 65 90 a = true) (map canonicalize w).
Proof.
  unfold is_code. intros H.
  assert (L : length (map canonicalize w) = 3).
  { cbn in H. repeat destruct H as [H|H]; try (rewrite <- H; reflexivity).
    destruct H. }
  rewrite length_map in L. split; [exact L|].
  cbn in H. repeat destruct H as [H|H]; try (rewrite <- H; repeat constructor).
  destruct H.
Qed.

Lemma toUpperCase_code w :
  is_code w -> In (toUpperCase w) (map codes currencyCodes).
Proof.
  intros H. rewrite (toUpperCase_capitals w (proj2 (code_capitals w H))).
  exact H.
Qed.

End Currency.

Section CurrencyMatch.

Lemma lang_codes w : lang (alt (map word_i currencyCodes)) w -> is_code w.
Proof.
  unfold is_code. cbn [alt map currencyCodes lang]. unfold word_i.
  intros H.
  repeat (destruct H as [H|H]; [apply lang_chars_i in H; rewrite H; cbn; auto 10|]).
  apply lang_chars_i in H. rewrite H. cbn. auto 10.
Qed.

(** The currency pattern at a position of the text: what a success means. *)
Lemma currency_sound pre aft y :
  rmatch re_currency (start (rev pre) aft) Some = Some y ->
  exists w post,
    aft = w ++ post /\ is_code w
    /\ word_edge pre (w ++ post) = true
    /\ word_edge (pre ++ w) post = true
    /\ assoc 1 (caps y) = Some w.
Proof.
  unfold re_currency. cbn [seq rmatch]. intros H.
  destruct (xorb (word_before (start (rev pre) aft))
                 (word_after (start (rev pre) aft))) eqn:E1; [|discriminate].
  apply rmatch_sound in H as (y1 & w & (A & B & P) & L & K).
  cbn [rmatch] in K.
  destruct (xorb (word_before (capture 1 (start (rev pre) aft) y1))
                 (word_after (capture 1 (start (rev pre) aft) y1))) eqn:E2;
    [|discriminate].
  injection K as <-. cbn [start after before pos] in A, B, P.
  exists w, (after y1). subst aft. repeat split.
  - apply lang_codes, L.
  - exact E1.
  - unfold word_edge. rewrite rev_app_distr, <- B. exact E2.
  - cbn [capture caps assoc Nat.eqb]. rewrite B, P, Nat.sub_0_r.
    rewrite firstn_app, length_rev, Nat.sub_diag, firstn_all2
      by (rewrite length_rev; lia).
    cbn [firstn]. rewrite app_nil_r, rev_involutive. reflexivity.
Qed.

(** And the converse: a code between two word boundaries is matched. *)
Lemma currency_complete pre w post :
  is_code w ->
  word_edge pre (w ++ post) = true ->
  word_edge (pre ++ w) post = true ->
  exists y, rmatch re_currency (start (rev pre) (w ++ post)) Some = Some y.
Proof.
  intros C E1 E2.
  destruct (code_capitals w C) as [L _].
  destruct w as [|c1 [|c2 [|c3 [|? ?]]]]; try discriminate.
  unfold re_currency. cbn [seq rmatch].
  change (xorb (word_before (start (rev pre) ([c1; c2; c3] ++ post)))
               (word_after (start (rev pre) ([c1; c2; c3] ++ post))))
    with (word_edge pre ([c1; c2; c3] ++ post)).
  rewrite E1. cbn [alt map currencyCodes rmatch]. unfold word_i.
  rewrite !rmatch_chars_i. cbn [start after].
  assert (K : (if xorb (word_before
                          (capture 1 (start (rev pre) ([c1; c2; c3] ++ post))
                             (advance_over 3 (start (rev pre) ([c1; c2; c3] ++ post)))))
                       (word_after
                          (capture 1 (start (rev pre) ([c1; c2; c3] ++ post))
                             (advance_over 3 (start (rev pre) ([c1; c2; c3] ++ post)))))
               then Some (capture 1 (start (rev pre) ([c1; c2; c3] ++ post))
                            (advance_over 3 (start (rev pre) ([c1; c2; c3] ++ post))))
               else None)
              = Some (capture 1 (start (rev pre) ([c1; c2; c3] ++ post))
                        (advance_over 3 (start (rev pre) ([c1; c2; c3] ++ post))))).
  { unfold word_edge in E2. rewrite rev_app_distr in E2. cbn in E2.
    unfold word_before, word_after. cbn. rewrite E2. reflexivity. }
  unfold is_code in C. cbn [map currencyCodes In] in C.
  repeat match goal with
  | |- context [ci_prefix ?l ([c1; c2; c3] ++ post)] =>
      let E := fresh "E" in
      destruct (ci_prefix l ([c1; c2; c3] ++ post)) eqn:E;
      [ cbn [length codes]; rewrite K; eauto
      | ]
  end.
  exfalso.
  repeat match goal with
  | H : ci_prefix ?l _ = false |- _ =>
      assert (map canonicalize [c1; c2; c3] <> map canonicalize l)
        by (intros X; apply (ci_prefix_canon l [c1; c2; c3] post eq_refl) in X;
            congruence);
      clear H
  end.
  repeat destruct C as [C|C]; try (symmetry in C; contradiction).
  destruct C.
Qed.

End CurrencyMatch.

Section CurrencyField.

Lemma app_prefix_split (A : Type) (l2 : list A) : forall l1 r1 r2,
  l1 ++ r1 = l2 ++ r2 -> length l2 < length l1 ->
  exists p, l1 = l2 ++ p /\ p <> [] /\ r2 = p ++ r1.
Proof.
  induction l2 as [|a l2 IH]; intros l1 r1 r2 H L.
  - exists l1. cbn [app] in *. repeat split; auto.
    destruct l1; [simpl in L; lia|discriminate].
  - destruct l1 as [|b l1]; [simpl in L; lia|].
    cbn [app] in H. injection H as -> H. simpl in L.
    destruct (IH l1 r1 r2 H) as (p & -> & Hp & ->); [lia|].
    exists p. auto.
Qed.

Lemma currency_found text m :
  smatch re_currency text = Some m ->
  exists w,
    code_at text (index m) w
    /\ find_currency text = toUpperCase w
    /\ forall j w', j < index m -> ~ code_at text j w'.
Proof.
  intros H. unfold find_currency. rewrite H. unfold smatch in H.
  apply search_first in H as (pre & rest & y & A & I & R & M & F).
  rewrite app_nil_r in R. cbn [Nat.add] in I, M.
  apply currency_sound in R as (w & post & -> & C & E1 & E2 & G).
  exists w. repeat split.
  - exists pre, post. rewrite I. auto.
  - subst m. unfold group, result_of. cbn [captures]. rewrite G. reflexivity.
  - intros j w' Hj (pre' & post' & A' & L' & C' & E1' & E2').
    rewrite I in Hj. rewrite A in A'.
    destruct (app_prefix_split _ pre' pre (w ++ post) (w' ++ post') A')
      as (p & Hp & Hn & Hr); [lia|].
    specialize (F pre' p Hp Hn). rewrite app_nil_r, <- Hr in F.
    destruct (currency_complete pre' w' post' C' E1' E2') as [y' Hy].
    congruence.
Qed.

Lemma currency_not_found text :
  smatch re_currency text = None ->
  find_currency text = codes "NOK" /\ forall i w, ~ code_at text i w.
Proof.
  intros H. unfold find_currency. rewrite H. split; [reflexivity|].
  intros i w (pre & post & A & L & C & E1 & E2).
  pose proof (search_none re_currency text [] 0 H pre (w ++ post) A) as N.
  rewrite app_nil_r in N.
  destruct (currency_complete pre w post C E1 E2) as [y Hy]. congruence.
Qed.

Lemma code_at_unique text i w w' :
  code_at text i w -> code_at text i w' -> w = w'.
Proof.
  intros (pre & post & A & L & C & _) (pre' & post' & A' & L' & C' & _).
  rewrite A in A'.
  apply app_same_length in A' as [_ A']; [|congruence].
  apply app_same_length in A' as [A' _]; [exact A'|].
  rewrite (proj1 (code_capitals w C)), (proj1 (code_capitals w' C')).
  reflexivity.
Qed.

End CurrencyField.

(** C8.  The currency of the record is always present and is one of the
    six codes.  It is the upper-cased first occurrence of a code as a whole
    word, whatever the case of its letters, and NOK when the text has no
    such occurrence. *)
Theorem C8_currency_code :
  forall text f,
    extractStructuredFields text = Some f ->
    (exists c, currency f = Some c /\ In c (map codes currencyCodes))
    /\ (forall i w,
          code_at text i w ->
          (forall j w', j < i -> ~ code_at text j w') ->
          currency f = Some (toUpperCase w))
    /\ ((forall i w, ~ code_at text i w) -> currency f = Some (codes "NOK")).
Proof.
  intros text f E.
  destruct (extract_total text) as (tot & _ & E'). rewrite E' in E.
  injection E as <-. cbn [currency].
  destruct (smatch re_currency text) as [m|] eqn:Hm.
  - destruct (currency_found text m Hm) as (w0 & C0 & -> & F0).
    repeat split.
    + exists (toUpperCase w0). split; [reflexivity|].
      destruct C0 as (pre & post & _ & _ & C & _). apply toUpperCase_code, C.
    + intros i w C F. f_equal. f_equal.
      destruct (Nat.lt_trichotomy (index m) i) as [L|[L|L]].
      * elim (F (index m) w0 L C0).
      * subst i. exact (code_at_unique text (index m) w0 w C0 C).
      * elim (F0 i w L C).
    + intros N. elim (N (index m) w0 C0).
  - destruct (currency_not_found text Hm) as [-> N].
    repeat split.
    + exists (codes "NOK"). split; [reflexivity|]. cbn. auto 10.
    + intros i w C _. elim (N i w C).
Qed.

Lemma C8_currency_code_witness :
  exists f,
    extractStructuredFields (codes "eur 125.50") = Some f
    /\ currency f = Some (codes "EUR").
Proof.
  destruct (extract_total (codes "eur 125.50")) as (tot & _ & E).
  eexists. split; [exact E|].
  refine (proj1 (proj2 (C8_currency_code (codes "eur 125.50") _ E))
            0 (codes "eur") _ _).
  - exists [], (codes " 125.50"). repeat split. cbn. auto 10.
  - intros j w' Hj. inversion Hj.
Defined.

(** ** The merchant *)

Section WhiteSpaceRuns.

Lemma clear_nil x : clear [] x = x.
Proof.
  destruct x as [b a p c]. unfold clear. cbn [before after pos caps existsb negb].
  f_equal. induction c as [|e c IH]; [reflexivity|]. cbn [filter]. rewrite IH.
  reflexivity.
Qed.

Lemma eat_spaces_after : forall aft x,
  after x = aft -> after (eat is_space aft x) = trimStart aft.
Proof.
  induction aft as [|c rest IH]; intros x H; cbn [eat trimStart]; [exact H|].
  destruct (is_space c); [|exact H]. apply IH. reflexivity.
Qed.

Lemma eat_pos p : forall aft x, pos x <= pos (eat p aft x).
Proof.
  induction aft as [|c rest IH]; intros x; cbn [eat]; [lia|].
  destruct (p c); [|lia].
  etransitivity; [|apply IH]. cbn [advance pos]. lia.
Qed.

Lemma rmatch_class p x k :
  rmatch (Chr p) x k =
  match after x with
  | c :: rest => if p c then k (advance c rest x) else None
  | [] => None
  end.
Proof. reflexivity. Qed.

(** A greedy star over a character class stops behind the longest run. *)
Lemma repeat_class_run p : forall fuel x,
  length (after x) < fuel ->
  repeat (rmatch (Chr p)) [] fuel 0 None x Some = Some (eat p (after x) x).
Proof.
  induction fuel as [|fuel IH]; intros x H; [lia|].
  cbn [repeat Nat.eqb andb]. rewrite clear_nil, rmatch_class.
  destruct (after x) as [|c rest] eqn:E; [reflexivity|].
  cbn [eat]. destruct (p c); [|reflexivity].
  cbn [advance pos]. replace (Nat.eqb (S (pos x)) (pos x)) with false
    by (symmetry; apply Nat.eqb_neq; lia).
  rewrite IH by (cbn [advance after]; simpl in H; lia). reflexivity.
Qed.

(** [/\s+/] at a position. *)
Lemma spaces_at bef aft :
  rmatch re_spaces (start bef aft) Some =
  match aft with
  | c :: rest =>
      if is_space c
      then Some (eat is_space rest (advance c rest (start bef aft)))
      else None
  | [] => None
  end.
Proof.
  unfold re_spaces, plus, space.
  change (rmatch (Rep 1 None (Chr is_space)) (start bef aft) Some)
    with (repeat (rmatch (Chr is_space)) []
            (S (1 + length (after (start bef aft)))) 1 None (start bef aft) Some).
  cbn [repeat Nat.eqb andb]. rewrite clear_nil, rmatch_class. cbn [start after].
  destruct aft as [|c rest]; [reflexivity|].
  destruct (is_space c); [|reflexivity].
  cbn [Nat.pred option_map].
  rewrite repeat_class_run by (cbn [advance after length]; lia).
  reflexivity.
Qed.

Lemma trimStart_head s :
  match trimStart s with c :: _ => is_space c = false | [] => True end.
Proof.
  induction s as [|c s IH]; cbn [trimStart]; [exact I|].
  destruct (is_space c) eqn:E; [exact IH|exact E].
Qed.

Lemma count_solid_trimStart s : count_solid (trimStart s) = count_solid s.
Proof.
  unfold count_solid. induction s as [|c s IH]; cbn [trimStart filter]; [reflexivity|].
  destruct (is_space c) eqn:E; cbn [negb]; [exact IH|].
  cbn [filter]. rewrite E. reflexivity.
Qed.

Lemma replace_spaces_bound : forall fuel bef aft,
  length aft < fuel ->
  length (replace_loop fuel re_spaces [32%N] bef aft)
  <= 2 * count_solid aft
     + match aft with c :: _ => if is_space c then 1 else 0 | [] => 0 end.
Proof.
  induction fuel as [|fuel IH]; intros bef aft H; [lia|].
  cbn [replace_loop]. rewrite spaces_at.
  destruct aft as [|c rest]; [simpl; lia|].
  simpl in H. unfold count_solid. cbn [filter].
  destruct (is_space c) eqn:E; cbn [negb].
  - pose proof (eat_pos is_space rest (advance c rest (start bef (c :: rest)))) as P.
    cbn [advance pos start] in P.
    replace (Nat.eqb (pos (eat is_space rest (advance c rest (start bef (c :: rest))))) 0)
      with false by (symmetry; apply Nat.eqb_neq; lia).
    rewrite eat_spaces_after by reflexivity.
    cbn [app length].
    pose proof (IH (before (eat is_space rest (advance c rest (start bef (c :: rest)))))
                  (trimStart rest)) as B.
    pose proof (trimStart_length rest) as L.
    pose proof (trimStart_head rest) as Hd.
    rewrite count_solid_trimStart in B. unfold count_solid in B.
    assert (B' := B ltac:(lia)). clear B.
    destruct (trimStart rest) as [|d r]; [simpl in B'; lia|].
    rewrite Hd in B'. lia.
  - cbn [length].
    pose proof (IH (c :: bef) rest ltac:(lia)) as B. unfold count_solid in B.
    destruct rest as [|d r]; [simpl in B; simpl; lia|].
    destruct (is_space d); lia.
Qed.

Lemma replace_spaces_length w :
  length (replace_all re_spaces [32%N] w) <= 2 * count_solid w + 1.
Proof.
  unfold replace_all.
  pose proof (replace_spaces_bound (S (length w)) [] w ltac:(lia)) as B.
  destruct w as [|c r]; [lia|].
  destruct (is_space c); lia.
Qed.

End WhiteSpaceRuns.

Section MerchantBound.

Ltac split_conds :=
  repeat match goal with
  | H : context [if ?b then _ else _] |- _ => destruct b eqn:?
  end.

(** Case folding turns no other character into white space. *)
Lemma canonicalize_space c : is_space (canonicalize c) = true -> is_space c = true.
Proof.
  intros H. unfold canonicalize, upper_code in H.
  split_conds; try exact H; exfalso; unfold in_range in *;
    unfold is_space, in_range in H; char_props; subst; lia.
Qed.

Lemma count_solid_app u v : count_solid (u ++ v) = count_solid u + count_solid v.
Proof. unfold count_solid. rewrite filter_app, length_app. reflexivity. Qed.

Lemma count_solid_spaces w :
  Forall (fun c => is_space c = true) w -> count_solid w = 0.
Proof.
  unfold count_solid. induction 1 as [|c w Hc _ IH]; [reflexivity|].
  cbn [filter]. rewrite Hc. exact IH.
Qed.

Lemma count_solid_concat ws n :
  Forall (fun w => count_solid w <= n) ws ->
  count_solid (concat ws) <= length ws * n.
Proof.
  induction 1 as [|w ws Hw _ IH]; [reflexivity|].
  cbn [concat length]. rewrite count_solid_app. simpl. lia.
Qed.

Lemma lang_solid_bound r :
  loose_is_space r -> forall w, lang r w -> count_solid w <= solid_bound r.
Proof.
  induction r as [|p|r1 IH1 r2 IH2|r1 IH1 r2 IH2|min max r IH|n r IH| | |];
    cbn [loose_is_space lang solid_bound]; intros HL w H;
    try (subst w; reflexivity).
  - destruct H as (c & -> & _). unfold count_solid. cbn [filter].
    destruct (negb (is_space c)); simpl; lia.
  - destruct HL as [L1 L2]. destruct H as (u & v & -> & Hu & Hv).
    rewrite count_solid_app. specialize (IH1 L1 u Hu). specialize (IH2 L2 v Hv).
    lia.
  - destruct HL as [L1 L2]. destruct H as [H|H];
      [specialize (IH1 L1 w H)|specialize (IH2 L2 w H)]; lia.
  - destruct H as (ws & -> & Hws & _ & Hi). destruct max as [h|].
    + cbn [rep_high] in Hi.
      assert (B : count_solid (concat ws) <= length ws * solid_bound r).
      { apply count_solid_concat. eapply Forall_impl; [|exact Hws].
        intros u Hu. exact (IH HL u Hu). }
      nia.
    + rewrite count_solid_spaces; [lia|].
      apply Forall_concat. eapply Forall_impl; [|exact Hws]. exact HL.
  - exact (IH HL w H).
Qed.

Lemma store_patterns_solid :
  Forall (fun p => loose_is_space p /\ solid_bound p <= 14) storePatterns.
Proof.
  repeat constructor; cbn; try lia; repeat split;
    intros w (c & -> & H); repeat constructor; apply canonicalize_space, H.
Qed.

Lemma store_name_length pattern text m :
  loose_is_space pattern -> solid_bound pattern <= 14 ->
  smatch pattern text = Some m ->
  length (trim (replace_all re_spaces [32%N] (matched m))) <= 60.
Proof.
  intros HL HB Hm. unfold smatch in Hm.
  apply search_sound in Hm as (pre & w & _ & L & -> & _).
  pose proof (lang_solid_bound pattern HL w L) as B.
  pose proof (replace_spaces_length w) as R.
  pose proof (trim_length (replace_all re_spaces [32%N] w)) as T.
  lia.
Qed.

Lemma antonsport_length text m :
  smatch re_antonsport text = Some m -> length (matched m) <= 60.
Proof.
  intros Hm. unfold smatch in Hm.
  apply search_sound in Hm as (pre & w & _ & L & -> & _).
  apply lang_chars_i in L. apply (f_equal (@length char)) in L.
  rewrite !length_map in L. rewrite L. cbn. lia.
Qed.

(** Route one: the known store patterns. *)
Lemma find_store_length text : forall patterns m,
  Forall (fun p => loose_is_space p /\ solid_bound p <= 14) patterns ->
  find_store patterns text = Some m -> length m <= 60.
Proof.
  induction patterns as [|pattern rest IH]; intros m HP H; [discriminate|].
  inversion HP as [|? ? [HL HB] HR]; subst. cbn [find_store] in H.
  destruct (smatch pattern text) as [r|] eqn:E; [|exact (IH m HR H)].
  pose proof (store_name_length pattern text r HL HB E) as B.
  injection H as <-.
  destruct (test re_sportsholding _); [|exact B].
  destruct (smatch re_antonsport text) as [a|] eqn:Ea; [|exact B].
  exact (antonsport_length text a Ea).
Qed.

Lemma slice0_length n s : length (slice0 n s) <= n.
Proof. apply firstn_le_length. Qed.

(** Route two: the lines above the organisation number. *)
Lemma org_loop_length lines : forall todo init m,
  (forall m0, init = Some m0 -> length m0 <= 60) ->
  org_loop lines todo init = Some m -> length m <= 60.
Proof.
  induction todo as [|i todo IH]; intros init m Hi H; cbn [org_loop] in H.
  - exact (Hi m H).
  - destruct (nth_error lines i) as [line|]; [|exact (IH init m Hi H)].
    destruct (_ && _)%bool; [|exact (IH init m Hi H)].
    replace m with (trim (slice0 60 line)) by congruence.
    etransitivity; [apply trim_length|]. apply slice0_length.
Qed.

(** Route three: the first line. *)
Lemma first_line_length lines m :
  option_map (slice0 60) (nth_error lines 0) = Some m -> length m <= 60.
Proof.
  destruct (nth_error lines 0) as [l|]; [|discriminate].
  intros H. replace m with (slice0 60 l) by (cbn [option_map] in H; congruence).
  apply slice0_length.
Qed.

Lemma find_merchant_length text m :
  find_merchant text = Some m -> length m <= 60.
Proof.
  unfold find_merchant. intros H.
  destruct (find_store storePatterns text) as [s|] eqn:E.
  - injection H as <-.
    exact (find_store_length text storePatterns s store_patterns_solid E).
  - destruct (findIndex (test re_org) (lines_of text) 0) as [orgIdx|].
    + exact (org_loop_length (lines_of text) _ _ m
               (first_line_length (lines_of text)) H).
    + exact (first_line_length (lines_of text) m H).
Qed.

End MerchantBound.

(** C9.  A merchant that is present has at most 60 characters, along each
    of the three routes: a known store pattern, the lines above the
    organisation number, and the first line. *)
Theorem C9_merchant_at_most_60 :
  (forall text f m,
     extractStructuredFields text = Some f -> merchant f = Some m ->
     length m <= 60)
  /\ (forall text m, find_store storePatterns text = Some m -> length m <= 60)
  /\ (forall lines todo m,
        org_loop lines todo (option_map (slice0 60) (nth_error lines 0)) = Some m ->
        length m <= 60)
  /\ (forall lines m,
        option_map (slice0 60) (nth_error lines 0) = Some m -> length m <= 60).
Proof.
  repeat split.
  - intros text f m E H.
    destruct (extract_total text) as (tot & _ & E'). rewrite E' in E.
    injection E as <-. exact (find_merchant_length text m H).
  - intros text m H.
    exact (find_store_length text storePatterns m store_patterns_solid H).
  - intros lines todo m H.
    exact (org_loop_length lines todo _ m (first_line_length lines) H).
  - exact first_line_length.
Qed.

Lemma C9_merchant_at_most_60_witness :
  length (codes "ICA Supermarket") <= 60.
Proof.
  refine (proj1 (proj2 C9_merchant_at_most_60)
            (codes "Velkommen til ICA      Supermarket") (codes "ICA Supermarket") _).
  vm_compute. reflexivity.
Defined.

(** ** The scenarios of the test suite

    The receipts of [currencyParser.test.ts], run through the embedding;
    the expected records are those of the tests. *)

Section Scenarios.

Example number_1234_56 :
  decimal false 123456 (-2) = S754_finite false 5429652300748554 (-42).
Proof. vm_compute. reflexivity. Qed.

Example number_one_million :
  million = S754_finite false 8589934592000000 (-33).
Proof. vm_compute. reflexivity. Qed.

Example token_with_spaces :
  parseNorwegianCurrency (codes "1 234,56") = Some (decimal false 123456 (-2))
  /\ parseNorwegianCurrency (codes " 123,45 ") = Some (decimal false 12345 (-2))
  /\ parseNorwegianCurrency (codes "1234") = Some (of_N 1234)
  /\ parseNorwegianCurrency (codes "") = None
  /\ parseNorwegianCurrency (codes "abc") = None.
Proof. repeat split; vm_compute; reflexivity. Qed.

Example receipt_clean :
  extractStructuredFields
    (text_of [codes "COOP PRIX"; codes "Storgata 123"; codes "Oslo"; [];
              codes "Melk                    12,90";
              codes "Sum                    128,15";
              codes "MVA 25%                 25,63";
              codes "Totalt " ++ [229%N] ++ codes " betale        128,15"])
  = Some (Fields (Some (codes "COOP PRIX")) (Some (decimal false 2563 (-2)))
            (Some (decimal false 12815 (-2))) (Some (codes "NOK"))).
Proof. vm_compute. reflexivity. Qed.

Example receipt_thousands :
  extractStructuredFields
    (text_of [codes "REMA 1000"; codes "Diverse varer         1.245,80";
              codes "MVA                     249,16";
              codes "Sum " ++ [229%N] ++ codes " betale          1.245,80"])
  = Some (Fields (Some (codes "REMA 1000")) (Some (decimal false 24916 (-2)))
            (Some (decimal false 124580 (-2))) (Some (codes "NOK"))).
Proof. vm_compute. reflexivity. Qed.

Example receipt_foreign_currency :
  extractStructuredFields
    (text_of [codes "Duty Free Shop"; codes "Item 1  50.00 EUR";
              codes "Total  125.50 EUR"])
  = Some (Fields (Some (codes "Duty Free Shop")) None
            (Some (decimal false 12550 (-2))) (Some (codes "EUR"))).
Proof. vm_compute. reflexivity. Qed.

Example receipt_org_number :
  extractStructuredFields
    (text_of [codes "Bakeri AS"; codes "Gateveien 45"; codes "0123 Oslo";
              codes "Org.nr: 123456789"; codes "Sum  55,00"])
  = Some (Fields (Some (codes "Bakeri AS")) None
            (Some (decimal false 5500 (-2))) (Some (codes "NOK"))).
Proof. vm_compute. reflexivity. Qed.

Example receipt_noisy :
  extractStructuredFields
    (text_of [codes "RNR LEC AL BR GR ET ANTONSPORT RE eee";
              codes "Totalt (1 Artikkel) 1999.0 EE";
              codes "Bank: 1 999.00 [NSENSHEREER";
              codes "Bus.Reg.No: 981006747 2025-08-27 13:33 REE";
              codes "ass nl bgp ek, 1599.20 25% 399.80 1999.00 EROS RS"])
  = Some (Fields (Some (codes "ANTONSPORT")) (Some (decimal false 39980 (-2)))
            (Some (decimal false 199900 (-2))) (Some (codes "NOK"))).
Proof. vm_compute. reflexivity. Qed.

End Scenarios.

(** * Further properties

    Properties of the same code beyond the rules above: the edges of the
    normaliser, what the extractor does on texts without amounts or
    without content, and the receipt code of [src/App.tsx]. *)

Import Terms.

(** ** The digits of a token *)

Section DigitsKept.

Lemma not_digit_comma : is_digit comma = false.
Proof. reflexivity. Qed.

Lemma not_digit_dot : is_digit dot = false.
Proof. reflexivity. Qed.

Lemma behind_absent c s : includes s c = false -> behind c s = [].
Proof.
  unfold includes. induction s as [|x s IH]; intros H; [reflexivity|].
  cbn [existsb] in H. apply orb_false_elim in H as [H1 H2].
  cbn [behind]. rewrite N.eqb_sym, H1. apply IH, H2.
Qed.

Lemma digits_trimStart s : digits (trimStart s) = digits s.
Proof.
  induction s as [|c s IH]; cbn [trimStart]; [reflexivity|].
  destruct (is_space c) eqn:E; [|reflexivity].
  rewrite IH. symmetry. apply digits_sep.
  destruct (is_digit c) eqn:D; [|reflexivity].
  exfalso. char_props; lia.
Qed.

Lemma digits_rev s : digits (rev s) = rev (digits s).
Proof.
  induction s as [|c s IH]; [reflexivity|].
  cbn [rev]. rewrite digits_app, IH. unfold digits at 2 3. cbn [filter].
  destruct (is_digit c); cbn [rev]; [reflexivity|]. apply app_nil_r.
Qed.

Lemma digits_trim s : digits (trim s) = digits s.
Proof.
  unfold trim, trimEnd.
  rewrite digits_rev, digits_trimStart, digits_rev, rev_involutive.
  apply digits_trimStart.
Qed.

Lemma digits_without c s : is_digit c = false -> digits (without c s) = digits s.
Proof.
  intros Hc. unfold digits, without. rewrite filter_filter.
  apply filter_ext. intros x.
  destruct (N.eqb_spec c x) as [<-|_]; [rewrite Hc|]; reflexivity.
Qed.

Lemma digits_replace1 c d s :
  is_digit c = false -> is_digit d = false -> digits (replace1 c d s) = digits s.
Proof.
  intros Hc Hd. induction s as [|x s IH]; cbn [replace1]; [reflexivity|].
  destruct (N.eqb_spec x c) as [->|_].
  - rewrite (digits_sep d s Hd), (digits_sep c s Hc). reflexivity.
  - unfold digits in *. cbn [filter]. rewrite IH. reflexivity.
Qed.

Lemma digits_stripped s : digits (filter is_digit_or_dot s) = digits s.
Proof.
  unfold digits. rewrite filter_filter. apply filter_ext. intros c.
  unfold is_digit_or_dot. destruct (is_digit c); [reflexivity|].
  apply andb_false_r.
Qed.

(** A text cut at the first occurrence of a character. *)
Lemma cut_at c s :
  s = upto c s ++ (if includes s c then c :: behind c s else []).
Proof.
  unfold includes. induction s as [|x s IH]; cbn [upto behind existsb]; [reflexivity|].
  rewrite (N.eqb_sym c x).
  destruct (N.eqb_spec x c) as [->|_]; cbn [orb app]; [reflexivity|].
  f_equal. exact IH.
Qed.

Lemma stripped_upto s :
  Forall (fun c => is_digit_or_dot c = true) s ->
  Forall (fun c => is_digit c = true) (upto dot s).
Proof.
  induction 1 as [|x s Hx _ IH]; cbn [upto]; [constructor|].
  destruct (N.eqb_spec x dot) as [->|Hd]; constructor; [|exact IH].
  unfold is_digit_or_dot in Hx. apply orb_prop in Hx as [Hx|Hx]; [exact Hx|].
  apply N.eqb_eq in Hx. contradiction.
Qed.

Lemma stripped_behind s :
  Forall (fun c => is_digit_or_dot c = true) s ->
  Forall (fun c => is_digit_or_dot c = true) (behind dot s).
Proof.
  induction 1 as [|x s Hx Hs IH]; cbn [behind]; [constructor|].
  destruct (N.eqb x dot); assumption.
Qed.

(** [parseFloat] on a text of digits and dots: the digits up to the
    second dot are read, with the first dot as the decimal point. *)
Lemma parseFloat_point t :
  Forall (fun c => is_digit_or_dot c = true) t ->
  defined (parseFloat t) = reading (upto dot t) (upto dot (behind dot t)).
Proof.
  intros H.
  pose proof (stripped_upto t H) as H1.
  pose proof (stripped_upto _ (stripped_behind t H)) as H2.
  rewrite (cut_at dot t) at 1.
  destruct (includes t dot) eqn:E.
  - rewrite (cut_at dot (behind dot t)) at 1.
    rewrite <- (digits_id _ H1) at 1. rewrite <- (digits_id _ H2) at 1.
    apply reading_parse.
    destruct (includes (behind dot t) dot); [apply N.eqb_refl|exact I].
  - rewrite app_nil_r, (behind_absent dot t E).
    rewrite <- (digits_id _ H1) at 1. apply integer_reading.
Qed.

(** What [parseNorwegianCurrency] hands to [parseFloat]: a text of digits
    and dots with the digits of the token, in their order. *)
Lemma parse_stripped s :
  exists t,
    Forall (fun c => is_digit_or_dot c = true) t
    /\ digits t = digits s
    /\ parseNorwegianCurrency s =
       if is_empty s then None
       else reading (upto dot t) (upto dot (behind dot t)).
Proof.
  unfold parseNorwegianCurrency.
  match goal with
  | |- context [replace_all re_not_digit_or_dot [] ?n] => set (norm := n)
  end.
  exists (filter is_digit_or_dot norm).
  assert (HF : Forall (fun c => is_digit_or_dot c = true) (filter is_digit_or_dot norm)).
  { apply Forall_forall. intros c Hc. apply filter_In in Hc. apply Hc. }
  split; [exact HF|]. split.
  - rewrite digits_stripped, <- (digits_trim s). subst norm.
    unfold re_dots, re_commas. rewrite !remove_char.
    repeat match goal with
    | |- context [if ?b then _ else _] => destruct b
    end;
    rewrite ?(digits_replace1 comma dot _ not_digit_comma not_digit_dot),
            ?(digits_without dot _ not_digit_dot),
            ?(digits_without comma _ not_digit_comma); reflexivity.
  - destruct (is_empty s); [reflexivity|].
    cbv zeta. rewrite strip_filter. apply (parseFloat_point _ HF).
Qed.

Lemma reading_digits ip fp v :
  reading ip fp = Some v ->
  digits ip ++ digits fp <> []
  /\ v = decimal false (digits_value (digits ip ++ digits fp))
           (- Z.of_nat (length (digits fp))).
Proof.
  unfold reading. destruct (digits ip ++ digits fp) eqn:E; [discriminate|].
  intros H. injection H as <-. split; [discriminate|reflexivity].
Qed.

Lemma parse_digits_prefix s v :
  parseNorwegianCurrency s = Some v ->
  exists p r k,
    digits s = p ++ r /\ p <> [] /\ k <= length p
    /\ v = decimal false (digits_value p) (- Z.of_nat k).
Proof.
  intros H. destruct (parse_stripped s) as (t & HF & Hd & E).
  rewrite E in H. destruct (is_empty s); [discriminate|].
  apply reading_digits in H as [Hne Hv].
  exists (digits (upto dot t) ++ digits (upto dot (behind dot t))).
  exists (digits (behind dot (behind dot t))).
  exists (length (digits (upto dot (behind dot t)))).
  split; [|split; [exact Hne|split; [rewrite length_app; lia|exact Hv]]].
  rewrite <- Hd. rewrite (cut_at dot t) at 1.
  destruct (includes t dot) eqn:E1.
  - rewrite digits_app, (digits_sep dot _ not_digit_dot).
    rewrite (cut_at dot (behind dot t)) at 1.
    destruct (includes (behind dot t) dot) eqn:E2.
    + rewrite digits_app, (digits_sep dot _ not_digit_dot), app_assoc. reflexivity.
    + rewrite (behind_absent dot _ E2), !app_nil_r. reflexivity.
  - rewrite (behind_absent dot t E1). cbn [upto behind digits filter].
    rewrite !app_nil_r. reflexivity.
Qed.

End DigitsKept.

(** ** Tokens at the edges *)

Section TokenEdges.

Lemma includes_trimStart s c : includes s c = false -> includes (trimStart s) c = false.
Proof.
  unfold includes. induction s as [|x s IH]; intros H; [reflexivity|].
  cbn [trimStart]. destruct (is_space x); [|exact H].
  cbn [existsb] in H. apply orb_false_elim in H as [_ H]. apply IH, H.
Qed.

Lemma includes_rev s c : includes (rev s) c = includes s c.
Proof.
  unfold includes. induction s as [|x s IH]; [reflexivity|].
  change (rev (x :: s)) with (rev s ++ [x]).
  rewrite existsb_app. cbn [existsb]. rewrite orb_false_r, orb_comm.
  f_equal. exact IH.
Qed.

Lemma includes_trim s c : includes s c = false -> includes (trim s) c = false.
Proof.
  intros H. unfold trim, trimEnd. rewrite includes_rev.
  apply includes_trimStart. rewrite includes_rev.
  apply includes_trimStart, H.
Qed.

Lemma trimStart_spaces ws s :
  Forall (fun c => is_space c = true) ws -> trimStart (ws ++ s) = trimStart s.
Proof.
  induction 1 as [|c ws Hc _ IH]; [reflexivity|].
  cbn [app trimStart]. rewrite Hc. exact IH.
Qed.

Lemma trimStart_app s y :
  trimStart s <> [] -> trimStart (s ++ y) = trimStart s ++ y.
Proof.
  induction s as [|c s IH]; cbn [app trimStart]; [intros H; elim H; reflexivity|].
  destruct (is_space c); [exact IH|reflexivity].
Qed.

Lemma trimStart_empty s : trimStart s = [] -> blank s.
Proof.
  induction s as [|c s IH]; cbn [trimStart]; [constructor|].
  destruct (is_space c) eqn:E; [|discriminate].
  intros H. constructor; [exact E|exact (IH H)].
Qed.

Lemma trimStart_blank s : blank s -> trimStart s = [].
Proof.
  induction 1 as [|c s Hc _ IH]; [reflexivity|].
  cbn [trimStart]. rewrite Hc. exact IH.
Qed.

Lemma trim_padded ws1 s ws2 :
  blank ws1 -> blank ws2 -> trim (ws1 ++ s ++ ws2) = trim s.
Proof.
  intros H1 H2. unfold trim. rewrite (trimStart_spaces ws1 _ H1).
  destruct (trimStart s) as [|c t] eqn:E.
  - rewrite trimStart_blank; [reflexivity|].
    apply Forall_app. split; [exact (trimStart_empty s E)|exact H2].
  - rewrite trimStart_app by (rewrite E; discriminate). rewrite E.
    unfold trimEnd. rewrite rev_app_distr.
    rewrite trimStart_spaces by (apply Forall_rev, H2). reflexivity.
Qed.

(** The result depends on the token through its trimmed form only. *)
Lemma parse_of_trim s s' :
  trim s = trim s' -> parseNorwegianCurrency s = parseNorwegianCurrency s'.
Proof.
  intros H. unfold parseNorwegianCurrency. rewrite H.
  destruct s as [|c s], s' as [|c' s']; cbn [is_empty]; try reflexivity.
  change (trim []) with (@nil char) in H. rewrite <- H. reflexivity.
Qed.

End TokenEdges.

(** X1.  A token without any digit has no value: the empty token, white
    space, letters, lone separators. *)
Theorem token_without_digit s :
  Forall (fun c => is_digit c = false) s -> parseNorwegianCurrency s = None.
Proof.
  intros H. destruct (parseNorwegianCurrency s) as [v|] eqn:E; [|reflexivity].
  apply parse_digits_prefix in E as (p & r & k & Hd & Hp & _).
  exfalso. apply Hp.
  assert (D : digits s = []).
  { clear -H. unfold digits. induction H as [|c s Hc _ IH]; [reflexivity|].
    cbn [filter]. rewrite Hc. exact IH. }
  rewrite D in Hd. destruct p; [reflexivity|discriminate].
Qed.

Lemma token_without_digit_witness :
  parseNorwegianCurrency (codes " kr ,-") = None.
Proof. apply token_without_digit. repeat constructor. Defined.

(** X2.  The value of a token is written with the leading digits of the
    token, in their order: normalising places the decimal point and, where
    dots repeat, ends the number, but it never brings in a digit, drops
    one in the middle or changes their order. *)
Theorem token_digits_kept s v :
  parseNorwegianCurrency s = Some v ->
  exists p r k,
    digits s = p ++ r /\ p <> [] /\ k <= length p
    /\ v = decimal false (digits_value p) (- Z.of_nat k).
Proof. apply parse_digits_prefix. Qed.

Lemma token_digits_kept_witness :
  exists p r k,
    digits (codes "kr 1.234,56") = p ++ r /\ p <> [] /\ k <= length p
    /\ decimal false 123456 (-2) = decimal false (digits_value p) (- Z.of_nat k).
Proof.
  apply (token_digits_kept (codes "kr 1.234,56")). vm_compute. reflexivity.
Defined.

(** X3.  A token with neither comma nor dot is read as the whole number
    written by its digits, whatever other characters it holds. *)
Theorem token_without_separator s :
  includes s comma = false -> includes s dot = false ->
  parseNorwegianCurrency s = reading s [].
Proof.
  intros Hc Hd. unfold parseNorwegianCurrency.
  destruct (is_empty s) eqn:E; [destruct s; [reflexivity|discriminate]|].
  rewrite (includes_trim s comma Hc), (includes_trim s dot Hd). cbn [andb].
  rewrite strip_filter, (strip_undotted _ (includes_trim s dot Hd)).
  fold (defined (parseFloat (digits (trim s)))).
  rewrite integer_reading. unfold reading. rewrite digits_trim. reflexivity.
Qed.

Lemma token_without_separator_witness :
  parseNorwegianCurrency (codes "NOK 1 250 kr") = reading (codes "NOK 1 250 kr") [].
Proof. apply token_without_separator; reflexivity. Defined.

(** X4.  White space around a token does not change its value. *)
Theorem token_padding_ignored ws1 s ws2 :
  blank ws1 -> blank ws2 ->
  parseNorwegianCurrency (ws1 ++ s ++ ws2) = parseNorwegianCurrency s.
Proof. intros H1 H2. apply parse_of_trim, trim_padded; assumption. Qed.

Lemma token_padding_ignored_witness :
  parseNorwegianCurrency (codes "  " ++ codes "123,45" ++ [9%N; 10%N])
  = parseNorwegianCurrency (codes "123,45").
Proof. apply token_padding_ignored; repeat constructor. Defined.

(** ** Tokens with one kind of separator, however often it occurs *)

(** X5.  A token with commas and no dot.  When exactly two digits follow
    the last comma, the first comma is the decimal point: the digits
    before it are the integer part and all digits behind it the fraction.
    Otherwise the token is read as the whole number written by its
    digits. *)
Theorem token_commas_only s :
  includes (trim s) comma = true ->
  includes (trim s) dot = false ->
  parseNorwegianCurrency s =
  if two_digits (after_last comma (trim s))
  then reading (upto comma (trim s)) (behind comma (trim s))
  else reading (trim s) [].
Proof.
  intros Hc Hd. unfold parseNorwegianCurrency, two_digits, after_last.
  rewrite (trim_nonempty s (includes_nonempty comma (trim s) Hc)).
  rewrite Hc, Hd. cbn [andb negb]. cbv zeta.
  rewrite two_digits_test, !strip_filter.
  destruct (Nat.eqb _ 2 && forallb is_digit _)%bool;
    match goal with
    | |- context [parseFloat ?x] => fold (defined (parseFloat x))
    end.
  - rewrite <- (filter_absent dot (trim s) Hd) at 1.
    rewrite (comma_to_dot (trim s) Hc), filter_app.
    change (filter is_digit_or_dot (dot :: ?x))
      with (dot :: filter is_digit_or_dot x).
    rewrite !digits_of_undotted.
    rewrite <- (app_nil_r (digits (behind comma (trim s)))).
    apply (reading_parse _ _ []). exact I.
  - unfold re_commas. rewrite remove_char, strip_uncomma.
    rewrite (strip_undotted _ Hd). apply integer_reading.
Qed.

Lemma token_commas_only_witness :
  parseNorwegianCurrency (codes "1,234,56") =
  reading (upto comma (codes "1,234,56")) (behind comma (codes "1,234,56")).
Proof. apply (token_commas_only (codes "1,234,56")); reflexivity. Defined.

(** X6.  A token with dots and no comma.  When exactly two digits follow
    the last dot, the first dot is the decimal point and the number ends
    before the second dot.  Otherwise the token is read as the whole
    number written by its digits. *)
Theorem token_dots_only s :
  includes (trim s) dot = true ->
  includes (trim s) comma = false ->
  parseNorwegianCurrency s =
  if two_digits (after_last dot (trim s))
  then reading (upto dot (trim s)) (upto dot (behind dot (trim s)))
  else reading (trim s) [].
Proof.
  intros Hd Hc. unfold parseNorwegianCurrency, two_digits, after_last.
  rewrite (trim_nonempty s (includes_nonempty dot (trim s) Hd)).
  rewrite Hc, Hd. cbn [andb negb]. cbv zeta.
  rewrite two_digits_test, !strip_filter.
  destruct (Nat.eqb _ 2 && forallb is_digit _)%bool;
    match goal with
    | |- context [parseFloat ?x] => fold (defined (parseFloat x))
    end.
  - rewrite (strip_at_dot (trim s)), Hd.
    rewrite (strip_at_dot (behind dot (trim s))).
    apply reading_parse.
    destruct (includes (behind dot (trim s)) dot); [apply N.eqb_refl|exact I].
  - unfold re_dots. rewrite remove_char, digits_of_undotted.
    apply integer_reading.
Qed.

Lemma token_dots_only_witness :
  parseNorwegianCurrency (codes "1.234.56") =
  reading (upto dot (codes "1.234.56"))
    (upto dot (behind dot (codes "1.234.56"))).
Proof. apply (token_dots_only (codes "1.234.56")); reflexivity. Defined.

(** ** Texts without amounts *)

Section Demands.

Lemma lang_demands q r :
  demands q r -> forall w, lang r w -> exists c, In c w /\ q c = true.
Proof.
  induction r as [|p|r1 IH1 r2 IH2|r1 IH1 r2 IH2|min max r IH|n r IH| | |];
    cbn [demands lang]; intros D w H; try contradiction.
  - destruct H as (c & -> & Hc). exists c. split; [left; reflexivity|auto].
  - destruct H as (u & v & -> & Hu & Hv). destruct D as [D|D].
    + destruct (IH1 D u Hu) as (c & Hin & Hq). exists c.
      split; [apply in_or_app; auto|exact Hq].
    + destruct (IH2 D v Hv) as (c & Hin & Hq). exists c.
      split; [apply in_or_app; auto|exact Hq].
  - destruct D as [D1 D2]. destruct H as [H|H]; eauto.
  - destruct D as [Dn D]. destruct H as (ws & -> & Hws & Hlo & _).
    destruct ws as [|u ws]; [simpl in Hlo; lia|].
    inversion Hws as [|? ? Hu _]; subst.
    destruct (IH D u Hu) as (c & Hin & Hq). exists c.
    split; [cbn [concat]; apply in_or_app; auto|exact Hq].
  - eauto.
Qed.

(** A text without a character of the class is matched nowhere. *)
Lemma search_demands q r text :
  demands q r ->
  Forall (fun c => q c = false) text ->
  forall bef idx, search r bef text idx = None.
Proof.
  intros D H bef idx.
  destruct (search r bef text idx) as [m|] eqn:E; [|reflexivity].
  apply search_sound in E as (pre & w & A & L & _).
  destruct (lang_demands q r D w L) as (c & Hin & Hq).
  rewrite Forall_forall in H. rewrite (H c) in Hq; [discriminate|].
  rewrite A. apply in_or_app. right. apply in_or_app. left. exact Hin.
Qed.

Lemma canonicalize_digit c : is_digit (canonicalize c) = true -> is_digit c = true.
Proof.
  intros H. unfold canonicalize, upper_code in H.
  repeat match goal with
  | H : context [if ?b then _ else _] |- _ => destruct b eqn:?
  end; try exact H; exfalso; unfold in_range in *;
    unfold is_digit, in_range in H; char_props; subst; lia.
Qed.

Ltac demand_digit :=
  lazymatch goal with
  | |- _ /\ _ => split; demand_digit
  | |- _ \/ _ => solve [left; demand_digit] || (right; demand_digit)
  | |- _ < _ => cbn; lia
  | |- forall c : _, _ -> is_digit c = true =>
      let c := fresh in
      let H := fresh in
      intros c H;
      lazymatch type of H with
      | is_digit (canonicalize _) = true => exact (canonicalize_digit _ H)
      | is_digit _ = true => exact H
      end
  end.

Lemma amounts_demand_digit :
  Forall (demands is_digit) (moneyRegex :: vatPatterns ++ totalPatterns).
Proof.
  repeat (apply Forall_cons || apply Forall_nil); cbn; demand_digit.
Qed.

End Demands.

Section NoAmounts.

Lemma keyword_total_unmatched fuel text : forall patterns total,
  Forall (fun p => smatch p text = None) patterns ->
  keyword_total (S fuel) patterns text total = Some total.
Proof.
  induction patterns as [|p ps IH]; intros total H; [reflexivity|].
  inversion H as [|? ? Hp Hps]; subst.
  cbn [keyword_total exec_all]. unfold smatch in Hp. rewrite Hp.
  cbn [fold_left]. apply IH, Hps.
Qed.

Lemma vat_loop_unmatched text : forall patterns v,
  Forall (fun p => smatch p text = None) patterns ->
  vat_loop (map (fun p => smatch p text) patterns) v = v.
Proof.
  induction patterns as [|p ps IH]; intros v H; [reflexivity|].
  inversion H as [|? ? Hp Hps]; subst.
  cbn [map vat_loop]. rewrite Hp. apply IH, Hps.
Qed.

Lemma unmatched_without_digit text :
  Forall (fun c => is_digit c = false) text ->
  Forall (fun p => smatch p text = None)
    (moneyRegex :: vatPatterns ++ totalPatterns).
Proof.
  intros H. eapply Forall_impl; [|exact amounts_demand_digit].
  intros p D. exact (search_demands is_digit p text D H [] 0).
Qed.

End NoAmounts.

(** X7.  A receipt text without any digit yields neither a total nor a VAT
    amount. *)
Theorem receipt_without_digit text :
  Forall (fun c => is_digit c = false) text ->
  exists f,
    extractStructuredFields text = Some f
    /\ total f = None /\ vatAmount f = None.
Proof.
  intros H. apply unmatched_without_digit in H.
  apply (Forall_app _ [moneyRegex]) in H as [Hm H].
  apply Forall_app in H as [Hv Ht].
  apply Forall_inv in Hm.
  unfold extractStructuredFields, extractStructuredFields_fuel, find_total.
  rewrite (keyword_total_unmatched (length text) text totalPatterns None Ht).
  cbn [truthy_opt negb exec_all]. unfold smatch in Hm. rewrite Hm.
  cbn [fold_left]. change (gt zero zero) with false. cbv iota.
  eexists. split; [reflexivity|]. cbn [total vatAmount]. split; [reflexivity|].
  unfold find_vat. apply vat_loop_unmatched, Hv.
Qed.

Lemma receipt_without_digit_witness :
  exists f,
    extractStructuredFields (codes "Takk for handelen") = Some f
    /\ total f = None /\ vatAmount f = None.
Proof. apply receipt_without_digit. repeat constructor. Defined.

(** ** Blank texts and the lines of a text *)

Section BlankText.

Lemma blank_or_solid s : blank s \/ solid_in s.
Proof.
  induction s as [|c s [IH|(d & Hin & Hd)]].
  - left. constructor.
  - destruct (is_space c) eqn:E.
    + left. constructor; assumption.
    + right. exists c. split; [left; reflexivity|exact E].
  - right. exists d. split; [right; exact Hin|exact Hd].
Qed.

Lemma blank_not_solid s : blank s -> ~ solid_in s.
Proof.
  intros H (c & Hin & Hc). unfold blank in H. rewrite Forall_forall in H.
  rewrite (H c Hin) in Hc. discriminate.
Qed.

Lemma trim_blank s : blank s -> trim s = [].
Proof.
  intros H. unfold trim. rewrite (trimStart_blank s H). reflexivity.
Qed.

Lemma trimStart_keeps c s :
  In c s -> is_space c = false -> In c (trimStart s).
Proof.
  intros Hin Hc. induction s as [|d s IH]; [destruct Hin|].
  cbn [trimStart]. destruct (is_space d) eqn:E; [|exact Hin].
  destruct Hin as [->|Hin]; [congruence|]. apply IH, Hin.
Qed.

Lemma trim_keeps c s : In c s -> is_space c = false -> In c (trim s).
Proof.
  intros Hin Hc. unfold trim, trimEnd. apply -> in_rev.
  apply trimStart_keeps; [|exact Hc]. apply -> in_rev.
  apply trimStart_keeps; assumption.
Qed.

Lemma trim_solid_in s : solid_in s -> solid_in (trim s).
Proof.
  intros (c & Hin & Hc). exists c. split; [apply trim_keeps; assumption|exact Hc].
Qed.

Lemma trimEnd_cons c r :
  is_space c = false -> trimEnd (c :: r) = c :: trimEnd r.
Proof.
  intros Hc. unfold trimEnd. change (rev (c :: r)) with (rev r ++ [c]).
  destruct (trimStart (rev r)) as [|d t] eqn:E.
  - rewrite (trimStart_spaces (rev r) [c] (trimStart_empty _ E)).
    cbn [trimStart]. rewrite Hc. reflexivity.
  - rewrite trimStart_app by (rewrite E; discriminate).
    rewrite E, rev_app_distr. reflexivity.
Qed.

(** A trimmed text does not start with white space. *)
Lemma trim_head s :
  match trim s with c :: _ => is_space c = false | [] => True end.
Proof.
  unfold trim. pose proof (trimStart_head s) as H.
  destruct (trimStart s) as [|c r]; [exact I|].
  rewrite (trimEnd_cons c r H). exact H.
Qed.

Lemma head_solid_in s :
  match s with c :: _ => is_space c = false | [] => False end -> solid_in s.
Proof.
  destruct s as [|c r]; [contradiction|].
  intros H. exists c. split; [left; reflexivity|exact H].
Qed.

End BlankText.

Section Lines.

Variable r : regex.
Variable P : char -> Prop.

(** Every piece of a split text is made of characters of the text. *)
Lemma split_loop_pieces : forall fuel bef aft piece,
  Forall P aft -> Forall P piece ->
  Forall (Forall P) (split_loop fuel r bef aft piece).
Proof.
  induction fuel as [|fuel IH]; intros bef aft piece Ha Hp; cbn [split_loop].
  - constructor; [|constructor]. apply Forall_app. split; [apply Forall_rev, Hp|exact Ha].
  - destruct aft as [|c aft']; [constructor; [apply Forall_rev, Hp|constructor]|].
    inversion Ha as [|? ? Hc Ha']; subst.
    assert (Hs : Forall (Forall P) (split_loop fuel r (c :: bef) aft' (c :: piece)))
      by (apply IH; [exact Ha'|constructor; assumption]).
    destruct (rmatch r (start bef (c :: aft')) Some) as [y|] eqn:E; [|exact Hs].
    destruct (_ && _)%bool; [exact Hs|].
    constructor; [apply Forall_rev, Hp|]. apply IH; [|constructor].
    apply rmatch_sound in E as (y' & w & (A & _) & _ & K). injection K as ->.
    cbn [start after] in A. rewrite A in Ha. apply Forall_app in Ha. apply Ha.
Qed.

Hypothesis separator : forall w, lang r w -> Forall P w.

(** A character that no separator holds ends up in one of the pieces. *)
Lemma split_loop_keeps c : ~ P c -> forall fuel bef aft piece,
  In c (rev piece ++ aft) ->
  Exists (In c) (split_loop fuel r bef aft piece).
Proof.
  intros Hc. induction fuel as [|fuel IH]; intros bef aft piece Hin;
    cbn [split_loop]; [left; exact Hin|].
  destruct aft as [|d aft']; [left; rewrite app_nil_r in Hin; exact Hin|].
  assert (Hs : Exists (In c) (split_loop fuel r (d :: bef) aft' (d :: piece))).
  { apply IH. cbn [rev]. rewrite <- app_assoc. exact Hin. }
  destruct (rmatch r (start bef (d :: aft')) Some) as [y|] eqn:E; [|exact Hs].
  destruct (_ && _)%bool; [exact Hs|].
  apply in_app_or in Hin as [Hin|Hin]; [left; exact Hin|].
  right. apply IH. cbn [rev app].
  apply rmatch_sound in E as (y' & w & (A & _) & L & K). injection K as ->.
  cbn [start after] in A. rewrite A in Hin.
  apply in_app_or in Hin as [Hin|Hin]; [|exact Hin].
  exfalso. apply Hc. apply separator in L. rewrite Forall_forall in L. auto.
Qed.

End Lines.

Section LinesOfText.

Lemma newline_is_space w : lang re_newline w -> blank w.
Proof.
  unfold re_newline, opt, chr. cbn [seq lang].
  intros (u & v & -> & (ws & -> & Hws & _) & (c & -> & Hc)).
  apply Forall_app. split.
  - apply Forall_concat. eapply Forall_impl; [|exact Hws].
    intros a (d & -> & Hd). apply N.eqb_eq in Hd. subst d.
    repeat constructor.
  - apply N.eqb_eq in Hc. subst c. repeat constructor.
Qed.

Lemma lines_of_blank text : blank text -> lines_of text = [].
Proof.
  intros H. unfold lines_of.
  assert (Hp : Forall blank (split re_newline text)).
  { unfold split. destruct text as [|c t].
    - destruct (rmatch re_newline (start [] []) Some); repeat constructor.
    - apply split_loop_pieces; [exact H|constructor]. }
  induction Hp as [|p ps Hp _ IH]; [reflexivity|].
  cbn [map filter]. rewrite (trim_blank p Hp). exact IH.
Qed.

Lemma lines_of_solid text : solid_in text -> lines_of text <> [].
Proof.
  intros (c & Hin & Hc). unfold lines_of.
  assert (Hp : Exists (In c) (split re_newline text)).
  { unfold split. destruct text as [|d t]; [destruct Hin|].
    apply (split_loop_keeps re_newline (fun x => is_space x = true)).
    - intros w L. exact (newline_is_space w L).
    - congruence.
    - exact Hin. }
  induction Hp as [p ps Hp|p ps _ IH]; cbn [map filter].
  - pose proof (trim_keeps c p Hp Hc) as Ht.
    destruct (trim p); [destruct Ht|]. discriminate.
  - destruct (negb (is_empty (trim p))); [discriminate|exact IH].
Qed.

Lemma lines_of_heads text :
  Forall (fun l => match l with c :: _ => is_space c = false | [] => False end)
    (lines_of text).
Proof.
  unfold lines_of. induction (split re_newline text) as [|p ps IH]; [constructor|].
  cbn [map filter]. pose proof (trim_head p) as H.
  destruct (trim p) as [|c t]; [exact IH|]. constructor; [exact H|exact IH].
Qed.

End LinesOfText.

(** ** Whether there is a merchant *)

Section MerchantPresence.

(** White space has no case. *)
Lemma space_fixed c : is_space c = true -> canonicalize c = c.
Proof.
  intros H. unfold canonicalize, upper_code.
  repeat match goal with
  | |- context [if ?b then _ else _] => destruct b eqn:?
  end; try reflexivity; exfalso; unfold in_range in *; char_props; subst; lia.
Qed.

Lemma fold_solid c a :
  N.eqb (canonicalize c) (canonicalize a) = true ->
  is_space (canonicalize a) = false -> is_solid c = true.
Proof.
  intros H Ha. apply N.eqb_eq in H. unfold is_solid.
  destruct (is_space c) eqn:E; [|reflexivity].
  rewrite <- H, (space_fixed c E), E in Ha. discriminate.
Qed.

Ltac demand_solid :=
  lazymatch goal with
  | |- _ /\ _ => split; demand_solid
  | |- _ \/ _ => left; demand_solid
  | |- forall c : _, _ -> is_solid c = true =>
      let c := fresh in
      let H := fresh in
      intros c H; apply (fold_solid c _ H); reflexivity
  end.

Lemma store_patterns_demand_solid :
  Forall (demands is_solid) (re_antonsport :: storePatterns).
Proof.
  repeat (apply Forall_cons || apply Forall_nil);
    cbn [demands re_antonsport word_i chr_i codes code map seq]; demand_solid.
Qed.

Lemma demands_solid_in p text m :
  demands is_solid p -> smatch p text = Some m -> solid_in (matched m).
Proof.
  intros D H. unfold smatch in H.
  apply search_sound in H as (pre & w & _ & L & -> & _).
  destruct (lang_demands is_solid p D w L) as (c & Hin & Hc).
  exists c. split; [exact Hin|]. unfold is_solid in Hc.
  destruct (is_space c); [discriminate|reflexivity].
Qed.

Lemma blank_unmatched p text :
  demands is_solid p -> blank text -> smatch p text = None.
Proof.
  intros D H. apply (search_demands is_solid p text D).
  eapply Forall_impl; [|exact H]. intros c Hc. unfold is_solid. rewrite Hc.
  reflexivity.
Qed.

(** Collapsing the runs of white space keeps every other character. *)
Lemma replace_spaces_keeps c rep : is_space c = false ->
  forall fuel bef aft,
    length aft < fuel -> In c aft ->
    In c (replace_loop fuel re_spaces rep bef aft).
Proof.
  intros Hc. induction fuel as [|fuel IH]; intros bef aft H Hin; [lia|].
  cbn [replace_loop]. rewrite spaces_at.
  destruct aft as [|d rest]; [destruct Hin|]. simpl in H.
  destruct (is_space d) eqn:E.
  - pose proof (eat_pos is_space rest (advance d rest (start bef (d :: rest)))) as Pp.
    cbn [advance pos start] in Pp.
    replace (Nat.eqb (pos (eat is_space rest (advance d rest (start bef (d :: rest))))) 0)
      with false by (symmetry; apply Nat.eqb_neq; lia).
    rewrite eat_spaces_after by reflexivity.
    apply in_or_app. right. apply IH.
    + pose proof (trimStart_length rest). lia.
    + destruct Hin as [->|Hin]; [congruence|].
      apply trimStart_keeps; assumption.
  - destruct Hin as [->|Hin]; [left; reflexivity|].
    right. apply IH; [lia|exact Hin].
Qed.

Lemma starts_solid_in s : starts_solid s -> solid_in s.
Proof. apply head_solid_in. Qed.

Lemma trim_starts_solid s : solid_in s -> starts_solid (trim s).
Proof.
  intros H. apply trim_solid_in in H. pose proof (trim_head s) as Hd.
  destruct (trim s) as [|c r]; [|exact Hd].
  destruct H as (c & [] & _).
Qed.

Lemma store_name_starts p text m :
  demands is_solid p -> smatch p text = Some m ->
  starts_solid (trim (replace_all re_spaces [32%N] (matched m))).
Proof.
  intros D H. destruct (demands_solid_in p text m D H) as (c & Hin & Hc).
  apply trim_starts_solid. exists c. split; [|exact Hc].
  apply replace_spaces_keeps; [exact Hc|lia|exact Hin].
Qed.

Lemma antonsport_starts text a :
  smatch re_antonsport text = Some a -> starts_solid (matched a).
Proof.
  intros Ea. unfold smatch in Ea.
  apply search_sound in Ea as (pre & w & _ & L & -> & _).
  apply lang_chars_i in L.
  destruct w as [|c w]; [discriminate L|].
  cbn [starts_solid]. injection L as L _.
  destruct (is_space c) eqn:Ec; [|reflexivity].
  rewrite (space_fixed c Ec) in L. subst c. discriminate Ec.
Qed.

Lemma find_store_starts text : forall patterns m,
  Forall (demands is_solid) patterns ->
  find_store patterns text = Some m -> starts_solid m.
Proof.
  induction patterns as [|p rest IH]; intros m HP H; [discriminate|].
  inversion HP as [|? ? Hp HR]; subst. cbn [find_store] in H.
  destruct (smatch p text) as [r|] eqn:E; [|exact (IH m HR H)].
  pose proof (store_name_starts p text r Hp E) as B.
  injection H as <-.
  destruct (test re_sportsholding _); [|exact B].
  destruct (smatch re_antonsport text) as [a|] eqn:Ea; [|exact B].
  exact (antonsport_starts text a Ea).
Qed.

Lemma find_store_blank text : forall patterns,
  Forall (demands is_solid) patterns -> blank text ->
  find_store patterns text = None.
Proof.
  induction patterns as [|p rest IH]; intros HP H; [reflexivity|].
  inversion HP as [|? ? Hp HR]; subst. cbn [find_store].
  rewrite (blank_unmatched p text Hp H). exact (IH HR H).
Qed.

Lemma slice0_starts_solid s : starts_solid s -> starts_solid (slice0 60 s).
Proof. destruct s as [|c r]; [contradiction|]. intros H. exact H. Qed.

Lemma org_loop_starts lines :
  Forall starts_solid lines ->
  forall todo init m,
    (forall m0, init = Some m0 -> starts_solid m0) ->
    org_loop lines todo init = Some m -> starts_solid m.
Proof.
  intros HL. induction todo as [|i todo IH]; intros init m Hi H; cbn [org_loop] in H.
  - exact (Hi m H).
  - destruct (nth_error lines i) as [line|] eqn:E; [|exact (IH init m Hi H)].
    destruct (_ && _)%bool; [|exact (IH init m Hi H)].
    replace m with (trim (slice0 60 line)) by congruence.
    apply trim_starts_solid, starts_solid_in, slice0_starts_solid.
    rewrite Forall_forall in HL. apply HL. eapply nth_error_In, E.
Qed.

Lemma first_line_starts lines m :
  Forall starts_solid lines ->
  option_map (slice0 60) (nth_error lines 0) = Some m -> starts_solid m.
Proof.
  intros HL H. destruct lines as [|l ls]; [discriminate|].
  cbn [nth_error option_map] in H. injection H as <-.
  apply slice0_starts_solid. exact (Forall_inv HL).
Qed.

Lemma find_merchant_starts text m :
  find_merchant text = Some m -> starts_solid m.
Proof.
  unfold find_merchant. intros H.
  destruct (find_store storePatterns text) as [s|] eqn:E.
  - injection H as <-.
    exact (find_store_starts text storePatterns s
             (Forall_inv_tail store_patterns_demand_solid) E).
  - destruct (findIndex (test re_org) (lines_of text) 0) as [orgIdx|].
    + exact (org_loop_starts (lines_of text) (lines_of_heads text) _ _ m
               (fun m0 => first_line_starts (lines_of text) m0 (lines_of_heads text))
               H).
    + exact (first_line_starts (lines_of text) m (lines_of_heads text) H).
Qed.

Lemma org_loop_some lines : forall todo init,
  init <> None -> org_loop lines todo init <> None.
Proof.
  induction todo as [|i todo IH]; intros init Hi; cbn [org_loop]; [exact Hi|].
  destruct (nth_error lines i) as [line|]; [|exact (IH init Hi)].
  destruct (_ && _)%bool; [discriminate|exact (IH init Hi)].
Qed.

Lemma find_merchant_absent text : find_merchant text = None <-> blank text.
Proof.
  split.
  - intros H. destruct (blank_or_solid text) as [B|S]; [exact B|].
    exfalso. apply lines_of_solid in S. unfold find_merchant in H.
    destruct (find_store storePatterns text); [discriminate|].
    destruct (lines_of text) as [|l ls] eqn:El; [apply S; reflexivity|].
    destruct (findIndex (test re_org) (l :: ls) 0).
    + revert H. apply org_loop_some. discriminate.
    + discriminate H.
  - intros B. unfold find_merchant.
    rewrite (find_store_blank text storePatterns
               (Forall_inv_tail store_patterns_demand_solid) B).
    rewrite (lines_of_blank text B). reflexivity.
Qed.

End MerchantPresence.

(** X9.  The merchant is absent exactly when the text holds nothing but white
    space and line ends. *)
Theorem merchant_absent_iff_blank text f :
  extractStructuredFields text = Some f ->
  (merchant f = None <-> blank text).
Proof.
  intros E. destruct (extract_total text) as (tot & _ & E').
  rewrite E' in E. injection E as <-. cbn [merchant].
  apply find_merchant_absent.
Qed.

Lemma merchant_absent_iff_blank_witness :
  merchant (Fields None None None (Some (codes "NOK"))) = None
  <-> blank [32%N; 10%N; 9%N].
Proof.
  apply (merchant_absent_iff_blank [32%N; 10%N; 9%N]). vm_compute. reflexivity.
Defined.

(** X10.  A merchant that is present is not empty and does not begin with
    white space, whichever route found it. *)
Theorem merchant_starts_solid text f m :
  extractStructuredFields text = Some f ->
  merchant f = Some m ->
  starts_solid m.
Proof.
  intros E Hm. destruct (extract_total text) as (tot & _ & E').
  rewrite E' in E. injection E as <-. cbn [merchant] in Hm.
  exact (find_merchant_starts text m Hm).
Qed.

Lemma merchant_starts_solid_witness : starts_solid (codes "rema 1000").
Proof.
  apply (merchant_starts_solid (codes "  rema   1000 Oslo")
           (Fields (Some (codes "rema 1000")) None None (Some (codes "NOK"))));
    vm_compute; reflexivity.
Defined.

(** ** The sign of the VAT amount *)

Section VatSign.

Lemma parse_nonneg s v : parseNorwegianCurrency s = Some v -> le zero v = true.
Proof.
  intros H. destruct (parse_unfold s) as [n E]. rewrite E in H.
  destruct (is_empty s); [discriminate|].
  exact (parse_stripped_nonneg n v H).
Qed.

Lemma vat_loop_nonneg : forall ms v0 v,
  (forall u, v0 = Some u -> le zero u = true) ->
  vat_loop ms v0 = Some v -> le zero v = true.
Proof.
  induction ms as [|[m|] ms IH]; intros v0 v H0 H; cbn [vat_loop] in H.
  - exact (H0 v H).
  - assert (Hp : forall u, parse_capture (or_else (group m 2) (group m 1)) = Some u ->
                           le zero u = true).
    { intros u Hu. destruct (or_else _ _) as [s|]; [|discriminate].
      exact (parse_nonneg s u Hu). }
    destruct (truthy_opt _); [exact (Hp v H)|exact (IH _ v Hp H)].
  - exact (IH v0 v H0 H).
Qed.

End VatSign.

(** X8.  A VAT amount that is present is never negative: it is zero or
    more. *)
Theorem vat_never_negative text f v :
  extractStructuredFields text = Some f ->
  vatAmount f = Some v ->
  le zero v = true.
Proof.
  intros E Hv. destruct (extract_total text) as (tot & _ & E').
  rewrite E' in E. injection E as <-. cbn [vatAmount] in Hv.
  unfold find_vat in Hv.
  eapply vat_loop_nonneg; [|exact Hv]. discriminate.
Qed.

Lemma vat_never_negative_witness : le zero (decimal false 2563 (-2)) = true.
Proof.
  apply (vat_never_negative (codes "Sum 128,15 MVA 25,63")
           (Fields (Some (codes "Sum 128,15 MVA 25,63"))
              (Some (decimal false 2563 (-2)))
              (Some (decimal false 12815 (-2))) (Some (codes "NOK"))));
    vm_compute; reflexivity.
Defined.

(** * The receipt code of [src/App.tsx] *)

Import Matchers ReceiptTerms.

(** ** Amounts in [App.tsx] *)

Section AppAmounts.

Lemma parseFloat_fraction_text d1 d2 rest :
  Forall (fun c => is_digit c = true) d1 ->
  Forall (fun c => is_digit c = true) d2 ->
  match rest with c :: _ => N.eqb c comma = true | [] => True end ->
  parseFloat (d1 ++ dot :: d2 ++ rest) =
  match d1 ++ d2 with
  | [] => NaN
  | ds => decimal false (digits_value ds) (- Z.of_nat (length d2))
  end.
Proof.
  intros H1 H2 Hr.
  assert (Hhead : exists c t, d1 ++ dot :: d2 ++ rest = c :: t
                              /\ is_digit_or_dot c = true).
  { destruct H1 as [|c d1 Hc H1]; cbn [app]; do 2 eexists; split;
      try reflexivity. unfold is_digit_or_dot. rewrite Hc. reflexivity. }
  destruct Hhead as (c & t & Es & Hc).
  rewrite Es, (parseFloat_unsigned c t Hc). unfold parse_unsigned.
  rewrite (not_infinity c t Hc), <- Es.
  rewrite (span_digits d1 (dot :: d2 ++ rest) H1) by reflexivity.
  change (N.eqb dot 46) with true. cbv iota.
  assert (Hrest : match rest with c :: _ => is_digit c = false | [] => True end).
  { destruct rest as [|c' rest]; [exact I|].
    apply N.eqb_eq in Hr. subst c'. reflexivity. }
  rewrite (span_digits d2 rest H2 Hrest).
  destruct (d1 ++ d2) eqn:E; [reflexivity|].
  replace (exponent_part rest) with 0%Z; [reflexivity|].
  destruct rest as [|c' rest]; [reflexivity|].
  apply N.eqb_eq in Hr. subst c'. reflexivity.
Qed.

Lemma amount_chars_kept raw :
  Forall (fun c => is_amount_char c = true) raw ->
  Forall (fun c => (is_digit c || N.eqb c comma)%bool = true)
    (filter (fun c => negb (App.is_space_or_dot c)) raw).
Proof.
  induction 1 as [|c raw Hc _ IH]; cbn [filter]; [constructor|].
  destruct (App.is_space_or_dot c) eqn:E; cbn [negb]; [exact IH|].
  constructor; [|exact IH]. unfold is_amount_char in Hc. rewrite E in Hc.
  rewrite orb_false_r in Hc. exact Hc.
Qed.

Lemma commas_upto u :
  Forall (fun c => (is_digit c || N.eqb c comma)%bool = true) u ->
  Forall (fun c => is_digit c = true) (upto comma u).
Proof.
  induction 1 as [|x u Hx _ IH]; cbn [upto]; [constructor|].
  destruct (N.eqb x comma); constructor; [|exact IH].
  rewrite orb_false_r in Hx. exact Hx.
Qed.

Lemma commas_behind u :
  Forall (fun c => (is_digit c || N.eqb c comma)%bool = true) u ->
  Forall (fun c => (is_digit c || N.eqb c comma)%bool = true) (behind comma u).
Proof.
  induction 1 as [|x u Hx Hu IH]; cbn [behind]; [constructor|].
  destruct (N.eqb x comma); assumption.
Qed.

Lemma replace1_cut c d s :
  replace1 c d s = upto c s ++ (if includes s c then d :: behind c s else []).
Proof.
  unfold includes. induction s as [|x s IH]; cbn [replace1 upto behind existsb];
    [reflexivity|].
  rewrite (N.eqb_sym c x). destruct (N.eqb x c); cbn [orb app]; [reflexivity|].
  f_equal. exact IH.
Qed.

Lemma upto_filter p c s :
  p c = true -> upto c (filter p s) = filter p (upto c s).
Proof.
  intros Hc. induction s as [|x s IH]; [reflexivity|]. cbn [filter upto].
  destruct (N.eqb_spec x c) as [->|Hx].
  - rewrite Hc. cbn [upto]. rewrite N.eqb_refl. reflexivity.
  - apply N.eqb_neq in Hx. destruct (p x) eqn:E; cbn [upto filter]; rewrite ?Hx, ?E, IH;
      reflexivity.
Qed.

Lemma behind_filter p c s :
  p c = true -> behind c (filter p s) = filter p (behind c s).
Proof.
  intros Hc. induction s as [|x s IH]; [reflexivity|]. cbn [filter behind].
  destruct (N.eqb_spec x c) as [->|Hx].
  - rewrite Hc. cbn [behind]. rewrite N.eqb_refl. reflexivity.
  - apply N.eqb_neq in Hx. destruct (p x) eqn:E; cbn [behind]; rewrite ?Hx, IH;
      reflexivity.
Qed.

Lemma digits_unspaced s :
  digits (filter (fun c => negb (App.is_space_or_dot c)) s) = digits s.
Proof.
  unfold digits. rewrite filter_filter. apply filter_ext. intros c.
  destruct (is_digit c) eqn:D; [|apply andb_false_r].
  rewrite andb_true_r. unfold App.is_space_or_dot.
  destruct (N.eqb_spec c 32) as [->|_]; [discriminate D|].
  destruct (N.eqb_spec c dot) as [->|_]; [discriminate D|]. reflexivity.
Qed.

(** The amounts of [App.tsx]: blanks and dots are dropped, the first
    comma is the decimal point, and a second comma ends the number. *)
Lemma amount_of_reading raw :
  Forall (fun c => is_amount_char c = true) raw ->
  defined (App.amount_of raw) = reading (upto comma raw) (upto comma (behind comma raw)).
Proof.
  intros H. unfold App.amount_of, App.re_space_or_dot.
  rewrite replace_all_class.
  set (keep := fun c => negb (App.is_space_or_dot c)).
  pose proof (amount_chars_kept raw H) as Hu. fold keep in Hu.
  assert (Hk : keep comma = true) by reflexivity.
  assert (E : reading (upto comma raw) (upto comma (behind comma raw))
              = reading (upto comma (filter keep raw))
                  (upto comma (behind comma (filter keep raw)))).
  { unfold reading.
    rewrite (behind_filter keep comma raw Hk), !(upto_filter keep comma _ Hk).
    unfold keep. rewrite !digits_unspaced. reflexivity. }
  rewrite E. clear E. generalize dependent (filter keep raw). clear raw H.
  intros u Hu. rewrite replace1_cut.
  pose proof (commas_upto u Hu) as H1.
  pose proof (commas_upto _ (commas_behind u Hu)) as H2.
  destruct (includes u comma) eqn:Ec.
  - rewrite (cut_at comma (behind comma u)) at 1.
    rewrite (parseFloat_fraction_text _ _ _ H1 H2)
      by (destruct (includes (behind comma u) comma); [apply N.eqb_refl|exact I]).
    unfold reading, defined. rewrite (digits_id _ H1), (digits_id _ H2).
    destruct (upto comma u ++ upto comma (behind comma u)); [reflexivity|].
    rewrite decimal_not_nan. reflexivity.
  - rewrite app_nil_r, (behind_absent comma u Ec).
    rewrite <- (digits_id _ H1) at 1. apply integer_reading.
Qed.

End AppAmounts.

(** ** Captured groups *)

Section Groups.

Lemma group_captured n b r :
  ends_in_group n b r ->
  forall x z, rmatch r x Some = Some z ->
  exists w, assoc n (caps z) = Some w /\ lang b w.
Proof.
  induction r as [|p|r1 IH1 r2 IH2|r1 IH1 r2 IH2|min max r IH|k r IH| | |];
    cbn [ends_in_group]; intros E x z H; try contradiction.
  - cbn [rmatch] in H.
    apply rmatch_sound in H as (y & w & _ & _ & K). exact (IH2 E y z K).
  - destruct E as [-> ->]. cbn [rmatch] in H.
    apply rmatch_sound in H as (y & w & (A & B & P) & L & K).
    injection K as <-. exists w. split; [|exact L].
    cbn [capture caps assoc]. rewrite Nat.eqb_refl, B, P.
    replace (pos x + length w - pos x) with (length (rev w))
      by (rewrite length_rev; lia).
    rewrite firstn_app, Nat.sub_diag, firstn_all. cbn [firstn].
    rewrite app_nil_r, rev_involutive. reflexivity.
Qed.

Lemma search_group n b r bef aft idx m :
  ends_in_group n b r -> n <> 0 ->
  search r bef aft idx = Some m ->
  exists w, group m n = Some w /\ lang b w.
Proof.
  intros E Hn H. apply search_sound in H as (pre & w & _ & _ & _ & _ & R).
  destruct (group_captured n b r E _ _ R) as (g & Hg & L).
  exists g. split; [|exact L]. cbn [caps] in Hg.
  destruct n as [|n]; [contradiction|]. exact Hg.
Qed.

(** What holds of every successful search holds of every match an
    [exec] loop meets. *)
Lemma exec_all_each (P : result -> Prop) r :
  (forall bef aft idx m, search r bef aft idx = Some m -> P m) ->
  forall fuel bef aft idx ms,
    exec_all fuel r bef aft idx = Some ms -> Forall P ms.
Proof.
  intros HP. induction fuel as [|fuel IH]; intros bef aft idx ms H; [discriminate|].
  cbn [exec_all] in H.
  destruct (search r bef aft idx) as [m|] eqn:E.
  - destruct (exec_all fuel r (end_before m) (end_after m) _) as [ms'|] eqn:E';
      [|discriminate].
    injection H as <-. constructor; [exact (HP _ _ _ _ E)|exact (IH _ _ _ _ E')].
  - injection H as <-. constructor.
Qed.

End Groups.

(** ** The total in [App.tsx] *)

Section AppTotal.

Lemma above_truthy a t :
  plausible t = true -> gt a t = true -> truthy a = true.
Proof.
  intros Ht H. destruct (plausible_finite t Ht) as (m & e & ->).
  destruct a as [s|s| |s m' e']; try discriminate; try reflexivity;
    destruct s; discriminate.
Qed.

Lemma positive_truthy a : gt a zero = true -> truthy a = true.
Proof.
  destruct a as [s|s| |s m e]; try discriminate; try reflexivity;
    destruct s; discriminate.
Qed.

Lemma plausible_not_nan a : plausible a = true -> isNaN a = false.
Proof.
  intros H. destruct (plausible_finite a H) as (m & e & ->). reflexivity.
Qed.

Lemma app_amounts_app ms1 ms2 :
  app_amounts (ms1 ++ ms2) = app_amounts ms1 ++ app_amounts ms2.
Proof.
  induction ms1 as [|m ms1 IH]; cbn [app_amounts app]; [reflexivity|].
  destruct (group m 1) as [raw|]; [|exact IH].
  destruct (plausible _); cbn [app]; rewrite IH; reflexivity.
Qed.

(** One round of the loop over the matches of [moneyRegex]. *)
Lemma app_max_step seen mx m raw :
  group m 1 = Some raw ->
  tracked seen (as_total mx) ->
  mx = zero \/ plausible mx = true ->
  exists mx',
    App.max_step (Some mx) m = Some mx'
    /\ tracked (seen ++ app_amounts [m]) (as_total mx')
    /\ (mx' = zero \/ plausible mx' = true).
Proof.
  intros Hg T Hmx. unfold App.max_step. cbn [app_amounts]. rewrite Hg. cbv zeta.
  set (a := App.amount_of raw).
  destruct Hmx as [->|Hp].
  - change (as_total zero) with (@None number) in T. destruct T as (_ & ->).
    destruct (negb (isNaN a) && gt a zero && lt a million)%bool eqn:C.
    + apply andb_prop in C as [C C3]. apply andb_prop in C as [C1 C2].
      assert (Pa : plausible a = true)
        by (unfold plausible; rewrite (positive_truthy a C2), C2, C3; reflexivity).
      rewrite Pa. exists a. unfold as_total. rewrite (plausible_truthy a Pa).
      split; [reflexivity|]. split; [|auto]. apply (tracked_first a Pa).
    + assert (Pa : plausible a = false).
      { destruct (plausible a) eqn:Pa; [|reflexivity].
        rewrite (plausible_not_nan a Pa), (plausible_positive a Pa),
          (plausible_below a Pa) in C. discriminate. }
      rewrite Pa. exists zero. split; [reflexivity|]. split; [|auto].
      split; [constructor|reflexivity].
  - unfold as_total in T. rewrite (plausible_truthy mx Hp) in T.
    destruct (negb (isNaN a) && gt a mx && lt a million)%bool eqn:C.
    + apply andb_prop in C as [C C3]. apply andb_prop in C as [C1 C2].
      assert (Pa : plausible a = true)
        by exact (plausible_above a mx Hp (above_truthy a mx Hp C2) C2 C3).
      rewrite Pa. exists a. unfold as_total. rewrite (plausible_truthy a Pa).
      split; [reflexivity|]. split; [|auto].
      exact (tracked_raise seen mx a T Pa C2).
    + exists mx. unfold as_total. rewrite (plausible_truthy mx Hp).
      split; [reflexivity|]. split; [|auto].
      destruct (plausible a) eqn:Pa; [|rewrite app_nil_r; exact T].
      apply tracked_keep; [exact T|exact Pa|].
      rewrite (plausible_not_nan a Pa), (plausible_below a Pa) in C.
      cbn [negb andb] in C. rewrite andb_true_r in C. exact C.
Qed.

Lemma app_max_fold ms : forall seen mx,
  Forall (fun m => exists raw, group m 1 = Some raw) ms ->
  tracked seen (as_total mx) ->
  mx = zero \/ plausible mx = true ->
  exists mx',
    fold_left App.max_step ms (Some mx) = Some mx'
    /\ tracked (seen ++ app_amounts ms) (as_total mx')
    /\ (mx' = zero \/ plausible mx' = true).
Proof.
  induction ms as [|m ms IH]; intros seen mx Hg T Hmx.
  - exists mx. cbn [fold_left app_amounts]. rewrite app_nil_r. auto.
  - inversion Hg as [|? ? (raw & Hr) Hg']; subst.
    destruct (app_max_step seen mx m raw Hr T Hmx) as (mx1 & E1 & T1 & H1).
    cbn [fold_left]. rewrite E1.
    destruct (IH _ mx1 Hg' T1 H1) as (mx' & E' & T' & H').
    exists mx'. split; [exact E'|]. split; [|exact H'].
    change (m :: ms) with ([m] ++ ms). rewrite app_amounts_app, app_assoc.
    exact T'.
Qed.

Lemma min_len_app_moneyRegex : 0 < min_len App.moneyRegex.
Proof. vm_compute. lia. Qed.

Lemma app_money_groups text :
  Forall (fun m => exists raw, group m 1 = Some raw) (matches App.moneyRegex text).
Proof.
  apply (exec_all_each _ App.moneyRegex) with (fuel := S (length text))
    (bef := []) (aft := text) (idx := 0).
  - intros bef aft idx m H.
    destruct (search_group 1 _ App.moneyRegex bef aft idx m
                (conj eq_refl eq_refl) ltac:(discriminate) H) as (w & Hw & _).
    exists w. exact Hw.
  - apply matches_exec, min_len_app_moneyRegex.
Qed.

(** The record of [App.tsx] for a text, with the running maximum of its
    total. *)
Lemma app_extract text :
  exists mx,
    App.extractStructuredFields text =
    Some (Fields (App.find_merchant text) (App.find_vat text) (as_total mx)
            (App.find_currency text))
    /\ tracked (money_amounts text) (as_total mx)
    /\ (mx = zero \/ plausible mx = true).
Proof.
  destruct (app_max_fold (matches App.moneyRegex text) [] zero
              (app_money_groups text))
    as (mx & E & T & H).
  { split; [constructor|reflexivity]. }
  { left. reflexivity. }
  exists mx. split; [|split; [exact T|exact H]].
  unfold App.extractStructuredFields, App.extractStructuredFields_fuel.
  rewrite (matches_exec App.moneyRegex text min_len_app_moneyRegex), E.
  reflexivity.
Qed.

End AppTotal.

(** ** The record of [App.tsx] *)

Section AppRecord.

Lemma lang_within q r :
  within q r -> forall w, lang r w -> Forall (fun c => q c = true) w.
Proof.
  induction r as [|p|r1 IH1 r2 IH2|r1 IH1 r2 IH2|min max r IH|n r IH| | |];
    cbn [within lang]; intros W w H; try (subst w; constructor).
  - destruct H as (c & -> & Hc). repeat constructor. auto.
  - destruct W as [W1 W2]. destruct H as (u & v & -> & Hu & Hv).
    apply Forall_app. auto.
  - destruct W as [W1 W2]. destruct H as [H|H]; auto.
  - destruct H as (ws & -> & Hws & _). apply Forall_concat.
    eapply Forall_impl; [|exact Hws]. intros u Hu. exact (IH W u Hu).
  - auto.
Qed.

(** Replacing every match of a one-character class by a fixed text. *)
Lemma replace_loop_class_by p rep : forall fuel bef aft,
  length aft < fuel ->
  replace_loop fuel (Chr p) rep bef aft
  = flat_map (fun c => if p c then rep else [c]) aft.
Proof.
  induction fuel as [|fuel IH]; intros bef aft H; [lia|].
  destruct aft as [|c aft]; [reflexivity|].
  simpl in H. cbn [replace_loop rmatch start after flat_map].
  destruct (p c); cbn [advance pos start Nat.eqb before after].
  - f_equal. apply IH. lia.
  - cbn [app]. f_equal. apply IH. lia.
Qed.

Lemma truthy_decimal_positive m e :
  truthy (decimal false m e) = true -> gt (decimal false m e) zero = true.
Proof.
  destruct (decimal_shape false m e) as [H|[H|(p & q & H)]]; rewrite H;
    [discriminate|reflexivity|reflexivity].
Qed.

Lemma vat_capture_chars :
  within (fun c => is_digit c || is_sep c)%bool
    (seq [plus digit_i; cls_i is_sep; times 2 digit_i]).
Proof.
  cbn. repeat split; intros c H.
  - rewrite (canonicalize_digit c H). reflexivity.
  - unfold canonicalize, upper_code in H.
    repeat match goal with
    | H : context [if ?b then _ else _] |- _ => destruct b eqn:?
    end; try (rewrite H; apply orb_true_r); exfalso; unfold in_range in *;
      char_props; subst; lia.
  - rewrite (canonicalize_digit c H). reflexivity.
Qed.

Lemma app_vat_positive text v :
  App.find_vat text = Some v -> gt v zero = true.
Proof.
  unfold App.find_vat. intros H.
  destruct (smatch App.re_vat text) as [m|] eqn:E; [|discriminate].
  unfold smatch in E.
  destruct (search_group 1 _ App.re_vat [] text 0 m
              (conj eq_refl eq_refl) ltac:(discriminate) E) as (g & Hg & L).
  rewrite Hg in H.
  destruct (truthy _) eqn:Ht; [|discriminate]. injection H as <-.
  revert Ht. unfold replace_all, re_commas, chr.
  rewrite replace_loop_class_by by lia.
  pose proof (lang_within _ _ vat_capture_chars g L) as Hc.
  match goal with |- context [parseFloat ?s] =>
    destruct (parseFloat_digits_and_dots s) as [N|(m' & e & N)]
  end.
  - clear -Hc. induction Hc as [|c g Hc _ IH]; cbn [flat_map]; [constructor|].
    destruct (N.eqb_spec comma c) as [<-|Hn]; cbn [app].
    + constructor; [reflexivity|exact IH].
    + constructor; [|exact IH]. unfold is_digit_or_dot.
      apply orb_prop in Hc as [Hc|Hc]; [rewrite Hc; reflexivity|].
      unfold is_sep in Hc. apply orb_prop in Hc as [Hc|Hc]; [rewrite Hc; apply orb_true_r|].
      apply N.eqb_eq in Hc. congruence.
  - rewrite N. discriminate.
  - rewrite N. apply truthy_decimal_positive.
Qed.

Lemma lang_foreign w : lang (alt (map word_i App.foreignCodes)) w -> is_code w.
Proof.
  unfold is_code. cbn [alt map App.foreignCodes lang]. unfold word_i.
  intros H.
  repeat (destruct H as [H|H]; [apply lang_chars_i in H; rewrite H; cbn; auto 10|]).
  apply lang_chars_i in H. rewrite H. cbn. auto 10.
Qed.

Lemma foreign_sound bef aft y :
  rmatch App.re_foreign (start bef aft) Some = Some y ->
  exists w, assoc 1 (caps y) = Some w /\ is_code w.
Proof.
  unfold App.re_foreign. cbn [seq rmatch]. intros H.
  destruct (xorb _ _); [|discriminate].
  apply rmatch_sound in H as (y1 & w & (A & B & P) & L & K).
  cbn [rmatch] in K. destruct (xorb _ _); [|discriminate].
  injection K as <-. cbn [start after before pos] in A, B, P.
  exists w. split; [|exact (lang_foreign w L)].
  cbn [capture caps assoc Nat.eqb]. rewrite B, P, Nat.sub_0_r.
  rewrite firstn_app, length_rev, Nat.sub_diag, firstn_all2
    by (rewrite length_rev; lia).
  cbn [firstn]. rewrite app_nil_r, rev_involutive. reflexivity.
Qed.

Lemma app_currency_code text :
  exists c, App.find_currency text = Some c /\ In c (map codes currencyCodes).
Proof.
  unfold App.find_currency, test.
  destruct (smatch App.re_foreign text) as [m|] eqn:E.
  - unfold smatch in E.
    apply search_sound in E as (pre & w & _ & _ & _ & _ & R).
    apply foreign_sound in R as (g & Hg & C). cbn [caps] in Hg.
    unfold group. rewrite Hg. cbn [option_map].
    exists (toUpperCase g). split; [reflexivity|exact (toUpperCase_code g C)].
  - exists (codes "NOK"). split; [reflexivity|]. cbn. auto 10.
Qed.

Lemma findIndex_bound p : forall l i k,
  findIndex p l i = Some k -> i <= k < i + length l.
Proof.
  induction l as [|x l IH]; intros i k H; [discriminate|].
  cbn [findIndex] in H. destruct (p x).
  - injection H as <-. simpl. lia.
  - apply IH in H. simpl. lia.
Qed.

Lemma app_merchant_line text m :
  App.find_merchant text = Some m ->
  exists line, In line (lines_of text) /\ m = slice0 60 line.
Proof.
  unfold App.find_merchant. intros H.
  assert (G : forall i, option_map (slice0 60) (nth_error (lines_of text) i) = Some m ->
                        exists line, In line (lines_of text) /\ m = slice0 60 line).
  { intros i Hi. destruct (nth_error (lines_of text) i) as [l|] eqn:E; [|discriminate].
    injection Hi as <-. exists l. split; [eapply nth_error_In, E|reflexivity]. }
  destruct (findIndex _ _ 0) as [k|]; [|exact (G 0 H)].
  destruct (Nat.ltb 0 k); [exact (G _ H)|exact (G 0 H)].
Qed.

Lemma app_merchant_absent text : App.find_merchant text = None <-> blank text.
Proof.
  unfold App.find_merchant. split.
  - intros H. destruct (blank_or_solid text) as [B|S]; [exact B|].
    exfalso. apply lines_of_solid in S.
    destruct (lines_of text) as [|l ls] eqn:El; [apply S; reflexivity|].
    destruct (findIndex _ (l :: ls) 0) as [k|] eqn:Ek; [|discriminate H].
    destruct (Nat.ltb 0 k); [|discriminate H].
    apply findIndex_bound in Ek.
    destruct (nth_error (l :: ls) (Nat.max 0 (k - 1))) eqn:En; [discriminate H|].
    apply nth_error_None in En. lia.
  - intros B. rewrite (lines_of_blank text B). reflexivity.
Qed.

End AppRecord.

(** ** The lazy quantifier *)

Section LazyMatcher.

Variable p : char -> bool.

(** A lazy star over a character class passes on a state reached by
    consuming characters of the class. *)
Lemma repeat_lazy_class : forall fuel x k z,
  repeat_lazy (rmatch (Chr p)) [] fuel 0 None x k = Some z ->
  exists y w,
    extends x w y /\ Forall (fun c => p c = true) w /\ caps y = caps x
    /\ k y = Some z.
Proof.
  induction fuel as [|fuel IH]; intros x k z H; [discriminate|].
  cbn [repeat_lazy Nat.eqb andb] in H. rewrite clear_nil in H.
  destruct (k x) as [z'|] eqn:Ek.
  - injection H as <-. exists x, []. split; [apply extends_refl|].
    split; [constructor|]. split; [reflexivity|exact Ek].
  - rewrite rmatch_class in H.
    destruct (after x) as [|c rest] eqn:Ea; [discriminate|].
    destruct (p c) eqn:Ep; [|discriminate].
    destruct (Nat.eqb _ _); [discriminate|].
    apply IH in H as (y & w & X & Hw & Hc & K).
    exists y, (c :: w). split.
    + exact (extends_trans x [c] _ w y (extends_advance c rest x Ea) X).
    + split; [constructor; assumption|]. split; [exact Hc|exact K].
Qed.

(** With the fuel that [lazy_group_then] provides, more changes
    nothing. *)
Lemma repeat_lazy_fuel : forall fuel1 fuel2 x k,
  length (after x) < fuel1 -> length (after x) < fuel2 ->
  repeat_lazy (rmatch (Chr p)) [] fuel1 0 None x k
  = repeat_lazy (rmatch (Chr p)) [] fuel2 0 None x k.
Proof.
  induction fuel1 as [|fuel1 IH]; intros fuel2 x k H1 H2; [lia|].
  destruct fuel2 as [|fuel2]; [lia|].
  cbn [repeat_lazy Nat.eqb andb]. rewrite clear_nil.
  destruct (k x); [reflexivity|]. rewrite !rmatch_class.
  destruct (after x) as [|c rest] eqn:Ea; [reflexivity|].
  destruct (p c); [|reflexivity].
  destruct (Nat.eqb _ _); [reflexivity|].
  cbn [length] in H1, H2. apply IH; cbn [advance after]; lia.
Qed.

End LazyMatcher.

Section SearchWith.

Variable m : matcher.

Lemma search_with_sound : forall aft bef idx res,
  search_with m bef aft idx = Some res ->
  exists pre rest z,
    aft = pre ++ rest
    /\ m (start (rev pre ++ bef) rest) Some = Some z
    /\ res = result_of (idx + length pre) z.
Proof.
  induction aft as [|c aft IH]; intros bef idx res H; cbn [search_with] in H.
  - destruct (m (start bef []) Some) as [z|] eqn:E; [|discriminate].
    injection H as <-. exists [], [], z. rewrite Nat.add_0_r. auto.
  - destruct (m (start bef (c :: aft)) Some) as [z|] eqn:E.
    + injection H as <-. exists [], (c :: aft), z. rewrite Nat.add_0_r. auto.
    + apply IH in H as (pre & rest & z & A & R & ->).
      exists (c :: pre), rest, z. cbn [app rev length]. rewrite <- app_assoc.
      split; [rewrite A; reflexivity|]. split; [exact R|].
      f_equal. lia.
Qed.

End SearchWith.

(** ** The line items of [App.tsx] *)

Section LineItems.

Lemma captured_text x w y :
  extends x w y -> rev (firstn (pos y - pos x) (before y)) = w.
Proof.
  intros (_ & B & P). rewrite B, P.
  replace (pos x + length w - pos x) with (length (rev w))
    by (rewrite length_rev; lia).
  rewrite firstn_app, Nat.sub_diag, firstn_all. cbn [firstn].
  rewrite app_nil_r. apply rev_involutive.
Qed.

(** [priceAtEnd] at a position: the text from there to the end of the
    line is group 1 followed by a price, which is group 2. *)
Lemma priceAtEnd_sound bef aft z :
  App.priceAtEnd (start bef aft) Some = Some z ->
  exists g1 pr,
    aft = g1 ++ pr /\ lang App.price pr /\ assoc 2 (caps z) = Some pr.
Proof.
  unfold App.priceAtEnd, lazy_group_then. intros H.
  apply repeat_lazy_class in H as (y & g1 & X & _ & Hc & K).
  cbn [seq rmatch] in K.
  apply rmatch_sound in K as (y2 & pr & X2 & L & K).
  destruct (after (capture 2 (capture 1 (start bef aft) y) y2)) eqn:Ea;
    [|discriminate].
  injection K as <-. exists g1, pr.
  pose proof (captured_text _ _ _ X2) as C2.
  destruct X as (A & _ & _). destruct X2 as (A2 & _ & _).
  cbn [start after capture] in A, A2, Ea. rewrite Ea in A2.
  rewrite app_nil_r in A2. rewrite A2 in A.
  split; [exact A|]. split; [exact L|].
  cbn [capture caps assoc Nat.eqb]. rewrite C2. reflexivity.
Qed.

Lemma positive_finite v :
  isFinite v = true -> le v zero = false -> gt v zero = true.
Proof.
  destruct v as [s|s| |s m e]; try discriminate; destruct s; try discriminate;
    reflexivity.
Qed.

(** What the loop body pushes for a line. *)
Lemma line_item_inv raw it :
  App.line_item raw = Some it ->
  exists pre pr desc,
    raw = pre ++ pr
    /\ lang App.price pr
    /\ App.amount it = App.amount_of pr
    /\ isFinite (App.amount it) = true
    /\ gt (App.amount it) zero = true
    /\ gt (App.amount it) million = false
    /\ App.description it = slice0 120 desc
    /\ ((App.quantity it = None /\ App.unitPrice it = None)
        \/ exists q u,
             App.quantity it = Some q /\ App.unitPrice it = Some u
             /\ (truthy q && truthy u
                 && gt (div (abs (sub (mul q u) (App.amount it))) (App.amount it))
                      App.quarter)%bool = false).
Proof.
  unfold App.line_item. intros H.
  destruct (Nat.ltb (length raw) 3); [discriminate|].
  destruct (test App.skipRegex raw); [discriminate|].
  destruct (search_with App.priceAtEnd [] raw 0) as [m|] eqn:Es; [|discriminate].
  apply search_with_sound in Es as (pre & rest & z & A & R & ->).
  apply priceAtEnd_sound in R as (g1 & pr & -> & L & G2).
  unfold group at 1 2, result_of in H. cbn [captures] in H. rewrite G2 in H.
  destruct (assoc 1 (caps z)) as [g|]; [|discriminate].
  cbv zeta in H.
  destruct (negb (isFinite (App.amount_of pr)) || le (App.amount_of pr) zero
            || gt (App.amount_of pr) million)%bool eqn:Eg; [discriminate|].
  apply orb_false_elim in Eg as [Eg E3]. apply orb_false_elim in Eg as [E1 E2].
  apply negb_false_iff in E1.
  pose proof (positive_finite _ E1 E2) as Epos.
  rewrite app_assoc in A.
  destruct (is_empty _ || test App.re_kr_nok _)%bool; [discriminate|].
  destruct (smatch App.qtyRegex _) as [q|].
  - destruct (group q 1) as [q1|]; [|discriminate].
    destruct (group q 2) as [q2|]; [|discriminate].
    destruct (truthy (parseFloat q1) && truthy (App.amount_of q2) && _)%bool eqn:Eq;
      injection H as <-; cbn [App.amount App.description App.quantity App.unitPrice];
      do 3 eexists; repeat (split; [eassumption || reflexivity|]).
    + left. auto.
    + right. do 2 eexists. repeat split. exact Eq.
  - injection H as <-. cbn [App.amount App.description App.quantity App.unitPrice].
    do 3 eexists; repeat (split; [eassumption || reflexivity|]). left. auto.
Qed.

Lemma items_of_in it : forall lines,
  In it (App.items_of lines) ->
  exists raw, In raw lines /\ App.line_item raw = Some it.
Proof.
  induction lines as [|raw rest IH]; intros H; [destruct H|].
  cbn [App.items_of] in H. destruct (App.line_item raw) as [item|] eqn:E.
  - destruct H as [<-|H]; [exists raw; split; [left; reflexivity|exact E]|].
    destruct (IH H) as (r & Hr & Er). exists r. split; [right; exact Hr|exact Er].
  - destruct (IH H) as (r & Hr & Er). exists r. split; [right; exact Hr|exact Er].
Qed.

Lemma items_of_length lines : length (App.items_of lines) <= length lines.
Proof.
  induction lines as [|raw rest IH]; [reflexivity|]. cbn [App.items_of].
  destruct (App.line_item raw); simpl; lia.
Qed.

End LineItems.

Section AppCaptures.

Lemma app_money_chars :
  within is_amount_char
    (seq [between 1 3 digit_i;
          star (seq [cls_i App.is_space_or_dot; times 3 digit_i]);
          cls_i is_sep; times 2 digit_i]).
Proof.
  assert (D : forall c, is_digit (canonicalize c) = true -> is_amount_char c = true).
  { intros c H. unfold is_amount_char. rewrite (canonicalize_digit c H). reflexivity. }
  assert (S : forall c, (App.is_space_or_dot (canonicalize c)
                         || is_sep (canonicalize c))%bool = true ->
                        is_amount_char c = true).
  { intros c H. unfold is_amount_char, App.is_space_or_dot, is_sep in *.
    unfold canonicalize, upper_code in H.
    repeat match goal with
    | H : context [if ?b then _ else _] |- _ => destruct b eqn:?
    end;
      try (apply orb_prop in H as [H|H]; apply orb_prop in H as [H|H];
           rewrite H; rewrite ?orb_true_r; reflexivity);
      exfalso; unfold in_range in *; char_props; subst; lia. }
  cbn. repeat split; intros c H; auto; apply S; rewrite H;
    rewrite ?orb_true_r; reflexivity.
Qed.

Lemma app_money_capture text m raw :
  In m (matches App.moneyRegex text) -> group m 1 = Some raw ->
  Forall (fun c => is_amount_char c = true) raw.
Proof.
  intros Hin Hg.
  assert (H : Forall (fun m => forall raw, group m 1 = Some raw ->
                        Forall (fun c => is_amount_char c = true) raw)
                (matches App.moneyRegex text)).
  { apply (exec_all_each _ App.moneyRegex) with (fuel := S (length text))
      (bef := []) (aft := text) (idx := 0).
    - intros bef aft idx m0 H raw0 Hr.
      destruct (search_group 1 _ App.moneyRegex bef aft idx m0
                  (conj eq_refl eq_refl) ltac:(discriminate) H) as (w & Hw & L).
      rewrite Hw in Hr. injection Hr as <-.
      exact (lang_within _ _ app_money_chars w L).
    - apply matches_exec, min_len_app_moneyRegex. }
  rewrite Forall_forall in H. exact (H m Hin raw Hg).
Qed.

End AppCaptures.

(** X11.  How [App.tsx] reads an amount that [moneyRegex] captured:
    blanks and dots are dropped and the comma is the decimal point.  An
    amount without a comma, so one written with a dot before its last
    two digits, is read as the whole number written by its digits. *)
Theorem app_amount_reading text m raw :
  In m (matches App.moneyRegex text) -> group m 1 = Some raw ->
  defined (App.amount_of raw)
  = reading (upto comma raw) (upto comma (behind comma raw))
  /\ (includes raw comma = false -> defined (App.amount_of raw) = reading raw []).
Proof.
  intros Hin Hg.
  pose proof (amount_of_reading raw (app_money_capture text m raw Hin Hg)) as E.
  split; [exact E|]. intros Hc. rewrite E.
  rewrite (upto_absent comma raw Hc), (behind_absent comma raw Hc). reflexivity.
Qed.

Lemma app_amount_reading_witness :
  defined (App.amount_of (codes "123.45")) = reading (codes "123.45") [].
Proof.
  refine (proj2 (app_amount_reading (codes "Sum 123.45")
                   (Result 0 (codes "Sum 123.45") [(1, codes "123.45")]
                      (rev (codes "Sum 123.45")) [])
                   (codes "123.45") _ _) _).
  - vm_compute. left. reflexivity.
  - reflexivity.
  - reflexivity.
Defined.

(** X12.  [extractStructuredFields] of [App.tsx] always returns, and its
    total is a greatest one among the amounts of the text that are
    positive and below one million; there is no total when there is no
    such amount.  The keyword in front of an amount gives it no
    priority. *)
Theorem app_total_greatest text :
  exists f,
    App.extractStructuredFields text = Some f
    /\ (money_amounts text <> [] ->
        exists t, total f = Some t /\ is_max (money_amounts text) t)
    /\ (money_amounts text = [] -> total f = None).
Proof.
  destruct (app_extract text) as (mx & E & T & _).
  eexists. split; [exact E|]. cbn [total].
  destruct (as_total mx) as [t|]; destruct T as [_ T].
  - split; [intros _; exists t; auto|].
    intros Hn. rewrite Hn in T. destruct T as [[] _].
  - split; [intros Hn; contradiction|reflexivity].
Qed.

Lemma app_total_greatest_witness :
  exists f,
    App.extractStructuredFields (codes "Sum 128,15 Kort 200,00") = Some f
    /\ total f = Some (decimal false 200 0).
Proof.
  destruct (app_total_greatest (codes "Sum 128,15 Kort 200,00"))
    as (f & E & H1 & _).
  destruct H1 as (t & Et & Hin & Hmax).
  - vm_compute. discriminate.
  - assert (El : money_amounts (codes "Sum 128,15 Kort 200,00")
                 = [decimal false 12815 (-2); decimal false 200 0])
      by (vm_compute; reflexivity).
    rewrite El in Hin, Hmax.
    assert (H : le (decimal false 200 0) t = true)
      by (apply Hmax; right; left; reflexivity).
    exists f. split; [exact E|]. rewrite Et.
    destruct Hin as [<-|[<-|[]]]; [|reflexivity].
    exfalso. revert H. vm_compute. discriminate.
Defined.

(** X13.  A total of [App.tsx] that is present lies strictly between zero
    and one million. *)
Theorem app_total_in_range text f t :
  App.extractStructuredFields text = Some f ->
  total f = Some t ->
  gt t zero = true /\ lt t million = true.
Proof.
  intros E Ht. destruct (app_extract text) as (mx & E' & T & _).
  rewrite E' in E. injection E as <-. cbn [total] in Ht. rewrite Ht in T.
  destruct T as (Hs & Hin & _). rewrite Forall_forall in Hs.
  pose proof (Hs t Hin) as P.
  split; [exact (plausible_positive t P)|exact (plausible_below t P)].
Qed.

Lemma app_total_in_range_witness :
  gt (decimal false 200 0) zero = true /\ lt (decimal false 200 0) million = true.
Proof.
  apply (app_total_in_range (codes "Sum 128,15 Kort 200,00")
           (Fields (Some (codes "Sum 128,15 Kort 200,00")) None
              (Some (decimal false 200 0)) (Some (codes "NOK"))));
    vm_compute; reflexivity.
Defined.

(** X14.  A VAT amount of [App.tsx] that is present is greater than
    zero: a zero or unreadable amount leaves the field absent. *)
Theorem app_vat_above_zero text f v :
  App.extractStructuredFields text = Some f ->
  vatAmount f = Some v ->
  gt v zero = true.
Proof.
  intros E Hv. destruct (app_extract text) as (mx & E' & _).
  rewrite E' in E. injection E as <-. cbn [vatAmount] in Hv.
  exact (app_vat_positive text v Hv).
Qed.

Lemma app_vat_above_zero_witness : gt (decimal false 2563 (-2)) zero = true.
Proof.
  apply (app_vat_above_zero (codes "MVA 25,63")
           (Fields (Some (codes "MVA 25,63")) (Some (decimal false 2563 (-2)))
              (Some (decimal false 2563 (-2))) (Some (codes "NOK"))));
    vm_compute; reflexivity.
Defined.

(** X15.  The currency of [App.tsx] is always present and is one of the
    six codes. *)
Theorem app_currency_in_alphabet text f :
  App.extractStructuredFields text = Some f ->
  exists c, currency f = Some c /\ In c (map codes currencyCodes).
Proof.
  intros E. destruct (app_extract text) as (mx & E' & _).
  rewrite E' in E. injection E as <-. cbn [currency].
  apply app_currency_code.
Qed.

Lemma app_currency_in_alphabet_witness :
  exists c, Some (codes "EUR") = Some c /\ In c (map codes currencyCodes).
Proof.
  apply (app_currency_in_alphabet (codes "Total 12,00 eur")
           (Fields (Some (codes "Total 12,00 eur")) None
              (Some (decimal false 12 0)) (Some (codes "EUR"))));
    vm_compute; reflexivity.
Defined.

(** X16.  The merchant of [App.tsx] is absent exactly when the text is
    blank; a merchant that is present is the first 60 characters of a
    line of the text, so it is not empty, does not begin with white
    space and has at most 60 characters. *)
Theorem app_merchant_line_start text f :
  App.extractStructuredFields text = Some f ->
  (merchant f = None <-> blank text)
  /\ (forall m, merchant f = Some m ->
        (exists line, In line (lines_of text) /\ m = slice0 60 line)
        /\ starts_solid m /\ length m <= 60).
Proof.
  intros E. destruct (app_extract text) as (mx & E' & _).
  rewrite E' in E. injection E as <-. cbn [merchant].
  split; [apply app_merchant_absent|].
  intros m Hm. destruct (app_merchant_line text m Hm) as (line & Hin & ->).
  split; [exists line; auto|]. split; [|apply slice0_length].
  apply slice0_starts_solid.
  pose proof (lines_of_heads text) as H. rewrite Forall_forall in H.
  exact (H line Hin).
Qed.

Lemma app_merchant_line_start_witness :
  (Some (codes "Butikk AS") = None <-> blank (codes " Butikk AS "))
  /\ (forall m, Some (codes "Butikk AS") = Some m ->
        (exists line, In line (lines_of (codes " Butikk AS ")) /\ m = slice0 60 line)
        /\ starts_solid m /\ length m <= 60).
Proof.
  apply (app_merchant_line_start (codes " Butikk AS ")
           (Fields (Some (codes "Butikk AS")) None None (Some (codes "NOK")))).
  vm_compute. reflexivity.
Defined.

(** X17.  Every line item has an amount that is finite, greater than
    zero and at most one million. *)
Theorem items_amount_in_range text it :
  In it (App.parseReceiptLineItems text) ->
  isFinite (App.amount it) = true
  /\ gt (App.amount it) zero = true
  /\ gt (App.amount it) million = false.
Proof.
  intros H. apply items_of_in in H as (raw & _ & H).
  apply line_item_inv in H as (pre & pr & desc & _ & _ & _ & H1 & H2 & H3 & _).
  auto.
Qed.

Lemma items_amount_in_range_witness :
  isFinite (decimal false 1990 (-2)) = true
  /\ gt (decimal false 1990 (-2)) zero = true
  /\ gt (decimal false 1990 (-2)) million = false.
Proof.
  apply (items_amount_in_range (codes "Melk 1l 19,90")
           (App.LineItem (codes "Melk 1l") (decimal false 1990 (-2)) None None)).
  vm_compute. left. reflexivity.
Defined.

(** X18.  There is at most one line item for each non-blank line of the
    text, and the description of an item has at most 120 characters. *)
Theorem items_bounded text :
  length (App.parseReceiptLineItems text) <= length (lines_of text)
  /\ forall it, In it (App.parseReceiptLineItems text) ->
       length (App.description it) <= 120.
Proof.
  split; [apply items_of_length|].
  intros it H. apply items_of_in in H as (raw & _ & H).
  apply line_item_inv in H as (pre & pr & desc & _ & _ & _ & _ & _ & _ & -> & _).
  apply firstn_le_length.
Qed.

(** X19.  A line item has a quantity exactly when it has a unit price.
    When both are present and neither is zero, their product differs
    from the amount of the item by no more than a quarter of that
    amount. *)
Theorem items_quantity_consistent text it :
  In it (App.parseReceiptLineItems text) ->
  (App.quantity it = None <-> App.unitPrice it = None)
  /\ forall q u,
       App.quantity it = Some q -> App.unitPrice it = Some u ->
       truthy q = true -> truthy u = true ->
       gt (div (abs (sub (mul q u) (App.amount it))) (App.amount it)) App.quarter
       = false.
Proof.
  intros H. apply items_of_in in H as (raw & _ & H).
  apply line_item_inv in H
    as (pre & pr & desc & _ & _ & _ & _ & _ & _ & _ & [[Hq Hu]|(q0 & u0 & Hq & Hu & C)]).
  - rewrite Hq, Hu. split; [tauto|]. discriminate.
  - rewrite Hq, Hu. split; [split; discriminate|].
    intros q u Eq Eu Tq Tu. injection Eq as <-. injection Eu as <-.
    rewrite Tq, Tu in C. exact C.
Qed.

Lemma items_quantity_consistent_witness :
  gt (div (abs (sub (mul (decimal false 2 0) (decimal false 10 0))
                  (decimal false 20 0))) (decimal false 20 0)) App.quarter
  = false.
Proof.
  refine (proj2 (items_quantity_consistent (codes "Brus 2 x 10,00 20,00")
                   (App.LineItem (codes "Brus") (decimal false 20 0)
                      (Some (decimal false 2 0)) (Some (decimal false 10 0))) _)
            (decimal false 2 0) (decimal false 10 0) eq_refl eq_refl _ _).
  - vm_compute. left. reflexivity.
  - reflexivity.
  - reflexivity.
Defined.

(** X20.  The amount of a line item is read from the end of its line:
    the line ends with a price, an optional minus sign and digits in
    groups of three with two decimals, and the amount is that text
    normalised. *)
Theorem items_price_at_line_end text it :
  In it (App.parseReceiptLineItems text) ->
  exists line pre pr,
    In line (lines_of text) /\ line = pre ++ pr
    /\ lang App.price pr /\ App.amount it = App.amount_of pr.
Proof.
  intros H. apply items_of_in in H as (raw & Hin & H).
  apply line_item_inv in H as (pre & pr & desc & A & L & E & _).
  exists raw, pre, pr. auto.
Qed.

Lemma items_price_at_line_end_witness :
  exists line pre pr,
    In line (lines_of (codes "Melk 1l 19,90")) /\ line = pre ++ pr
    /\ lang App.price pr /\ decimal false 1990 (-2) = App.amount_of pr.
Proof.
  apply (items_price_at_line_end (codes "Melk 1l 19,90")
           (App.LineItem (codes "Melk 1l") (decimal false 1990 (-2)) None None)).
  vm_compute. left. reflexivity.
Defined.

(** * Key words of the receipt code *)

Import MoreTerms.

Section SkippedLines.

Lemma search_bol r : forall aft c bef idx,
  search (Seq Bol r) (c :: bef) aft idx = None.
Proof.
  induction aft as [|d aft IH]; intros c bef idx; cbn [search rmatch start before];
    [reflexivity|apply IH].
Qed.

Lemma ci_prefix_app l1 l2 s :
  ci_prefix (l1 ++ l2) s
  = (ci_prefix l1 s && ci_prefix l2 (skipn (length l1) s))%bool.
Proof.
  revert s. induction l1 as [|a l1 IH]; intros s; [reflexivity|].
  destruct s as [|c s]; [reflexivity|]. cbn [app ci_prefix length skipn].
  rewrite IH, andb_assoc. reflexivity.
Qed.

Lemma after_advance_over : forall n x,
  after (advance_over n x) = skipn n (after x).
Proof.
  induction n as [|n IH]; intros x; [reflexivity|]. cbn [advance_over].
  destruct (after x) as [|c rest] eqn:E; [rewrite E; reflexivity|].
  rewrite IH. reflexivity.
Qed.

Lemma advance_over_add : forall n m x,
  advance_over (n + m) x = advance_over m (advance_over n x).
Proof.
  induction n as [|n IH]; intros m x; [reflexivity|]. cbn [Nat.add advance_over].
  destruct (after x) as [|c rest] eqn:E; [|apply IH].
  destruct m as [|m]; [reflexivity|]. cbn [advance_over]. rewrite E. reflexivity.
Qed.

Lemma literal_word l : literal l (seq (map chr_i l)).
Proof. intros x k. apply rmatch_chars_i. Qed.

Lemma literal_seq l1 l2 r1 r2 :
  literal l1 r1 -> literal l2 r2 -> literal (l1 ++ l2) (Seq r1 r2).
Proof.
  intros H1 H2 x k. cbn [rmatch]. rewrite H1, ci_prefix_app.
  destruct (ci_prefix l1 (after x)); [|reflexivity]. cbn [andb].
  rewrite H2, after_advance_over, length_app, advance_over_add. reflexivity.
Qed.

(** An alternative of literal patterns, followed by something that
    always succeeds, matches exactly when one of the literals is there. *)
Lemma literal_alt x k : (forall y, k y <> None) -> forall ls rs,
  Forall2 literal ls rs -> rs <> [] ->
  (match rmatch (alt rs) x k with Some _ => true | None => false end)
  = begins_with_any ls (after x).
Proof.
  intros Hk. induction ls as [|l ls IH]; intros rs H Hn;
    inversion H as [|? r ? rs' Hl Hrs]; subst; [contradiction|].
  unfold begins_with_any. cbn [existsb].
  destruct rs' as [|r' rs'].
  - inversion Hrs; subst. cbn [alt existsb]. rewrite Hl, orb_false_r.
    destruct (ci_prefix l (after x)); [|reflexivity].
    destruct (k _) eqn:E; [reflexivity|]. elim (Hk _ E).
  - change (alt (r :: r' :: rs')) with (Alt r (alt (r' :: rs'))).
    cbn [rmatch]. rewrite Hl.
    destruct (ci_prefix l (after x)).
    + destruct (k _) eqn:E; [reflexivity|]. elim (Hk _ E).
    + apply IH; [exact Hrs|discriminate].
Qed.

Lemma skip_literals :
  Forall2 literal skip_words
    [ word_i "sum"; word_i "total"; word_i "mva"; word_i "vat";
      seq [word_i "bel"; chr_i 248; word_i "p"];
      seq [chr_i 229; word_i " betale"];
      word_i "change"; word_i "subtotal"; word_i "til gode" ].
Proof.
  unfold skip_words, word_i.
  change (chr_i 248) with (seq (map chr_i [248%N])).
  change (chr_i 229) with (seq (map chr_i [229%N])).
  repeat constructor; cbn [seq]; repeat apply literal_seq; apply literal_word.
Qed.

(** [skipRegex] finds a line exactly when the line begins with one of
    its words. *)
Lemma test_skipRegex raw :
  test App.skipRegex raw = begins_with_any skip_words raw.
Proof.
  unfold test, smatch.
  assert (E : search App.skipRegex [] raw 0
              = match rmatch App.skipRegex (start [] raw) Some with
                | Some y => Some (result_of 0 y)
                | None => None
                end).
  { destruct raw as [|c raw]; cbn [search];
      destruct (rmatch App.skipRegex _ Some); try reflexivity.
    apply search_bol. }
  rewrite E. clear E. unfold App.skipRegex.
  cbn [seq rmatch start before].
  etransitivity;
    [|exact (literal_alt (start [] raw)
               (fun y => Some (capture 1 (start [] raw) y))
               ltac:(discriminate) _ _ skip_literals ltac:(discriminate))].
  destruct (rmatch _ _ _); reflexivity.
Qed.

End SkippedLines.

(** X21.  No line item is made from a line of fewer than three
    characters, or from a line that begins, in any mix of cases, with
    sum, total, mva, vat, beløp, å betale, change, subtotal or til gode. *)
Theorem items_skip_lines text it :
  In it (App.parseReceiptLineItems text) ->
  exists line,
    In line (lines_of text) /\ App.line_item line = Some it
    /\ 3 <= length line /\ begins_with_any skip_words line = false.
Proof.
  intros H. apply items_of_in in H as (raw & Hin & H).
  exists raw. split; [exact Hin|]. split; [exact H|].
  unfold App.line_item in H.
  destruct (Nat.ltb_spec (length raw) 3) as [L|L]; [discriminate|].
  split; [exact L|]. rewrite <- test_skipRegex.
  destruct (test App.skipRegex raw); [discriminate|reflexivity].
Qed.

Lemma items_skip_lines_witness :
  exists line,
    In line (lines_of (codes "Melk 1l 19,90"))
    /\ App.line_item line
       = Some (App.LineItem (codes "Melk 1l") (decimal false 1990 (-2)) None None)
    /\ 3 <= length line /\ begins_with_any skip_words line = false.
Proof.
  apply (items_skip_lines (codes "Melk 1l 19,90")).
  vm_compute. left. reflexivity.
Defined.

(** ** Where a VAT amount can come from *)

Section VatWords.

Lemma lang_mentions K r :
  mentions K r -> forall w, lang r w -> holds K w.
Proof.
  induction r as [|p|r1 IH1 r2 IH2|r1 IH1 r2 IH2|min max r IH|n r IH| | |];
    intros [B|M] w H;
    try (exists [], w, []; rewrite app_nil_r; split; [reflexivity|exact (B w H)]);
    try contradiction; cbn [lang] in H.
  - destruct H as (u & v & -> & Hu & Hv). destruct M as [M|M].
    + destruct (IH1 M u Hu) as (pre & k & post & -> & Hk).
      exists pre, k, (post ++ v). rewrite <- !app_assoc. auto.
    + destruct (IH2 M v Hv) as (pre & k & post & -> & Hk).
      exists (u ++ pre), k, post. rewrite <- !app_assoc. auto.
  - destruct M as [M1 M2]. destruct H as [H|H]; auto.
  - exact (IH M w H).
Qed.

Lemma holds_inside K pre w post : holds K w -> holds K (pre ++ w ++ post).
Proof.
  intros (a & k & b & -> & Hk). exists (pre ++ a), k, (b ++ post).
  rewrite <- !app_assoc. auto.
Qed.

Lemma word_is_vat_word (s : string) :
  In (map canonicalize (codes s)) vat_words ->
  forall w, lang (word_i s) w -> is_vat_word w.
Proof.
  intros H w L. unfold is_vat_word. unfold word_i in L.
  apply lang_chars_i in L. rewrite L. exact H.
Qed.

Lemma vat_patterns_mention : Forall (mentions is_vat_word) vatPatterns.
Proof.
  assert (M : mentions is_vat_word (word_i "MVA"))
    by (left; apply (word_is_vat_word "MVA"); cbn; auto).
  assert (m : mentions is_vat_word (word_i "mva"))
    by (left; apply (word_is_vat_word "mva"); cbn; auto).
  assert (V : mentions is_vat_word (word_i "VAT"))
    by (left; apply (word_is_vat_word "VAT"); cbn; auto).
  assert (R : mentions is_vat_word (word_i "25%"))
    by (left; apply (word_is_vat_word "25%"); cbn; auto).
  assert (MV : mentions is_vat_word mva_or_vat) by (right; split; assumption).
  unfold vatPatterns, re_vat_breakdown.
  repeat (apply Forall_cons || apply Forall_nil); cbn [seq];
    repeat first [assumption | right; left; assumption | right; right].
Qed.

Lemma vat_loop_matched text : forall patterns v0 v,
  vat_loop (map (fun p => smatch p text) patterns) v0 = Some v ->
  v0 = Some v \/ Exists (fun p => smatch p text <> None) patterns.
Proof.
  induction patterns as [|p ps IH]; intros v0 v H; [left; exact H|].
  cbn [map vat_loop] in H. destruct (smatch p text) as [m|] eqn:E.
  - right. left. rewrite E. discriminate.
  - destruct (IH v0 v H) as [H0|H1]; [left; exact H0|right; right; exact H1].
Qed.

End VatWords.

(** X22.  A VAT amount is only found in a text that holds MVA or VAT, in
    any mix of cases, or 25%. *)
Theorem vat_needs_keyword text f v :
  extractStructuredFields text = Some f ->
  vatAmount f = Some v ->
  holds is_vat_word text.
Proof.
  intros E Hv. destruct (extract_total text) as (tot & _ & E').
  rewrite E' in E. injection E as <-. cbn [vatAmount] in Hv.
  unfold find_vat in Hv.
  apply vat_loop_matched in Hv as [Hv|Hv]; [discriminate|].
  apply Exists_exists in Hv as (p & Hp & Hm).
  pose proof vat_patterns_mention as M. rewrite Forall_forall in M.
  destruct (smatch p text) as [m|] eqn:Em; [|contradiction].
  unfold smatch in Em.
  apply search_sound in Em as (pre & w & A & L & _). cbn [app] in A.
  rewrite A. apply holds_inside. exact (lang_mentions _ p (M p Hp) w L).
Qed.

Lemma vat_needs_keyword_witness : holds is_vat_word (codes "Sum 128,15 MVA 25,63").
Proof.
  apply (vat_needs_keyword (codes "Sum 128,15 MVA 25,63")
           (Fields (Some (codes "Sum 128,15 MVA 25,63"))
              (Some (decimal false 2563 (-2)))
              (Some (decimal false 12815 (-2))) (Some (codes "NOK")))
           (decimal false 2563 (-2)));
    vm_compute; reflexivity.
Defined.

(** ** The names of the known stores *)

Section StoreNames.

Lemma replace_spaces_solid rep a : solid a ->
  forall fuel bef rest,
    length (a ++ rest) < fuel ->
    replace_loop fuel re_spaces rep bef (a ++ rest)
    = a ++ replace_loop (fuel - length a) re_spaces rep (rev a ++ bef) rest.
Proof.
  induction 1 as [|c a Hc _ IH]; intros fuel bef rest H.
  - cbn [app length rev]. rewrite Nat.sub_0_r. reflexivity.
  - destruct fuel as [|fuel]; [simpl in H; lia|].
    cbn [app replace_loop length]. rewrite spaces_at, Hc.
    cbn [Nat.sub]. f_equal. simpl in H. rewrite IH by lia.
    cbn [rev]. rewrite <- app_assoc. reflexivity.
Qed.

Lemma replace_spaces_run rep ws b : ws <> [] -> blank ws ->
  match b with c :: _ => is_space c = false | [] => True end ->
  forall fuel bef,
    length (ws ++ b) < fuel ->
    exists fuel' bef',
      length b < fuel'
      /\ replace_loop fuel re_spaces rep bef (ws ++ b)
         = rep ++ replace_loop fuel' re_spaces rep bef' b.
Proof.
  intros Hn Hws Hb fuel bef H.
  destruct ws as [|c ws]; [contradiction|].
  inversion Hws as [|? ? Hc Hws']; subst.
  destruct fuel as [|fuel]; [lia|].
  cbn [app replace_loop]. rewrite spaces_at, Hc.
  set (y := eat is_space (ws ++ b) (advance c (ws ++ b) (start bef (c :: ws ++ b)))).
  pose proof (eat_pos is_space (ws ++ b) (advance c (ws ++ b) (start bef (c :: ws ++ b))))
    as Pp. fold y in Pp. cbn [advance pos start] in Pp.
  replace (Nat.eqb (pos y) 0) with false by (symmetry; apply Nat.eqb_neq; lia).
  assert (Ea : after y = b).
  { unfold y. rewrite eat_spaces_after by reflexivity.
    rewrite (trimStart_spaces ws b Hws').
    destruct b as [|d b]; [reflexivity|]. cbn [trimStart]. rewrite Hb. reflexivity. }
  rewrite Ea. exists fuel, (before y). split; [|reflexivity].
  simpl in H. rewrite length_app in H. lia.
Qed.

Lemma replace_spaces_end rep fuel bef : 
  replace_loop (S fuel) re_spaces rep bef [] = [].
Proof. cbn [replace_loop]. rewrite spaces_at. reflexivity. Qed.

Lemma trim_between s :
  starts_solid s -> starts_solid (rev s) -> trim s = s.
Proof.
  intros H1 H2. unfold trim, trimEnd.
  assert (T : forall u, starts_solid u -> trimStart u = u).
  { intros [|c u] Hu; [contradiction|]. cbn [trimStart starts_solid] in *.
    rewrite Hu. reflexivity. }
  rewrite (T s H1), (T (rev s) H2). apply rev_involutive.
Qed.

Lemma solid_starts a rest : solid a -> a <> [] -> starts_solid (a ++ rest).
Proof. intros [|c a' Hc _] Hn; [contradiction|exact Hc]. Qed.

(** Collapsing the white space of two words with a run of white space
    between them. *)
Lemma squeeze_words a ws b :
  solid a -> blank ws -> solid b -> a <> [] -> b <> [] ->
  trim (replace_all re_spaces [32%N] (a ++ ws ++ b))
  = a ++ (match ws with [] => [] | _ => [32%N] end) ++ b.
Proof.
  intros Ha Hws Hb Na Nb.
  assert (E : replace_all re_spaces [32%N] (a ++ ws ++ b)
              = a ++ (match ws with [] => [] | _ => [32%N] end) ++ b).
  { unfold replace_all.
    rewrite (replace_spaces_solid _ a Ha) by apply Nat.lt_succ_diag_r. f_equal.
    assert (Hb' : forall fuel bef, length b < fuel ->
                    replace_loop fuel re_spaces [32%N] bef b = b).
    { intros fuel bef Hf. rewrite <- (app_nil_r b) at 1.
      rewrite (replace_spaces_solid _ b Hb) by (rewrite app_nil_r; exact Hf).
      replace (fuel - length b) with (S (fuel - length b - 1)) by lia.
      rewrite replace_spaces_end. apply app_nil_r. }
    destruct ws as [|c ws].
    - cbn [app]. apply Hb'. rewrite length_app. lia.
    - destruct (replace_spaces_run [32%N] (c :: ws) b ltac:(discriminate) Hws
                  ltac:(destruct Hb; [exact I|assumption])
                  (S (length (a ++ (c :: ws) ++ b)) - length a) (rev a ++ []))
        as (fuel' & bef' & Hf & ->).
      + rewrite !length_app. lia.
      + rewrite (Hb' fuel' bef' Hf). reflexivity. }
  rewrite E. apply trim_between.
  - apply solid_starts; assumption.
  - rewrite !rev_app_distr, <- app_assoc. apply solid_starts.
    + apply Forall_rev, Hb.
    + intros Hr. apply Nb. apply (f_equal (@rev char)) in Hr.
      rewrite rev_involutive in Hr. exact Hr.
Qed.

Lemma canon_solid (l : jsstring) w :
  map canonicalize w = l -> Forall (fun c => is_space c = false) l -> solid w.
Proof.
  intros <-. unfold solid. induction w as [|c w IH]; intros H; [constructor|].
  cbn [map] in H. inversion H as [|? ? Hc Hw]; subst.
  constructor; [|exact (IH Hw)].
  destruct (is_space c) eqn:E; [|reflexivity].
  rewrite (space_fixed c E), E in Hc. discriminate.
Qed.

Lemma lang_spaces ws :
  lang (star (cls_i is_space)) ws -> blank ws.
Proof.
  unfold star, cls_i. cbn [lang]. intros (l & -> & Hl & _).
  apply Forall_concat. eapply Forall_impl; [|exact Hl].
  intros u (c & -> & Hc). repeat constructor. exact (canonicalize_space c Hc).
Qed.

(** The texts of a pattern of two words with optional white space
    between them. *)
Lemma lang_two_words (A B : string) w :
  lang (seq [word_i A; star (cls_i is_space); word_i B]) w ->
  exists a ws b,
    w = a ++ ws ++ b
    /\ map canonicalize a = map canonicalize (codes A)
    /\ blank ws
    /\ map canonicalize b = map canonicalize (codes B).
Proof.
  cbn [seq lang]. intros (a & v & -> & La & ws & b & -> & Lws & Lb).
  exists a, ws, b. split; [reflexivity|].
  split; [exact (lang_chars_i _ a La)|].
  split; [exact (lang_spaces ws Lws)|exact (lang_chars_i _ b Lb)].
Qed.

Lemma squeeze_word w :
  solid w -> trim (replace_all re_spaces [32%N] w) = w.
Proof.
  intros Hs. unfold replace_all. rewrite <- (app_nil_r w) at 2.
  rewrite (replace_spaces_solid _ w Hs) by (rewrite app_nil_r; apply Nat.lt_succ_diag_r).
  replace (S (length w) - length w) with 1 by lia.
  rewrite replace_spaces_end, app_nil_r. apply trim_solid, Hs.
Qed.

Lemma one_word_names (A : string) :
  Forall (fun c => is_space c = false) (map canonicalize (codes A)) ->
  In (map canonicalize (codes A)) store_names ->
  names_store (word_i A).
Proof.
  intros HA Hin w L. unfold word_i in L. apply lang_chars_i in L.
  rewrite (squeeze_word w (canon_solid _ w L HA)), L. exact Hin.
Qed.

Lemma two_words_name (A B : string) :
  Forall (fun c => is_space c = false) (map canonicalize (codes A)) ->
  Forall (fun c => is_space c = false) (map canonicalize (codes B)) ->
  codes A <> [] -> codes B <> [] ->
  In (map canonicalize (codes A) ++ map canonicalize (codes B)) store_names ->
  In (map canonicalize (codes A) ++ 32%N :: map canonicalize (codes B)) store_names ->
  names_store (seq [word_i A; star (cls_i is_space); word_i B]).
Proof.
  intros HA HB NA NB I0 I1 w L.
  apply lang_two_words in L as (a & ws & b & -> & Ea & Hws & Eb).
  assert (Na : a <> []) by (intros ->; destruct (codes A); [auto|discriminate]).
  assert (Nb : b <> []) by (intros ->; destruct (codes B); [auto|discriminate]).
  rewrite (squeeze_words a ws b (canon_solid _ a Ea HA) Hws (canon_solid _ b Eb HB) Na Nb).
  destruct ws; cbn [app]; rewrite map_app; cbn [map]; rewrite Ea, Eb;
    [exact I0|exact I1].
Qed.

Lemma store_patterns_named : Forall names_store storePatterns.
Proof.
  unfold storePatterns.
  repeat (apply Forall_cons || apply Forall_nil);
    first [ apply one_word_names | apply two_words_name ];
    lazymatch goal with
    | |- Forall _ _ => repeat constructor
    | |- In _ _ => vm_compute; repeat (first [left; reflexivity | right])
    | |- _ <> _ => discriminate
    end.
Qed.

Lemma find_store_named text : forall patterns m,
  Forall names_store patterns ->
  find_store patterns text = Some m ->
  In (map canonicalize m) store_names.
Proof.
  induction patterns as [|p rest IH]; intros m HP H; [discriminate|].
  inversion HP as [|? ? Hp HR]; subst. cbn [find_store] in H.
  destruct (smatch p text) as [r|] eqn:E; [|exact (IH m HR H)].
  assert (B : In (map canonicalize (trim (replace_all re_spaces [32%N] (matched r))))
                store_names).
  { unfold smatch in E. apply search_sound in E as (pre & w & _ & L & -> & _).
    exact (Hp w L). }
  injection H as <-.
  destruct (test re_sportsholding _); [|exact B].
  destruct (smatch re_antonsport text) as [a|] eqn:Ea; [|exact B].
  unfold smatch in Ea. apply search_sound in Ea as (pre & w & _ & L & -> & _).
  apply lang_chars_i in L. rewrite L.
  vm_compute. repeat (first [left; reflexivity | right]).
Qed.

Lemma find_store_matched text : forall patterns,
  Exists (fun p => smatch p text <> None) patterns ->
  find_store patterns text <> None.
Proof.
  induction patterns as [|p rest IH]; intros H; inversion H as [? ? Hp|? ? Hr]; subst;
    cbn [find_store]; destruct (smatch p text); try discriminate;
    [contradiction|exact (IH Hr)].
Qed.

End StoreNames.

(** X23.  When a known store pattern matches the text, the merchant is
    that store's name as the text spells it, its words joined by one
    blank or by nothing: up to the case of its letters it is one of
    sixteen fixed spellings. *)
Theorem merchant_store_name text f :
  extractStructuredFields text = Some f ->
  Exists (fun p => smatch p text <> None) storePatterns ->
  exists m, merchant f = Some m /\ In (map canonicalize m) store_names.
Proof.
  intros E H. destruct (extract_total text) as (tot & _ & E').
  rewrite E' in E. injection E as <-. cbn [merchant]. unfold find_merchant.
  pose proof (find_store_matched text storePatterns H) as Hs.
  destruct (find_store storePatterns text) as [m|] eqn:Em; [|contradiction].
  exists m. split; [reflexivity|].
  exact (find_store_named text storePatterns m store_patterns_named Em).
Qed.

Lemma merchant_store_name_witness :
  exists m, Some (codes "rema 1000") = Some m /\ In (map canonicalize m) store_names.
Proof.
  apply (merchant_store_name (codes "  rema   1000 Oslo")
           (Fields (Some (codes "rema 1000")) None None (Some (codes "NOK")))).
  - vm_compute. reflexivity.
  - do 4 right. left. vm_compute. discriminate.
Defined.
